(** * devtoolsweb: memory-panel action creators and the animations controller

    A shallow embedding of

    - [client/memory/actions/snapshot.js]: the generator tasks
      [takeSnapshotAndCensus], [selectSnapshotAndRefresh], [takeSnapshot],
      [readSnapshot], [takeCensus], [refreshSelectedCensus] and the plain
      action creator [selectSnapshot];
    - the [AnimationsController] object of the animation inspector.

    A generator or an async function is a task: a function from a world to a
    result.  The world holds the state the code can reach and a script of
    the answers the remote side is going to give; a result holds how the
    task ended, the events it produced, in order, and the world it leaves. *)

From Stdlib Require Import List String ZArith QArith Bool Arith Lia Lqa.
Import ListNotations.
Close Scope Q_scope.
Open Scope string_scope.
Open Scope list_scope.

(** * Tasks

    The monad of both embeddings: a task runs on a world of type [W],
    produces events of type [E], and ends by returning, by throwing, by
    staying suspended on a promise that never settles, or by reaching the
    bound of a loop. *)
Module Task.

Section Monad.
Variables W E X : Type.

Inductive Outcome (A : Type) : Type :=
| Done (a : A)    (* returned [a] *)
| Threw (x : X)   (* an exception left the task *)
| Waiting         (* suspended on a promise that never settles *)
| OutOfFuel.      (* the bound of a loop was reached *)

Record Result (A : Type) : Type := {
  outcome : Outcome A;
  trace : list E;
  world : W
}.

Definition t (A : Type) : Type := W -> Result A.

Definition stop {A} (o : Outcome A) : t A :=
  fun w => Build_Result A o [] w.

Definition ret {A} (a : A) : t A := stop (Done A a).

Definition bind {A B} (m : t A) (k : A -> t B) : t B :=
  fun w =>
    let r := m w in
    match outcome A r with
    | Done _ a =>
        let r' := k a (world A r) in
        Build_Result B (outcome B r') (trace A r ++ trace B r') (world B r')
    | Threw _ x => Build_Result B (Threw B x) (trace A r) (world A r)
    | Waiting _ => Build_Result B (Waiting B) (trace A r) (world A r)
    | OutOfFuel _ => Build_Result B (OutOfFuel B) (trace A r) (world A r)
    end.

Definition emit (e : E) : t unit :=
  fun w => Build_Result unit (Done unit tt) [e] w.

Definition get : t W :=
  fun w => Build_Result W (Done W w) [] w.

Definition put (w : W) : t unit :=
  fun _ => Build_Result unit (Done unit tt) [] w.

(** [try { m } catch (x) { handler(x) }] *)
Definition try_catch {A} (m : t A) (handler : X -> t A) : t A :=
  fun w =>
    let r := m w in
    match outcome A r with
    | Threw _ x =>
        let r' := handler x (world A r) in
        Build_Result A (outcome A r') (trace A r ++ trace A r') (world A r')
    | _ => r
    end.

(** A call whose promise nobody waits for: the caller goes on whatever
    becomes of it. *)
Definition detach {A} (m : t A) : t unit :=
  fun w =>
    let r := m w in
    Build_Result unit (Done unit tt) (trace A r) (world A r).

(** [if (b) { m }] *)
Definition when (b : bool) (m : t unit) : t unit :=
  if b then m else ret tt.

(** The result [r] of what ran after the events [l]. *)
Definition prefixed {A} (l : list E) (r : Result A) : Result A :=
  Build_Result A (outcome A r) (l ++ trace A r) (world A r).

End Monad.

Arguments Done {X A} a.
Arguments Threw {X A} x.
Arguments Waiting {X A}.
Arguments OutOfFuel {X A}.
Arguments Build_Result {W E X A} outcome trace world.
Arguments outcome {W E X A} r.
Arguments trace {W E X A} r.
Arguments world {W E X A} r.
Arguments stop {W E X A} o w.
Arguments ret {W E X A} a w.
Arguments bind {W E X A B} m k w.
Arguments emit {W E X} e w.
Arguments get {W E X} w.
Arguments put {W E X} w _.
Arguments try_catch {W E X A} m handler w.
Arguments detach {W E X A} m w.
Arguments when {W E X} b m.
Arguments prefixed {W E X A} l r.

Declare Scope task_scope.
Delimit Scope task_scope with task.
Notation "x <- m ;; k" := (bind m (fun x => k))
  (at level 100, m at next level, right associativity) : task_scope.
Notation "m ;; k" := (bind m (fun _ => k))
  (at level 100, right associativity) : task_scope.

(** What an event says of the remote calls in flight. *)
Inductive Kind : Type :=
| Issues     (* a remote call is issued *)
| Settles    (* the promise of a remote call settles *)
| Local.     (* the event is none of these *)

(** Follows a trace from [busy] (a call is in flight): [None] when a call is
    issued while another one is in flight, or when a promise settles with no
    call in flight; otherwise, whether a call is in flight at the end. *)
Fixpoint flight {E} (kind : E -> Kind) (busy : bool) (tr : list E)
  : option bool :=
  match tr with
  | [] => Some busy
  | e :: rest =>
      match kind e, busy with
      | Issues, false => flight kind true rest
      | Issues, true => None
      | Settles, true => flight kind false rest
      | Settles, false => None
      | Local, _ => flight kind busy rest
      end
  end.

(** The remote calls of [m] come one at a time: no call is issued while
    another one is in flight. *)
Definition one_at_a_time {W E X A} (kind : E -> Kind) (m : t W E X A)
  : Prop :=
  forall w, flight kind false (trace (m w)) <> None.

(** Moreover [m] leaves a call in flight only when it is suspended on it. *)
Definition settles {W E X A} (kind : E -> Kind) (m : t W E X A) : Prop :=
  forall w, exists busy,
    flight kind false (trace (m w)) = Some busy
    /\ (busy = true -> outcome (m w) = Waiting).

(** Every event of [m] has the property [P]. *)
Definition emits {W E X A} (P : E -> Prop) (m : t W E X A) : Prop :=
  forall w e, In e (trace (m w)) -> P e.

(** [m] keeps the property [P] of the world. *)
Definition preserves {W E X A} (P : W -> Prop) (m : t W E X A) : Prop :=
  forall w, P w -> P (world (m w)).

(** [for (let x of l) { body(x) }] *)
Fixpoint for_of {W E X A} (l : list A) (body : A -> t W E X unit)
  : t W E X unit :=
  match l with
  | [] => ret tt
  | x :: rest => (body x ;; for_of rest body)%task
  end.

End Task.

(** * client/memory/actions/snapshot.js *)
Module Memory.
Import Task.

(** What the host owns and the action creators only pass around. *)
Class HostTypes : Type := {
  Breakdown : Type;   (* a census breakdown description *)
  Census : Type;      (* the value of [snapshot.census], null included *)
  Value : Type;       (* what a remote promise resolves with *)
  Error : Type;       (* what a remote promise rejects with *)
  Foreign : Type;     (* the actions of the other action creators *)
  UtilsState : Type   (* the private state of [../utils] *)
}.

Module Data.
Section Records.
Context `{HostTypes}.

(** Modelled from the spec: the [snapshotState] enum of [../constants], which
    the spec only calls "a state enum".  The module itself names [SAVED],
    [IMPORTING], [READ], [SAVED_CENSUS] and, in a comment, [SAVING_CENSUS];
    [SAVING], [READING] and [ERROR] stand for the states before a response
    and for the "error" state transition of the spec. *)
Inductive snapshotState : Type :=
| SAVING | SAVED | IMPORTING | READING | READ
| SAVING_CENSUS | SAVED_CENSUS | ERROR.

(** [===] on two members of the enum. *)
Definition state_eqb (a b : snapshotState) : bool :=
  match a, b with
  | SAVING, SAVING | SAVED, SAVED | IMPORTING, IMPORTING
  | READING, READING | READ, READ | SAVING_CENSUS, SAVING_CENSUS
  | SAVED_CENSUS, SAVED_CENSUS | ERROR, ERROR => true
  | _, _ => false
  end.

(** [Array.prototype.includes] on a list of states. *)
Definition includes (l : list snapshotState) (s : snapshotState) : bool :=
  existsb (state_eqb s) l.

(** The fields of a snapshot record that the module reads. *)
Record Snapshot : Type := {
  id : nat;
  state : snapshotState;
  path : Value;
  census : Census;
  selected : bool
}.

(** The fields of the store state that the module reads. *)
Record State : Type := {
  diffing : bool;
  inverted : bool;
  filter : option string;
  breakdown : Breakdown;
  snapshots : list Snapshot
}.

End Records.
End Data.
Import Data.

Section Model.
Context `{HostTypes}.

(** The action objects, one constructor per [type]. *)
Inductive Action : Type :=
| TAKE_SNAPSHOT_START (snapshot : Snapshot)
| TAKE_SNAPSHOT_END (id : nat) (path : Value)
| READ_SNAPSHOT_START (id : nat)
| READ_SNAPSHOT_END (id : nat) (creationTime : Value)
| TAKE_CENSUS_START (id : nat) (inverted : bool) (filter : option string)
                    (breakdown : Breakdown)
| TAKE_CENSUS_END (id : nat) (breakdown : Breakdown) (inverted : bool)
                  (filter : option string) (report : Value)
| SNAPSHOT_ERROR (id : nat) (error : Error)
| SELECT_SNAPSHOT (id : nat)
| OTHER (a : Foreign).

(** The options object handed to [heapWorker.takeCensus]. *)
Record CensusOptions : Type := {
  asInvertedTreeNode : bool;
  asTreeNode : bool;
  opts_filter : option string
}.

(** The calls on the two remote objects, [front] and [heapWorker]. *)
Inductive RemoteCall : Type :=
| front_saveHeapSnapshot
| heapWorker_readHeapSnapshot (path : Value)
| heapWorker_getCreationTime (path : Value)
| heapWorker_takeCensus (path : Value) (breakdown : Breakdown)
                        (opts : CensusOptions).

Inductive Settlement : Type :=
| Resolved (v : Value)
| Rejected (error : Error).

(** One answer of the remote side: the actions other parties dispatched
    while the task was suspended on the call, then how the promise settled. *)
Record Response : Type := {
  meanwhile : list Action;
  settled : Settlement
}.

(** The generators that are handed to [dispatch]. *)
Inductive TaskName : Type :=
| TakeSnapshot
| ReadSnapshot (id : nat)
| TakeCensus (id : nat)
| RefreshSelectedCensus.

Inductive Event : Type :=
| EvSpawn (t : TaskName)                    (* dispatch(<generator>) *)
| EvDispatch (a : Action)                   (* dispatch(<action object>) *)
| EvCall (c : RemoteCall)                   (* the remote call is issued *)
| EvSettled (r : Response)                  (* its promise settles *)
| EvReport (who : string) (error : Error).  (* reportException(who, error) *)

(** What the module imports and the store it runs against. *)
Class Host : Type := {
  (* ../utils *)
  censusIsUpToDate : bool -> option string -> Breakdown -> Census -> bool;
  getSnapshot : State -> nat -> option Snapshot;
  breakdownEquals : Breakdown -> Breakdown -> bool;
  createSnapshot : UtilsState -> Snapshot * UtilsState;
  (* ./diffing: [toggleDiffing()] makes an action of that module *)
  toggleDiffing : Foreign;
  (* devtools/shared/DevToolsUtils: does a failed [assert] throw? *)
  assertThrows : bool;
  (* the reducers of the store *)
  reduce : State -> Action -> State
}.

Context `{Host}.

Record World : Type := {
  store : State;
  utils : UtilsState;
  pending : list Response
}.

(** The tasks of the module; of an exception only a description is kept. *)
Definition Task (A : Type) : Type := Task.t World Event string A.

Open Scope task_scope.

(** [getState()] *)
Definition getState : Task State :=
  fun w => Build_Result (Done (store w)) [] w.

(** The world once the reducers have seen the action [a]. *)
Definition dispatched (a : Action) (w : World) : World :=
  {| store := reduce (store w) a; utils := utils w; pending := pending w |}.

(** The world once the answer [r] has come: the others have dispatched, the
    answers left are [rest]. *)
Definition resumed (r : Response) (rest : list Response) (w : World) : World :=
  {| store := fold_left reduce (meanwhile r) (store w);
     utils := utils w; pending := rest |}.

(** [dispatch(action)] on an action object: the reducers run at once. *)
Definition dispatch (a : Action) : Task unit :=
  fun w => Build_Result (Done tt) [EvDispatch a] (dispatched a w).

(** [yield dispatch(generator)]: the generator runs as a task of its own and
    the caller resumes with what it returned; an exception that leaves the
    generator is thrown at the [yield]. *)
Definition spawn {A} (t : TaskName) (body : Task A) : Task A :=
  emit (EvSpawn t) ;; body.

(** [yield <remote call>]: the task is suspended; other parties may dispatch
    in the meantime; the task resumes when the promise settles. *)
Definition yield (c : RemoteCall) : Task Settlement :=
  fun w =>
    match pending w with
    | [] => Build_Result Waiting [EvCall c] w
    | r :: rest =>
        Build_Result (Done (settled r)) [EvCall c; EvSettled r]
          (resumed r rest w)
    end.

(** [reportException(who, error)] *)
Definition reportException (who : string) (error : Error) : Task unit :=
  emit (EvReport who error).

(** [assert(condition, message)] *)
Definition assert (condition : bool) : Task unit :=
  if condition then ret tt
  else if assertThrows then stop (Threw "Assertion failure") else ret tt.

(** [getSnapshot(getState(), id)] followed by a property access: with no
    snapshot found, either the lookup or the access throws. *)
Definition getSnapshotOrThrow (id : nat) : Task Snapshot :=
  s <- getState ;;
  match getSnapshot s id with
  | Some snapshot => ret snapshot
  | None => stop (Threw "No matching snapshot found")
  end.

(** [createSnapshot()] *)
Definition newSnapshot : Task Snapshot :=
  fun w =>
    let (snapshot, u) := createSnapshot (utils w) in
    Build_Result (Done snapshot) []
      {| store := store w; utils := u; pending := pending w |}.

(** snapshot.js, [selectSnapshot] *)
Definition selectSnapshot (id : nat) : Action := SELECT_SNAPSHOT id.

(** snapshot.js, [takeSnapshot]: the id on success, [None] for [null]. *)
Definition takeSnapshot : Task (option nat) :=
  s <- getState ;;
  when (diffing s) (dispatch (OTHER toggleDiffing)) ;;
  snapshot <- newSnapshot ;;
  let id := id snapshot in
  dispatch (TAKE_SNAPSHOT_START snapshot) ;;
  dispatch (selectSnapshot id) ;;
  r <- yield front_saveHeapSnapshot ;;
  match r with
  | Rejected error =>
      reportException "takeSnapshot" error ;;
      dispatch (SNAPSHOT_ERROR id error) ;;
      ret None
  | Resolved path =>
      dispatch (TAKE_SNAPSHOT_END id path) ;;
      ret (Some (Data.id snapshot))
  end.

(** snapshot.js, [readSnapshot] *)
Definition readSnapshot (id : nat) : Task unit :=
  snapshot <- getSnapshotOrThrow id ;;
  assert (includes [SAVED; IMPORTING] (state snapshot)) ;;
  dispatch (READ_SNAPSHOT_START id) ;;
  let catch error :=
    reportException "readSnapshot" error ;;
    dispatch (SNAPSHOT_ERROR id error) in
  r <- yield (heapWorker_readHeapSnapshot (path snapshot)) ;;
  match r with
  | Rejected error => catch error
  | Resolved _ =>
      r <- yield (heapWorker_getCreationTime (path snapshot)) ;;
      match r with
      | Rejected error => catch error
      | Resolved creationTime =>
          dispatch (READ_SNAPSHOT_END id creationTime)
      end
  end.

(** [filter || null]: the empty string is falsy. *)
Definition filter_or_null (filter : option string) : option string :=
  match filter with
  | Some EmptyString => None
  | other => other
  end.

(** [a === b] on two filters (a string or null). *)
Definition filter_eqb (a b : option string) : bool :=
  match a, b with
  | Some x, Some y => String.eqb x y
  | None, None => true
  | _, _ => false
  end.

(** The [do ... while] of [takeCensus].  Every pass consumes one answer of
    the remote side, so the bound is never reached when it exceeds the
    number of answers left. *)
Fixpoint takeCensus_loop (fuel : nat) (snapshot : Snapshot) (id : nat)
  : Task unit :=
  match fuel with
  | O => stop OutOfFuel
  | S fuel =>
      s <- getState ;;
      let inverted := inverted s in
      let breakdown := breakdown s in
      let filter := filter s in
      dispatch (TAKE_CENSUS_START id inverted filter breakdown) ;;
      let opts :=
        {| asInvertedTreeNode := inverted;
           asTreeNode := negb inverted;
           opts_filter := filter_or_null filter |} in
      r <- yield (heapWorker_takeCensus (path snapshot) breakdown opts) ;;
      match r with
      | Rejected error =>
          reportException "takeCensus" error ;;
          dispatch (SNAPSHOT_ERROR id error)
      | Resolved report =>
          s' <- getState ;;
          if negb (Bool.eqb inverted (Data.inverted s'))
             || negb (filter_eqb filter (Data.filter s'))
             || negb (breakdownEquals breakdown (Data.breakdown s'))
          then takeCensus_loop fuel snapshot id
          else dispatch (TAKE_CENSUS_END id breakdown inverted filter report)
      end
  end.

(** snapshot.js, [takeCensus]; the loop is given one pass more than there
    are answers left. *)
Definition takeCensus (id : nat) : Task unit :=
  snapshot <- getSnapshotOrThrow id ;;
  assert (includes [READ; SAVED_CENSUS] (state snapshot)) ;;
  s <- getState ;;
  if censusIsUpToDate (inverted s) (filter s) (breakdown s) (census snapshot)
  then ret tt
  else fun w => takeCensus_loop (S (List.length (pending w))) snapshot id w.

(** snapshot.js, [takeSnapshotAndCensus] *)
Definition takeSnapshotAndCensus : Task unit :=
  r <- spawn TakeSnapshot takeSnapshot ;;
  match r with
  | None => ret tt
  | Some id =>
      spawn (ReadSnapshot id) (readSnapshot id) ;;
      snapshot <- getSnapshotOrThrow id ;;
      if state_eqb (state snapshot) READ
      then spawn (TakeCensus id) (takeCensus id)
      else ret tt
  end.

(** snapshot.js, [refreshSelectedCensus] *)
Definition refreshSelectedCensus : Task unit :=
  s <- getState ;;
  match find selected (snapshots s) with
  | Some snapshot =>
      if state_eqb (state snapshot) SAVED_CENSUS
      then spawn (TakeCensus (id snapshot)) (takeCensus (id snapshot))
      else ret tt
  | None => ret tt
  end.

(** snapshot.js, [selectSnapshotAndRefresh] *)
Definition selectSnapshotAndRefresh (id : nat) : Task unit :=
  s <- getState ;;
  when (diffing s) (dispatch (OTHER toggleDiffing)) ;;
  dispatch (selectSnapshot id) ;;
  spawn RefreshSelectedCensus refreshSelectedCensus.

(** ** Reading a trace *)

(** The store as the events of a trace leave it: a dispatch goes through the
    reducers, and so do the actions of the others when a promise settles. *)
Definition replay_event (s : State) (e : Event) : State :=
  match e with
  | EvDispatch a => reduce s a
  | EvSettled r => fold_left reduce (meanwhile r) s
  | _ => s
  end.

Definition replay (tr : list Event) (s : State) : State :=
  fold_left replay_event tr s.

(** An effect on a remote object or on the store: a call and its answer, a
    dispatched action, a dispatched generator. *)
Definition rpc_or_dispatch (e : Event) : Prop :=
  match e with
  | EvCall _ | EvSettled _ | EvDispatch _ | EvSpawn _ => True
  | EvReport _ _ => False
  end.

(** The event [e], which comes after the events [before], is no report, or
    it reports the error a remote promise was just rejected with. *)
Definition reports_failure (before : list Event) (e : Event) : Prop :=
  match e with
  | EvReport _ error =>
      exists pre a, before = pre ++ [EvSettled a] /\ settled a = Rejected error
  | _ => True
  end.

(** The task [m] leaves the store that the replay of its trace gives, from
    whatever world it runs, and each report in its trace follows the failure
    it reports. *)
Definition framed {A} (m : Task A) : Prop :=
  forall w,
    store (world (m w)) = replay (trace (m w)) (store w)
    /\ forall pre e post,
         trace (m w) = pre ++ e :: post -> reports_failure pre e.

Definition kind (e : Event) : Kind :=
  match e with
  | EvCall _ => Issues
  | EvSettled _ => Settles
  | _ => Local
  end.

(** What one pass of the loop of [takeCensus] sends, from the state [s]. *)
Definition census_start (id : nat) (s : State) : Action :=
  TAKE_CENSUS_START id (inverted s) (filter s) (breakdown s).

Definition census_call (snapshot : Snapshot) (s : State) : RemoteCall :=
  heapWorker_takeCensus (path snapshot) (breakdown s)
    {| asInvertedTreeNode := inverted s;
       asTreeNode := negb (inverted s);
       opts_filter := filter_or_null (filter s) |}.

Definition census_end (id : nat) (s : State) (report : Value) : Action :=
  TAKE_CENSUS_END id (breakdown s) (inverted s) (filter s) report.

(** The condition of the [while]: a census taken with [inverted], [filter]
    and [breakdown] is out of date in the state [s']. *)
Definition out_of_date (inverted : bool) (filter : option string)
    (breakdown : Breakdown) (s' : State) : bool :=
  negb (Bool.eqb inverted (Data.inverted s'))
  || negb (filter_eqb filter (Data.filter s'))
  || negb (breakdownEquals breakdown (Data.breakdown s')).

(** The inversion, filter and breakdown a census was taken with are those
    of the state [s']: [===] on the first two, [breakdownEquals] on the
    third. *)
Definition same_census (inverted : bool) (filter : option string)
    (breakdown : Breakdown) (s' : State) : Prop :=
  inverted = Data.inverted s' /\ filter = Data.filter s'
  /\ breakdownEquals breakdown (Data.breakdown s') = true.

End Model.
End Memory.

(** * The animations controller *)
Module Animations.
Import Task.

(** A reference held in [nodeFront]: never assigned, [null], or a node. *)
Inductive JsRef : Type :=
| Undefined
| Null
| NodeFront (n : nat).

(** [a === b] on two references. *)
Definition ref_eqb (a b : JsRef) : bool :=
  match a, b with
  | Undefined, Undefined => true
  | Null, Null => true
  | NodeFront n, NodeFront m => Nat.eqb n m
  | _, _ => false
  end.

(** What [state.documentCurrentTime] holds when the getter reads it: nothing
    ([undefined] or [null], when the server does not send it), [NaN], or a
    finite number.  A finite double is a rational, so the times with a
    fraction are there; the two zeros are one; the infinities, which no
    packet of the protocol carries, are left out. *)
Inductive Time : Type :=
| Missing
| NaN
| Finite (q : Q).

(** What the controller reads of a player's [state]. *)
Record PlayerState : Type := {
  documentCurrentTime : Time
}.

(** An [AnimationPlayerFront]; two fronts are the same object when they
    stand for the same actor. *)
Record Player : Type := {
  actorID : nat;
  state : PlayerState
}.

Definition same_player (a b : Player) : bool :=
  Nat.eqb (actorID a) (actorID b).

(** One entry of the array handed to [onAnimationMutations]. *)
Record Change : Type := {
  type : string;
  player : Player
}.

(** The [traits] object: a property that was never set reads as
    [undefined], which is falsy. *)
Definition Traits : Type := list (string * bool).

Definition trait_of (traits : Traits) (name : string) : bool :=
  match find (fun kv => String.eqb (fst kv) name) traits with
  | Some (_, b) => b
  | None => false
  end.

(** [traits[name] = b] *)
Definition set_trait (traits : Traits) (name : string) (b : bool) : Traits :=
  (name, b) :: List.filter (fun kv => negb (String.eqb (fst kv) name)) traits.

(** The calls that go to the remote side. *)
Inductive RemoteCall : Type :=
| target_actorHasMethod (actor method : string)
| animationsFront_toggleAll
| animationsFront_toggleSeveral (players : list Player) (shouldPause : bool)
| animationsFront_setCurrentTimes (players : list Player) (time : Z)
                                  (shouldPause : bool)
| animationsFront_setPlaybackRates (players : list Player) (rate : Z)
| animationsFront_getAnimationPlayersForNode (nodeFront : JsRef)
| animationsFront_stopAnimationPlayerUpdates
| player_pause (p : Player)
| player_play (p : Player)
| player_setCurrentTime (p : Player) (time : Z)
| player_setPlaybackRate (p : Player) (rate : Z)
| player_release (p : Player).

(** One answer of the remote side: the promise is rejected with an error, or
    resolved with a value that [getAnimationPlayersForNode] reads as a list
    of players and [actorHasMethod] as a boolean. *)
Record Answer : Type := {
  rejection : option string;
  players : list Player;
  flag : bool
}.

(** Who calls the controller back.  [timers] stands for the timeout helpers
    the file imports ([setNamedTimeout] and the like). *)
Inductive Source : Type :=
| selection      (* gInspector.selection *)
| sidebar        (* gInspector.sidebar *)
| toolbox        (* gToolbox *)
| front_events   (* this.animationsFront *)
| timers.

Inductive Handler : Type :=
| handle_onNewNodeFront
| handle_onPanelVisibilityChange
| handle_onAnimationMutations.

Record Listener : Type := {
  source : Source;
  event : string;
  handler : Handler
}.

Definition source_eqb (a b : Source) : bool :=
  match a, b with
  | selection, selection | sidebar, sidebar | toolbox, toolbox
  | front_events, front_events | timers, timers => true
  | _, _ => false
  end.

Definition handler_eqb (a b : Handler) : bool :=
  match a, b with
  | handle_onNewNodeFront, handle_onNewNodeFront
  | handle_onPanelVisibilityChange, handle_onPanelVisibilityChange
  | handle_onAnimationMutations, handle_onAnimationMutations => true
  | _, _ => false
  end.

Definition listens_to (src : Source) (name : string) (l : Listener) : bool :=
  source_eqb (source l) src && String.eqb (event l) name.

Definition listener_eqb (a b : Listener) : bool :=
  listens_to (source b) (event b) a && handler_eqb (handler a) (handler b).

Inductive Event : Type :=
| EvCall (c : RemoteCall)            (* the remote call is issued *)
| EvSettled (a : Answer)             (* its promise settles *)
| EvEmit (name : string) (players : option (list Player))  (* this.emit *)
| EvUpdating (who : string)          (* gInspector.updating(who) *)
| EvUpdated                          (* the callback it returned *)
| EvWarn (message : string)          (* console.warn *)
| EvError (error : string)           (* console.error *)
| EvFrontDestroyed.                  (* this.animationsFront.destroy() *)

(** The properties of the controller object.  A deferred is absent, pending
    ([Some false]) or resolved ([Some true]). *)
Record Controller : Type := {
  initialized : option bool;
  destroyed : option bool;
  animationsFront : bool;            (* holds a front, not null *)
  traits : option Traits;
  nodeFront : JsRef;
  isListeningToMutations : bool;
  animationPlayers : list Player
}.

(** What the controller reads of [gToolbox] and [gInspector]. *)
Record Panel : Type := {
  currentToolId : string;
  currentTabID : option string;      (* [None]: there is no sidebar *)
  selection_nodeFront : JsRef;
  selection_isConnected : bool;
  selection_isElementNode : bool
}.

Record World : Type := {
  this : Controller;
  panel : Panel;
  listeners : list Listener;
  answers : list Answer
}.

(** The methods of the controller; an exception is its message. *)
Definition Method (A : Type) : Type := Task.t World Event string A.

Open Scope task_scope.

Definition PLAYERS_UPDATED_EVENT : string := "players-updated".

(** The controller as a new page finds it. *)
Definition AnimationsController : Controller :=
  {| initialized := None; destroyed := None; animationsFront := false;
     traits := None; nodeFront := Undefined;
     isListeningToMutations := false; animationPlayers := [] |}.

Definition self : Method Controller :=
  w <- get ;; ret (this w).

Definition update (f : Controller -> Controller) : Method unit :=
  w <- get ;;
  put {| this := f (this w); panel := panel w; listeners := listeners w;
         answers := answers w |}.

Definition set_initialized (v : option bool) (c : Controller) : Controller :=
  {| initialized := v; destroyed := destroyed c;
     animationsFront := animationsFront c; traits := traits c;
     nodeFront := nodeFront c;
     isListeningToMutations := isListeningToMutations c;
     animationPlayers := animationPlayers c |}.

Definition set_destroyed (v : option bool) (c : Controller) : Controller :=
  {| initialized := initialized c; destroyed := v;
     animationsFront := animationsFront c; traits := traits c;
     nodeFront := nodeFront c;
     isListeningToMutations := isListeningToMutations c;
     animationPlayers := animationPlayers c |}.

Definition set_animationsFront (v : bool) (c : Controller) : Controller :=
  {| initialized := initialized c; destroyed := destroyed c;
     animationsFront := v; traits := traits c;
     nodeFront := nodeFront c;
     isListeningToMutations := isListeningToMutations c;
     animationPlayers := animationPlayers c |}.

Definition set_traits (v : option Traits) (c : Controller) : Controller :=
  {| initialized := initialized c; destroyed := destroyed c;
     animationsFront := animationsFront c; traits := v;
     nodeFront := nodeFront c;
     isListeningToMutations := isListeningToMutations c;
     animationPlayers := animationPlayers c |}.

Definition set_nodeFront (v : JsRef) (c : Controller) : Controller :=
  {| initialized := initialized c; destroyed := destroyed c;
     animationsFront := animationsFront c; traits := traits c;
     nodeFront := v;
     isListeningToMutations := isListeningToMutations c;
     animationPlayers := animationPlayers c |}.

Definition set_isListeningToMutations (v : bool) (c : Controller)
  : Controller :=
  {| initialized := initialized c; destroyed := destroyed c;
     animationsFront := animationsFront c; traits := traits c;
     nodeFront := nodeFront c;
     isListeningToMutations := v;
     animationPlayers := animationPlayers c |}.

Definition set_animationPlayers (v : list Player) (c : Controller)
  : Controller :=
  {| initialized := initialized c; destroyed := destroyed c;
     animationsFront := animationsFront c; traits := traits c;
     nodeFront := nodeFront c;
     isListeningToMutations := isListeningToMutations c;
     animationPlayers := v |}.

(** [await <remote call>]: a rejected promise throws at the [await]. *)
Definition await (c : RemoteCall) : Method Answer :=
  fun w =>
    match answers w with
    | [] => Build_Result Waiting [EvCall c] w
    | a :: rest =>
        let w' := {| this := this w; panel := panel w;
                     listeners := listeners w; answers := rest |} in
        match rejection a with
        | Some error => Build_Result (Threw error) [EvCall c; EvSettled a] w'
        | None => Build_Result (Done a) [EvCall c; EvSettled a] w'
        end
    end.

(** [this.traits.<name>]: reading a property of [undefined] throws. *)
Definition trait (name : string) : Method bool :=
  c <- self ;;
  match traits c with
  | Some traits => ret (trait_of traits name)
  | None => stop (Threw "TypeError: this.traits is undefined")
  end.

(** A call on [this.animationsFront], which may hold no front. *)
Definition on_front {A} (m : Method A) : Method A :=
  c <- self ;;
  if animationsFront c then m
  else stop (Threw "TypeError: this.animationsFront is not an object").

(** [<source>.on(name, handler)] *)
Definition on (src : Source) (name : string) (h : Handler) : Method unit :=
  w <- get ;;
  put {| this := this w; panel := panel w;
         listeners := listeners w
                        ++ [{| source := src; event := name; handler := h |}];
         answers := answers w |}.

(** [<source>.off(name, handler)] *)
Definition off (src : Source) (name : string) (h : Handler) : Method unit :=
  w <- get ;;
  put {| this := this w; panel := panel w;
         listeners :=
           List.filter
             (fun l => negb (listener_eqb l
                {| source := src; event := name; handler := h |}))
             (listeners w);
         answers := answers w |}.

(** A method of [gInspector.sidebar], which may be missing. *)
Definition on_sidebar (m : Method unit) : Method unit :=
  w <- get ;;
  match currentTabID (panel w) with
  | Some _ => m
  | None => stop (Threw "TypeError: gInspector.sidebar is null")
  end.

(** [getServerTraits]: the table of capabilities to ask for. *)
Definition config : list (string * (string * string)) :=
  [ ("hasToggleAll", ("animations", "toggleAll"));
    ("hasToggleSeveral", ("animations", "toggleSeveral"));
    ("hasSetCurrentTime", ("animationplayer", "setCurrentTime"));
    ("hasMutationEvents", ("animations", "stopAnimationPlayerUpdates"));
    ("hasSetPlaybackRate", ("animationplayer", "setPlaybackRate"));
    ("hasSetPlaybackRates", ("animations", "setPlaybackRates"));
    ("hasTargetNode", ("domwalker", "getNodeFromActor"));
    ("hasSetCurrentTimes", ("animations", "setCurrentTimes"));
    ("hasGetFrames", ("animationplayer", "getFrames")) ].

Fixpoint getServerTraits_loop (config : list (string * (string * string)))
    (traits : Traits) : Method Traits :=
  match config with
  | [] => ret traits
  | (name, (actor, method)) :: rest =>
      a <- await (target_actorHasMethod actor method) ;;
      getServerTraits_loop rest (set_trait traits name (flag a))
  end.

Definition getServerTraits : Method Traits :=
  getServerTraits_loop config [].

(** [startListeners] *)
Definition startListeners : Method unit :=
  on selection "new-node-front" handle_onNewNodeFront ;;
  on_sidebar (on sidebar "select" handle_onPanelVisibilityChange) ;;
  on toolbox "select" handle_onPanelVisibilityChange.

(** [stopListeners] *)
Definition stopListeners : Method unit :=
  off selection "new-node-front" handle_onNewNodeFront ;;
  on_sidebar (off sidebar "select" handle_onPanelVisibilityChange) ;;
  off toolbox "select" handle_onPanelVisibilityChange ;;
  c <- self ;;
  when (isListeningToMutations c)
    (on_front (off front_events "mutations" handle_onAnimationMutations)).

(** [isPanelVisible] *)
Definition isPanelVisible (p : Panel) : bool :=
  String.eqb (currentToolId p) "inspector"
  && match currentTabID p with
     | Some tab => String.eqb tab "animationinspector"
     | None => false
     end.

(** [destroyAnimationPlayers] *)
Definition destroyAnimationPlayers : Method unit :=
  hasMutationEvents <- trait "hasMutationEvents" ;;
  when hasMutationEvents
    (on_front (await animationsFront_stopAnimationPlayerUpdates ;; ret tt)) ;;
  c <- self ;;
  for_of (animationPlayers c) (fun front =>
    await (player_release front) ;; ret tt) ;;
  update (set_animationPlayers []).

(** [refreshAnimationPlayers] *)
Definition refreshAnimationPlayers (nodeFront : JsRef) : Method unit :=
  destroyAnimationPlayers ;;
  a <- on_front (await (animationsFront_getAnimationPlayersForNode nodeFront)) ;;
  update (set_animationPlayers (players a)) ;;
  c <- self ;;
  hasMutationEvents <- trait "hasMutationEvents" ;;
  when (negb (isListeningToMutations c) && hasMutationEvents)
    (on_front (on front_events "mutations" handle_onAnimationMutations) ;;
     update (set_isListeningToMutations true)).

(** [onNewNodeFront] *)
Definition onNewNodeFront : Method unit :=
  w <- get ;;
  if negb (isPanelVisible (panel w))
     || ref_eqb (nodeFront (this w)) (selection_nodeFront (panel w))
  then ret tt
  else
    emit (EvUpdating "animationscontroller") ;;
    if negb (selection_isConnected (panel w))
       || negb (selection_isElementNode (panel w))
    then
      destroyAnimationPlayers ;;
      emit (EvEmit PLAYERS_UPDATED_EVENT None) ;;
      emit EvUpdated
    else
      update (set_nodeFront (selection_nodeFront (panel w))) ;;
      c <- self ;;
      refreshAnimationPlayers (nodeFront c) ;;
      c <- self ;;
      emit (EvEmit PLAYERS_UPDATED_EVENT (Some (animationPlayers c))) ;;
      emit EvUpdated.

(** [onPanelVisibilityChange]: the promise of [onNewNodeFront] is dropped. *)
Definition onPanelVisibilityChange : Method unit :=
  w <- get ;;
  when (isPanelVisible (panel w)) (detach onNewNodeFront).

(** [initialize] *)
Definition initialize : Method unit :=
  c <- self ;;
  match initialized c with
  | Some resolved => if resolved then ret tt else stop Waiting
  | None =>
      update (set_initialized (Some false)) ;;
      update (set_animationsFront true) ;;
      traits <- getServerTraits ;;
      update (set_traits (Some traits)) ;;
      c <- self ;;
      match destroyed c with
      | Some _ =>
          emit (EvWarn "Could not fully initialize the AnimationsController")
      | None =>
          startListeners ;;
          onNewNodeFront ;;
          update (set_initialized (Some true))
      end
  end.

(** [destroy] *)
Definition destroy : Method unit :=
  c <- self ;;
  match initialized c with
  | None => ret tt
  | Some _ =>
      match destroyed c with
      | Some resolved => if resolved then ret tt else stop Waiting
      | None =>
          update (set_destroyed (Some false)) ;;
          stopListeners ;;
          destroyAnimationPlayers ;;
          update (set_nodeFront Null) ;;
          c <- self ;;
          when (animationsFront c)
            (emit EvFrontDestroyed ;; update (set_animationsFront false)) ;;
          update (set_destroyed (Some true))
      end
  end.

(** [toggleAll] *)
Definition toggleAll : Method unit :=
  hasToggleAll <- trait "hasToggleAll" ;;
  if negb hasToggleAll then ret tt
  else
    on_front (try_catch (await animationsFront_toggleAll ;; ret tt)
                        (fun e => emit (EvError e))).

(** [toggleCurrentAnimations] *)
Definition toggleCurrentAnimations (shouldPause : bool) : Method unit :=
  hasToggleSeveral <- trait "hasToggleSeveral" ;;
  c <- self ;;
  if hasToggleSeveral then
    on_front (await (animationsFront_toggleSeveral (animationPlayers c)
                                                   shouldPause) ;; ret tt)
  else
    for_of (animationPlayers c) (fun player =>
      if shouldPause then await (player_pause player) ;; ret tt
      else await (player_play player) ;; ret tt).

(** [setCurrentTimeAll] *)
Definition setCurrentTimeAll (time : Z) (shouldPause : bool) : Method unit :=
  hasSetCurrentTimes <- trait "hasSetCurrentTimes" ;;
  c <- self ;;
  if hasSetCurrentTimes then
    on_front (await (animationsFront_setCurrentTimes (animationPlayers c) time
                                                     shouldPause) ;; ret tt)
  else
    for_of (animationPlayers c) (fun animation =>
      when shouldPause (await (player_pause animation) ;; ret tt) ;;
      await (player_setCurrentTime animation time) ;; ret tt).

(** [setPlaybackRateAll] *)
Definition setPlaybackRateAll (rate : Z) : Method unit :=
  hasSetPlaybackRates <- trait "hasSetPlaybackRates" ;;
  c <- self ;;
  if hasSetPlaybackRates then
    on_front (await (animationsFront_setPlaybackRates (animationPlayers c)
                                                      rate) ;; ret tt)
  else
    hasSetPlaybackRate <- trait "hasSetPlaybackRate" ;;
    when hasSetPlaybackRate
      (for_of (animationPlayers c) (fun animation =>
         await (player_setPlaybackRate animation rate) ;; ret tt)).

(** [Array.prototype.indexOf]: the index of the first occurrence, or -1. *)
Fixpoint indexOf (l : list Player) (p : Player) : Z :=
  match l with
  | [] => -1
  | x :: rest =>
      if same_player x p then 0
      else let i := indexOf rest p in
           if (i <? 0)%Z then -1 else (i + 1)%Z
  end.

(** [Array.prototype.splice(start, deleteCount)]: a negative [start] counts
    from the end of the array. *)
Definition splice {A} (l : list A) (start deleteCount : Z) : list A :=
  let len := Z.of_nat (List.length l) in
  let actualStart :=
    if (start <? 0)%Z then Z.max (len + start) 0 else Z.min start len in
  let actualDeleteCount :=
    Z.min (Z.max deleteCount 0) (len - actualStart) in
  firstn (Z.to_nat actualStart) l
    ++ skipn (Z.to_nat (actualStart + actualDeleteCount)) l.

(** [onAnimationMutations] *)
Definition onAnimationMutations (changes : list Change) : Method unit :=
  for_of changes (fun change =>
    when (String.eqb (type change) "added")
      (c <- self ;;
       update (set_animationPlayers (animationPlayers c ++ [player change]))) ;;
    when (String.eqb (type change) "removed")
      (await (player_release (player change)) ;;
       c <- self ;;
       let index := indexOf (animationPlayers c) (player change) in
       update (set_animationPlayers (splice (animationPlayers c) index 1)))) ;;
  c <- self ;;
  emit (EvEmit PLAYERS_UPDATED_EVENT (Some (animationPlayers c))).

(** What the [documentCurrentTime] getter returns: [false] or a number. *)
Inductive FalseOrNumber : Type :=
| JsFalse
| JsNumber (q : Q).

(** [!x] on a time: a missing time, [NaN] and zero are falsy. *)
Definition falsy (x : Time) : bool :=
  match x with
  | Missing | NaN => true
  | Finite q => Qeq_bool q 0
  end.

(** [Math.max(a, b)] on two finite numbers: the comparison of two doubles
    is that of their values. *)
Definition Math_max (a b : Q) : Q :=
  if Qle_bool a b then b else a.

(** The loop of the [documentCurrentTime] getter, from a given [time]. *)
Fixpoint documentCurrentTime_from (time : Q) (l : list Player)
  : FalseOrNumber :=
  match l with
  | [] => JsNumber time
  | p :: rest =>
      if falsy (documentCurrentTime (state p)) then JsFalse
      else
        match documentCurrentTime (state p) with
        | Finite q => documentCurrentTime_from (Math_max time q) rest
        | Missing | NaN => JsFalse
        end
  end.

(** [get documentCurrentTime()] *)
Definition get_documentCurrentTime (c : Controller) : FalseOrNumber :=
  documentCurrentTime_from 0 (animationPlayers c).

(** ** Reading a trace *)

Definition kind (e : Event) : Kind :=
  match e with
  | EvCall _ => Issues
  | EvSettled _ => Settles
  | _ => Local
  end.

(** The remote calls of a trace, in order. *)
Fixpoint calls (tr : list Event) : list RemoteCall :=
  match tr with
  | [] => []
  | EvCall c :: rest => c :: calls rest
  | _ :: rest => calls rest
  end.

(** The listeners that the controller adds: the three of [startListeners]
    and the one of [refreshAnimationPlayers]. *)
Definition controller_listeners : list Listener :=
  [ {| source := selection; event := "new-node-front";
       handler := handle_onNewNodeFront |};
    {| source := sidebar; event := "select";
       handler := handle_onPanelVisibilityChange |};
    {| source := toolbox; event := "select";
       handler := handle_onPanelVisibilityChange |};
    {| source := front_events; event := "mutations";
       handler := handle_onAnimationMutations |} ].

Definition only_controller_listeners (w : World) : Prop :=
  forall l, In l (listeners w) -> In l controller_listeners.

(** The list of players is asked for again. *)
Definition refreshes (tr : list Event) : Prop :=
  exists nodeFront,
    In (EvCall (animationsFront_getAnimationPlayersForNode nodeFront)) tr.

(** The event does not ask for the list of players. *)
Definition not_a_refresh (e : Event) : Prop :=
  match e with
  | EvCall (animationsFront_getAnimationPlayersForNode _) => False
  | _ => True
  end.

(** How many times a trace asks the front for the players of a node. *)
Fixpoint asked (tr : list Event) : nat :=
  match tr with
  | [] => 0
  | EvCall (animationsFront_getAnimationPlayersForNode _) :: rest =>
      S (asked rest)
  | _ :: rest => asked rest
  end.

(** In a run, [m] asks the front for the players [n] times at most. *)
Definition asks_at_most {A} (n : nat) (m : Method A) : Prop :=
  forall w, asked (trace (m w)) <= n.

(** Unless it asks the front for the players, [m] leaves the list of
    players as it was, or empty. *)
Definition keeps_or_empties {A} (m : Method A) : Prop :=
  forall w,
    refreshes (trace (m w))
    \/ animationPlayers (this (world (m w))) = animationPlayers (this w)
    \/ animationPlayers (this (world (m w))) = [].

(** The times of the players that have one. *)
Definition times (l : list Player) : list Q :=
  flat_map (fun p => match documentCurrentTime (state p) with
                     | Finite q => [q]
                     | Missing | NaN => []
                     end) l.

(** The greatest of some numbers; of none, 0. *)
Definition maximum (qs : list Q) : Q :=
  match qs with
  | [] => 0%Q
  | q :: rest => fold_left Math_max rest q
  end.

(** The times are those of a document timeline, which counts from the time
    origin of the document: none is negative. *)
Definition timeline_times (l : list Player) : Prop :=
  forall q, In q (times l) -> (0 <= q)%Q.

(** The [documentCurrentTime] getter in the words of the specification:
    false when the time of some player is falsy, otherwise the maximum of
    the times of the players, and 0 when there is no player. *)
Definition documentCurrentTime_spec (l : list Player) : FalseOrNumber :=
  if existsb (fun p => falsy (documentCurrentTime (state p))) l
  then JsFalse
  else JsNumber (maximum (times l)).

(** The calls that the fallback of [toggleCurrentAnimations] and of
    [setCurrentTimeAll] make for one player. *)
Definition toggle_call (shouldPause : bool) (p : Player) : RemoteCall :=
  if shouldPause then player_pause p else player_play p.

Definition setCurrentTime_calls (time : Z) (shouldPause : bool) (p : Player)
  : list RemoteCall :=
  (if shouldPause then [player_pause p] else [])
    ++ [player_setCurrentTime p time].

(** The host calls back the listeners of an event, in the order they were
    added; nobody waits for what an async listener returns. *)
Definition call_handler (h : Handler) (changes : list Change) : Method unit :=
  match h with
  | handle_onNewNodeFront => onNewNodeFront
  | handle_onPanelVisibilityChange => onPanelVisibilityChange
  | handle_onAnimationMutations => onAnimationMutations changes
  end.

Definition fire (src : Source) (name : string) (changes : list Change)
  : Method unit :=
  w <- get ;;
  for_of (List.filter (listens_to src name) (listeners w)) (fun l =>
    detach (call_handler (handler l) changes)).

End Animations.

(** * A sample host

    A small store, and a small page, to run the code on concrete inputs. *)
Module Sample.
Import Task Memory Memory.Data.

Record SavedCensus : Type := {
  census_report : option string;
  census_breakdown : string;
  census_inverted : bool;
  census_filter : option string
}.

Inductive OtherAction : Type :=
| TOGGLE_DIFFING
| SET_BREAKDOWN (breakdown : string)
| TOGGLE_INVERTED
| SET_FILTER (filter : option string).

#[export] Instance types : HostTypes := {|
  Breakdown := string;
  Census := option SavedCensus;
  Value := string;
  Error := string;
  Foreign := OtherAction;
  UtilsState := nat
|}.

Definition set_snapshots (s : State) (l : list Snapshot) : State :=
  {| diffing := diffing s; inverted := inverted s; filter := filter s;
     breakdown := breakdown s; snapshots := l |}.

(** Applies [f] to the snapshot called [i], if any. *)
Definition change (i : nat) (f : Snapshot -> Snapshot) (s : State) : State :=
  set_snapshots s
    (map (fun x => if Nat.eqb (id x) i then f x else x) (snapshots s)).

Definition with_state (st : snapshotState) (x : Snapshot) : Snapshot :=
  {| id := id x; state := st; path := path x; census := census x;
     selected := selected x |}.

Definition with_path (p : string) (x : Snapshot) : Snapshot :=
  {| id := id x; state := state x; path := p; census := census x;
     selected := selected x |}.

Definition with_census (c : option SavedCensus) (x : Snapshot) : Snapshot :=
  {| id := id x; state := state x; path := path x; census := c;
     selected := selected x |}.

Definition with_selected (b : bool) (x : Snapshot) : Snapshot :=
  {| id := id x; state := state x; path := path x; census := census x;
     selected := b |}.

(** Modelled from the spec: the reducers of the store, which are not part of
    the action-creator module.  A snapshot record has an identifier, a state
    and optional path and census fields, changed as the responses arrive; a
    failure is an "error" state transition. *)
Definition sample_reduce (s : State) (a : Action) : State :=
  match a with
  | TAKE_SNAPSHOT_START snapshot =>
      set_snapshots s (snapshots s ++ [snapshot])
  | TAKE_SNAPSHOT_END i p =>
      change i (fun x => with_state SAVED (with_path p x)) s
  | READ_SNAPSHOT_START i => change i (with_state READING) s
  | READ_SNAPSHOT_END i _ => change i (with_state READ) s
  | TAKE_CENSUS_START i inv f b =>
      change i (fun x => with_state SAVING_CENSUS
                  (with_census (Some (Build_SavedCensus None b inv f)) x)) s
  | TAKE_CENSUS_END i b inv f r =>
      change i (fun x => with_state SAVED_CENSUS
                  (with_census (Some (Build_SavedCensus (Some r) b inv f)) x)) s
  | SNAPSHOT_ERROR i _ => change i (with_state ERROR) s
  | SELECT_SNAPSHOT i =>
      set_snapshots s
        (map (fun x => with_selected (Nat.eqb (id x) i) x) (snapshots s))
  | OTHER TOGGLE_DIFFING =>
      {| diffing := negb (diffing s); inverted := inverted s;
         filter := filter s; breakdown := breakdown s;
         snapshots := snapshots s |}
  | OTHER (SET_BREAKDOWN b) =>
      {| diffing := diffing s; inverted := inverted s;
         filter := filter s; breakdown := b; snapshots := snapshots s |}
  | OTHER TOGGLE_INVERTED =>
      {| diffing := diffing s; inverted := negb (inverted s);
         filter := filter s; breakdown := breakdown s;
         snapshots := snapshots s |}
  | OTHER (SET_FILTER f) =>
      {| diffing := diffing s; inverted := inverted s;
         filter := f; breakdown := breakdown s; snapshots := snapshots s |}
  end.

(** Modelled from the spec: the helpers of [../utils], of which the module
    only shows the calls.  A census is up to date when it has a report taken
    with the same inversion, filter and breakdown; a snapshot is found by its
    identifier; a new snapshot has a fresh identifier. *)
Definition sample_censusIsUpToDate (inv : bool) (f : option string)
    (b : string) (c : option SavedCensus) : bool :=
  match c with
  | Some c =>
      match census_report c with Some _ => true | None => false end
      && Bool.eqb inv (census_inverted c)
      && filter_eqb f (census_filter c)
      && String.eqb b (census_breakdown c)
  | None => false
  end.

Definition sample_getSnapshot (s : State) (i : nat) : option Snapshot :=
  find (fun x => Nat.eqb (id x) i) (snapshots s).

Definition sample_createSnapshot (n : nat) : Snapshot * nat :=
  ({| id := S n; state := SAVING; path := EmptyString; census := None;
      selected := false |}, S n).

#[export] Instance host : Host := {|
  censusIsUpToDate := sample_censusIsUpToDate;
  getSnapshot := sample_getSnapshot;
  breakdownEquals := String.eqb;
  createSnapshot := sample_createSnapshot;
  toggleDiffing := TOGGLE_DIFFING;
  assertThrows := true;
  reduce := sample_reduce
|}.

Definition empty_store : State :=
  {| diffing := false; inverted := false; filter := None;
     breakdown := "coarseType"; snapshots := [] |}.

(** A world with no snapshot yet and the given answers to come. *)
Definition start (answers : list Response) : World :=
  {| store := empty_store; utils := 0; pending := answers |}.

Definition ok (v : string) : Response :=
  {| meanwhile := []; settled := Resolved v |}.

Definition ko (e : string) : Response :=
  {| meanwhile := []; settled := Rejected e |}.

(** The same world with other answers to come. *)
Definition next (answers : list Response) (w : World) : World :=
  {| store := store w; utils := utils w; pending := answers |}.

(** The worlds the tasks of a full run leave behind, with the answers to
    come: snapshot 1 is saved, read, and has its census. *)
Definition saved (answers : list Response) : World :=
  next answers (world (takeSnapshot (start [ok "/tmp/1.fxsnapshot"]))).

Definition read (answers : list Response) : World :=
  next answers (world (readSnapshot 1 (saved [ok "done"; ok "1446500000"]))).

Definition censused (answers : list Response) : World :=
  next answers (world (takeCensus 1 (read [ok "report"]))).

(** An answer that comes after the breakdown was changed. *)
Definition late (breakdown v : string) : Response :=
  {| meanwhile := [OTHER (SET_BREAKDOWN breakdown)]; settled := Resolved v |}.

(** The animation inspector: three players, a page with the panel shown. *)
Definition playing (n : nat) (time : Z) : Animations.Player :=
  {| Animations.actorID := n;
     Animations.state :=
       {| Animations.documentCurrentTime :=
            Animations.Finite (inject_Z time) |} |}.

Definition all_traits : Animations.Traits :=
  map (fun entry => (fst entry, true)) Animations.config.

Definition controller (traits : Animations.Traits)
    (players : list Animations.Player) : Animations.Controller :=
  {| Animations.initialized := Some true;
     Animations.destroyed := None;
     Animations.animationsFront := true;
     Animations.traits := Some traits;
     Animations.nodeFront := Animations.NodeFront 1;
     Animations.isListeningToMutations := false;
     Animations.animationPlayers := players |}.

Definition page (node : nat) : Animations.Panel :=
  {| Animations.currentToolId := "inspector";
     Animations.currentTabID := Some "animationinspector";
     Animations.selection_nodeFront := Animations.NodeFront node;
     Animations.selection_isConnected := true;
     Animations.selection_isElementNode := true |}.

Definition fine : Animations.Answer :=
  {| Animations.rejection := None; Animations.players := [];
     Animations.flag := true |}.

Definition found (l : list Animations.Player) : Animations.Answer :=
  {| Animations.rejection := None; Animations.players := l;
     Animations.flag := true |}.

(** The panel is shown with the players of node 1, node 2 gets selected,
    and the listeners of the controller are in place. *)
Definition inspecting : Animations.World :=
  {| Animations.this := controller all_traits [playing 1 10];
     Animations.panel := page 2;
     Animations.listeners := Animations.controller_listeners;
     Animations.answers := [fine; fine; found [playing 2 20; playing 3 30]] |}.

(** The page as the panel opens: the controller is new, node 2 is
    selected, and the server has every capability. *)
Definition opening : Animations.World :=
  {| Animations.this := Animations.AnimationsController;
     Animations.panel := page 2;
     Animations.listeners := [];
     Animations.answers :=
       repeat fine 10 ++ [found [playing 2 20; playing 3 30]] |}.

(** A server with none of the capabilities, and two players. *)
Definition bare : Animations.World :=
  {| Animations.this := controller [] [playing 1 10; playing 2 20];
     Animations.panel := page 1;
     Animations.listeners := Animations.controller_listeners;
     Animations.answers := [fine; fine; fine; fine] |}.

Definition broken (e : string) : Animations.Answer :=
  {| Animations.rejection := Some e; Animations.players := [];
     Animations.flag := false |}.

(** The same world with other answers to come. *)
Definition answering (l : list Animations.Answer) (w : Animations.World)
  : Animations.World :=
  {| Animations.this := Animations.this w;
     Animations.panel := Animations.panel w;
     Animations.listeners := Animations.listeners w;
     Animations.answers := l |}.

(** The page that [initialize] leaves of [opening], when node 3 gets
    selected: two players to release, and one player for the new node. *)
Definition selecting : Animations.World :=
  {| Animations.this :=
       Animations.this (Task.world (Animations.initialize opening));
     Animations.panel := page 3;
     Animations.listeners :=
       Animations.listeners (Task.world (Animations.initialize opening));
     Animations.answers := [fine; fine; fine; found [playing 4 40]] |}.

(** The page of [inspecting] while another tool of the toolbox is shown. *)
Definition hidden : Animations.World :=
  {| Animations.this := controller all_traits [playing 1 10];
     Animations.panel :=
       {| Animations.currentToolId := "webconsole";
          Animations.currentTabID := Some "animationinspector";
          Animations.selection_nodeFront := Animations.NodeFront 2;
          Animations.selection_isConnected := true;
          Animations.selection_isElementNode := true |};
     Animations.listeners := Animations.controller_listeners;
     Animations.answers := [fine; fine; found [playing 2 20]] |}.

End Sample.

(** * Further readings of the code *)
Module Further.
Import Task.

(** [m] keeps [P] for as long as it has not returned. *)
Definition keeps_until_done {W E X A} (P : W -> Prop) (m : t W E X A)
  : Prop :=
  forall w, P w -> P (world (m w)) \/ exists a, outcome (m w) = Done a.

Section Memory.
Import Memory Memory.Data.
Context `{HT : HostTypes} `{HO : !Host}.

(** What makes [readSnapshot] and [takeCensus] throw: no snapshot is found,
    or its state is none of [allowed] and a failed [assert] throws. *)
Definition refused (allowed : list snapshotState) (s : State) (id : nat)
  : Prop :=
  match getSnapshot s id with
  | None => True
  | Some snapshot =>
      includes allowed (state snapshot) = false /\ assertThrows = true
  end.

(** The snapshot an action is about, by its id; the actions of the other
    action creators are about none. *)
Definition subject (a : Action) : option nat :=
  match a with
  | TAKE_SNAPSHOT_START snapshot => Some (id snapshot)
  | TAKE_SNAPSHOT_END id _ | READ_SNAPSHOT_START id | READ_SNAPSHOT_END id _
  | TAKE_CENSUS_START id _ _ _ | TAKE_CENSUS_END id _ _ _ _
  | SNAPSHOT_ERROR id _ | SELECT_SNAPSHOT id => Some id
  | OTHER _ => None
  end.

(** The store once [selectSnapshotAndRefresh] has selected the snapshot. *)
Definition selected_store (id : nat) (s : State) : State :=
  reduce (if diffing s then reduce s (OTHER toggleDiffing) else s)
         (SELECT_SNAPSHOT id).

End Memory.

Section Animations.
Import Animations.

(** The list without the first occurrence of [p]. *)
Fixpoint remove_first (p : Player) (l : list Player) : list Player :=
  match l with
  | [] => []
  | x :: rest => if same_player x p then rest else x :: remove_first p rest
  end.

(** How many of the answers to come are accepted before one is rejected
    or none is left. *)
Fixpoint accepted (l : list Answer) : nat :=
  match l with
  | [] => 0
  | a :: rest =>
      match rejection a with
      | None => S (accepted rest)
      | Some _ => 0
      end
  end.

(** How a method ends that makes [n] calls, one after the other, and waits
    for each: it returns when [n] answers are accepted, it throws what the
    first other answer is rejected with, and it stays suspended when the
    answers run out. *)
Definition awaited (n : nat) (l : list Answer) : Outcome string unit :=
  if Nat.leb n (accepted l) then Done tt
  else
    match nth_error l (accepted l) with
    | Some a =>
        match rejection a with
        | Some e => Threw e
        | None => Waiting
        end
    | None => Waiting
    end.

(** The question that [getServerTraits] asks for an entry of its table. *)
Definition question (entry : string * (string * string)) : RemoteCall :=
  target_actorHasMethod (fst (snd entry)) (snd (snd entry)).

(** The change is of the type "removed". *)
Definition is_removal (c : Change) : bool := String.eqb (type c) "removed".

(** What one change of [onAnimationMutations] does to the list: an "added"
    player is pushed, a "removed" one is looked up and spliced out. *)
Definition apply_change (l : list Player) (c : Change) : list Player :=
  let l := if String.eqb (type c) "added" then l ++ [player c] else l in
  if String.eqb (type c) "removed"
  then splice l (indexOf l (player c)) 1
  else l.

(** The changes that come before the removal number [k], from 0. *)
Fixpoint before_removal (k : nat) (changes : list Change) : list Change :=
  match changes with
  | [] => []
  | c :: rest =>
      if is_removal c then
        match k with
        | O => []
        | S k => c :: before_removal k rest
        end
      else c :: before_removal k rest
  end.

(** The method did nothing: it returned, with no event and the world as it
    was. *)
Definition idle (w : World) : Result World Event string unit :=
  Build_Result (Done tt) [] w.

(** The event is a remote call or its answer. *)
Definition is_remote (e : Event) : Prop :=
  match e with
  | EvCall _ | EvSettled _ => True
  | _ => False
  end.

(** The three listeners of [startListeners]. *)
Definition started_listeners : list Listener :=
  [ {| source := selection; event := "new-node-front";
       handler := handle_onNewNodeFront |};
    {| source := sidebar; event := "select";
       handler := handle_onPanelVisibilityChange |};
    {| source := toolbox; event := "select";
       handler := handle_onPanelVisibilityChange |} ].

Definition mutations_listener : Listener :=
  {| source := front_events; event := "mutations";
     handler := handle_onAnimationMutations |}.

(** The table without the listener [l], as [off] leaves it. *)
Definition without (l : Listener) (ls : list Listener) : list Listener :=
  List.filter (fun x => negb (listener_eqb x l)) ls.

(** The table as [stopListeners] leaves it. *)
Definition stopped (w : World) : list Listener :=
  let ls := fold_left (fun ls l => without l ls) started_listeners
              (listeners w) in
  if isListeningToMutations (this w) then without mutations_listener ls
  else ls.

(** The controller once [destroy] is over. *)
Definition destroyed_controller (c : Controller) : Controller :=
  {| initialized := initialized c; destroyed := Some true;
     animationsFront := false; traits := traits c; nodeFront := Null;
     isListeningToMutations := isListeningToMutations c;
     animationPlayers := [] |}.

(** How many times a listener is in the table. *)
Definition times_added (l : Listener) (w : World) : nat :=
  List.length (List.filter (fun x => listener_eqb x l) (listeners w)).

(** The flag [isListeningToMutations] tells whether the listener of
    "mutations" is there, and it is there once at most. *)
Definition listening_once (w : World) : Prop :=
  times_added mutations_listener w
  = if isListeningToMutations (this w) then 1 else 0.

(** An initialization has begun and is not over. *)
Definition initializing (w : World) : Prop :=
  initialized (this w) = Some false.

(** A destruction has begun and is not over; [front] tells whether the
    controller still holds its front. *)
Definition destroying (front : bool) (w : World) : Prop :=
  destroyed (this w) = Some false /\ animationsFront (this w) = front.

(** The calls of [setPlaybackRateAll] when it goes player by player. *)
Definition setPlaybackRate_call (rate : Z) (p : Player) : RemoteCall :=
  player_setPlaybackRate p rate.

End Animations.

End Further.

(** * Facts about tasks *)
Module TaskFacts.
Import Task.

Section Laws.
Context {W E X : Type}.
Implicit Types w : W.

Lemma trace_bind {A B} (m : t W E X A) (k : A -> t W E X B) w :
  trace (bind m k w) =
  trace (m w) ++ match outcome (m w) with
                 | Done a => trace (k a (world (m w)))
                 | _ => []
                 end.
Proof.
  unfold bind. destruct (outcome (m w)); cbn; now rewrite ?app_nil_r.
Qed.

Lemma outcome_bind {A B} (m : t W E X A) (k : A -> t W E X B) w :
  outcome (bind m k w) =
  match outcome (m w) with
  | Done a => outcome (k a (world (m w)))
  | Threw x => Threw x
  | Waiting => Waiting
  | OutOfFuel => OutOfFuel
  end.
Proof. unfold bind. now destruct (outcome (m w)). Qed.

Lemma world_bind {A B} (m : t W E X A) (k : A -> t W E X B) w :
  world (bind m k w) =
  match outcome (m w) with
  | Done a => world (k a (world (m w)))
  | _ => world (m w)
  end.
Proof. unfold bind. now destruct (outcome (m w)). Qed.


Lemma prefixed_prefixed {A} (l l' : list E) (r : Result W E X A) :
  prefixed l (prefixed l' r) = prefixed (l ++ l') r.
Proof. unfold prefixed; cbn. now rewrite app_assoc. Qed.

Lemma bind_ret {A B} (a : A) (k : A -> t W E X B) w :
  bind (ret a) k w = k a w.
Proof. unfold bind; cbn. now destruct (k a w). Qed.




Lemma bind_emit {B} (e : E) (k : unit -> t W E X B) w :
  bind (emit e) k w = prefixed [e] (k tt w).
Proof. reflexivity. Qed.

Lemma bind_get {B} (k : W -> t W E X B) w :
  bind get k w = k w w.
Proof. unfold bind; cbn. now destruct (k w w). Qed.

Lemma bind_put {B} (w' : W) (k : unit -> t W E X B) w :
  bind (put w') k w = k tt w'.
Proof. unfold bind; cbn. now destruct (k tt w'). Qed.

Lemma bind_bind {A B C} (m : t W E X A) (k : A -> t W E X B)
    (k' : B -> t W E X C) w :
  bind (bind m k) k' w = bind m (fun a => bind (k a) k') w.
Proof.
  unfold bind. destruct (m w) as [[a|x| |] tr w1]; cbn; trivial.
  destruct (k a w1) as [[b|x| |] tr' w2]; cbn; trivial.
  now rewrite app_assoc.
Qed.


Lemma bind_run {A B} (m : t W E X A) (k : A -> t W E X B) w o tr w' :
  m w = Build_Result o tr w' ->
  bind m k w =
  match o with
  | Done a => prefixed tr (k a w')
  | Threw x => Build_Result (Threw x) tr w'
  | Waiting => Build_Result Waiting tr w'
  | OutOfFuel => Build_Result OutOfFuel tr w'
  end.
Proof. unfold bind. intros ->. now destruct o. Qed.

Lemma bind_when {B} (b : bool) (m : t W E X unit) (k : unit -> t W E X B) w :
  bind (when b m) k w = if b then bind m k w else k tt w.
Proof. destruct b; cbn [when]; trivial. apply bind_ret. Qed.

End Laws.

(** ** One remote call at a time *)
Section Flight.
Context {W E X : Type} (kind : E -> Kind).

Lemma flight_app (busy : bool) (l l' : list E) :
  flight kind busy (l ++ l') =
  match flight kind busy l with
  | Some busy' => flight kind busy' l'
  | None => None
  end.
Proof.
  revert busy. induction l as [|e l IH]; intros busy; cbn; trivial.
  destruct (kind e), busy; trivial.
Qed.

Lemma settles_one_at_a_time {A} (m : t W E X A) :
  settles kind m -> one_at_a_time kind m.
Proof. intros H w. destruct (H w) as (busy & -> & _). discriminate. Qed.

Lemma settles_stop {A} (o : Outcome X A) : settles kind (stop (W := W) o).
Proof. intros w. exists false. split; [reflexivity | discriminate]. Qed.

Lemma settles_ret {A} (a : A) : settles kind (ret (W := W) (X := X) a).
Proof. apply settles_stop. Qed.

Lemma settles_get : settles kind (get (W := W) (E := E) (X := X)).
Proof. intros w. exists false. split; [reflexivity | discriminate]. Qed.

Lemma settles_put (w' : W) : settles kind (put (E := E) (X := X) w').
Proof. intros w. exists false. split; [reflexivity | discriminate]. Qed.

Lemma settles_emit (e : E) :
  kind e = Local -> settles kind (emit (W := W) (X := X) e).
Proof.
  intros K w. exists false. cbn. rewrite K.
  split; [reflexivity | discriminate].
Qed.

Lemma settles_bind {A B} (m : t W E X A) (k : A -> t W E X B) :
  settles kind m -> (forall a, settles kind (k a)) ->
  settles kind (bind m k).
Proof.
  intros Hm Hk w. destruct (Hm w) as (busy & Hf & Hb).
  rewrite trace_bind, outcome_bind, flight_app, Hf.
  destruct (outcome (m w)) as [a| | |] eqn:Eo.
  - destruct busy; [now discriminate Hb|]. apply Hk.
  - cbn. exists busy. split; trivial. intros ->. now discriminate Hb.
  - cbn. now exists busy.
  - cbn. exists busy. split; trivial. intros ->. now discriminate Hb.
Qed.

Lemma settles_when (b : bool) (m : t W E X unit) :
  settles kind m -> settles kind (when b m).
Proof. destruct b; cbn [when]; trivial. intros _. apply settles_ret. Qed.

Lemma settles_for_of {A} (l : list A) (body : A -> t W E X unit) :
  (forall x, settles kind (body x)) -> settles kind (for_of l body).
Proof.
  intros H. induction l as [|x l IH]; cbn [for_of].
  - apply settles_ret.
  - apply settles_bind; trivial.
Qed.

Lemma settles_try_catch {A} (m : t W E X A) (handler : X -> t W E X A) :
  settles kind m -> (forall x, settles kind (handler x)) ->
  settles kind (try_catch m handler).
Proof.
  intros Hm Hh w. destruct (Hm w) as (busy & Hf & Hb). unfold try_catch.
  destruct (outcome (m w)) as [a|x| |] eqn:Eo;
    try (exists busy; now rewrite Eo).
  cbn. rewrite flight_app, Hf.
  destruct busy; [now discriminate Hb|]. apply Hh.
Qed.

Lemma one_at_a_time_detach {A} (m : t W E X A) :
  settles kind m -> one_at_a_time kind (detach m).
Proof. intros H w. destruct (H w) as (busy & Hf & _). cbn. now rewrite Hf. Qed.

End Flight.

(** Splitting a list that is given by its elements. *)
Lemma split_nil {A} (pre : list A) (x : A) (post : list A) :
  [] = pre ++ x :: post -> False.
Proof. destruct pre; discriminate. Qed.

Lemma split_head {A} (y : A) (l pre suffix : list A) :
  y :: l = pre ++ suffix ->
  (pre = [] /\ y :: l = suffix) \/
  (exists pre', pre = y :: pre' /\ l = pre' ++ suffix).
Proof.
  destruct pre as [|z pre]; cbn; intros E.
  - now left.
  - injection E as -> ->. right. now exists pre.
Qed.

(** Looks for the place of a suffix in a list given by its elements; what
    is left is one goal for each place where the suffix may start. *)
Ltac split_at E :=
  lazymatch type of E with
  | [] = _ ++ _ :: _ => exfalso; exact (split_nil _ _ _ E)
  | _ :: _ = _ ++ _ =>
      let pre := fresh "pre" in
      apply split_head in E;
      destruct E as [(-> & E) | (pre & -> & E)];
      [ try discriminate E | split_at E ]
  | _ => idtac
  end.

(** ** The events of a task, and what it keeps *)
Section Invariants.
Context {W E X : Type}.

Lemma emits_stop {A} (P : E -> Prop) (o : Outcome X A) :
  emits P (stop (W := W) o).
Proof. intros w e []. Qed.

Lemma emits_ret {A} (P : E -> Prop) (a : A) :
  emits P (ret (W := W) (X := X) a).
Proof. intros w e []. Qed.

Lemma emits_get (P : E -> Prop) : emits P (get (W := W) (X := X)).
Proof. intros w e []. Qed.

Lemma emits_put (P : E -> Prop) (w' : W) : emits P (put (X := X) w').
Proof. intros w e []. Qed.

Lemma emits_emit (P : E -> Prop) (e : E) :
  P e -> emits P (emit (W := W) (X := X) e).
Proof. intros H w e' [<- | []]. exact H. Qed.

Lemma emits_bind {A B} (P : E -> Prop) (m : t W E X A)
    (k : A -> t W E X B) :
  emits P m -> (forall a, emits P (k a)) -> emits P (bind m k).
Proof.
  intros Hm Hk w e. rewrite trace_bind. intros Hin.
  apply in_app_or in Hin. destruct Hin as [Hin | Hin]; [now apply (Hm w)|].
  destruct (outcome (m w)); try contradiction. now apply (Hk a (world (m w))).
Qed.

Lemma emits_when (P : E -> Prop) (b : bool) (m : t W E X unit) :
  emits P m -> emits P (when b m).
Proof. destruct b; cbn [when]; trivial. intros _. apply emits_ret. Qed.

Lemma emits_for_of {A} (P : E -> Prop) (l : list A)
    (body : A -> t W E X unit) :
  (forall x, emits P (body x)) -> emits P (for_of l body).
Proof.
  intros H. induction l as [|x l IH]; cbn [for_of].
  - apply emits_ret.
  - apply emits_bind; trivial.
Qed.

Lemma emits_try_catch {A} (P : E -> Prop) (m : t W E X A)
    (handler : X -> t W E X A) :
  emits P m -> (forall x, emits P (handler x)) ->
  emits P (try_catch m handler).
Proof.
  intros Hm Hh w e. unfold try_catch.
  destruct (outcome (m w)) as [a|x| |]; try apply Hm.
  cbn. intros Hin. apply in_app_or in Hin.
  destruct Hin as [Hin | Hin];
    [now apply (Hm w) | now apply (Hh x (world (m w)))].
Qed.

Lemma emits_detach {A} (P : E -> Prop) (m : t W E X A) :
  emits P m -> emits P (detach m).
Proof. intros Hm w e. apply Hm. Qed.

Lemma preserves_stop {A} (P : W -> Prop) (o : Outcome X A) :
  preserves P (stop (E := E) o).
Proof. intros w H. exact H. Qed.

Lemma preserves_ret {A} (P : W -> Prop) (a : A) :
  preserves P (ret (E := E) (X := X) a).
Proof. intros w H. exact H. Qed.

Lemma preserves_get (P : W -> Prop) : preserves P (get (E := E) (X := X)).
Proof. intros w H. exact H. Qed.

Lemma preserves_emit (P : W -> Prop) (e : E) :
  preserves P (emit (X := X) e).
Proof. intros w H. exact H. Qed.

Lemma preserves_bind {A B} (P : W -> Prop) (m : t W E X A)
    (k : A -> t W E X B) :
  preserves P m -> (forall a, preserves P (k a)) -> preserves P (bind m k).
Proof.
  intros Hm Hk w H. rewrite world_bind.
  destruct (outcome (m w)); try now apply Hm. apply Hk. now apply Hm.
Qed.

Lemma preserves_when (P : W -> Prop) (b : bool) (m : t W E X unit) :
  preserves P m -> preserves P (when b m).
Proof. destruct b; cbn [when]; trivial. intros _. apply preserves_ret. Qed.

Lemma preserves_for_of {A} (P : W -> Prop) (l : list A)
    (body : A -> t W E X unit) :
  (forall x, preserves P (body x)) -> preserves P (for_of l body).
Proof.
  intros H. induction l as [|x l IH]; cbn [for_of].
  - apply preserves_ret.
  - apply preserves_bind; trivial.
Qed.

Lemma preserves_try_catch {A} (P : W -> Prop) (m : t W E X A)
    (handler : X -> t W E X A) :
  preserves P m -> (forall x, preserves P (handler x)) ->
  preserves P (try_catch m handler).
Proof.
  intros Hm Hh w H. unfold try_catch. specialize (Hm w H).
  destruct (outcome (m w)) as [a|x| |]; trivial. now apply Hh.
Qed.

Lemma preserves_detach {A} (P : W -> Prop) (m : t W E X A) :
  preserves P m -> preserves P (detach m).
Proof. intros Hm w H. now apply Hm. Qed.

End Invariants.

Create HintDb seq.
Create HintDb events.
Create HintDb kept.

(** Goes through the statements of a task, with the facts of [events] for
    the calls it makes. *)
Ltac events :=
  cbv zeta;
  repeat first
    [ apply emits_ret
    | apply emits_stop
    | apply emits_get
    | apply emits_put
    | solve [auto with events]
    | apply emits_emit; cbn; trivial
    | apply emits_bind; [|intros ?]
    | apply emits_when
    | apply emits_for_of; intros ?
    | apply emits_try_catch; [|intros ?]
    | match goal with
      | |- emits _ (detach _) => apply emits_detach
      | |- emits _ (match ?x with _ => _ end) => destruct x
      end ].

Ltac kept :=
  cbv zeta;
  repeat first
    [ apply preserves_ret
    | apply preserves_stop
    | apply preserves_get
    | apply preserves_emit
    | solve [auto with kept]
    | apply preserves_bind; [|intros ?]
    | apply preserves_when
    | apply preserves_for_of; intros ?
    | apply preserves_try_catch; [|intros ?]
    | match goal with
      | |- preserves _ (detach _) => apply preserves_detach
      | |- preserves _ (match ?x with _ => _ end) => destruct x
      end ].

(** Goes through the statements of a task, with the facts of [seq] for the
    calls it makes. *)
Ltac seq :=
  cbv zeta;
  repeat first
    [ apply settles_ret
    | apply settles_stop
    | apply settles_get
    | apply settles_put
    | apply settles_emit; reflexivity
    | solve [auto with seq]
    | apply settles_bind; [|intros ?]
    | apply settles_when
    | apply settles_for_of; intros ?
    | apply settles_try_catch; [|intros ?]
    | match goal with
      | |- settles _ (match ?x with _ => _ end) => destruct x
      end ].

End TaskFacts.

(** * Facts about the memory-panel action creators *)
Module MemoryFacts.
Import Task TaskFacts Memory Memory.Data.
Open Scope task_scope.

Section Facts.
Context `{HT : HostTypes} `{HO : !Host}.
Implicit Types w : World.

Lemma bind_getState {B} (k : State -> Task B) w :
  bind getState k w = k (store w) w.
Proof. unfold bind; cbn. now destruct (k (store w) w). Qed.

Lemma bind_dispatch {B} (a : Action) (k : unit -> Task B) w :
  bind (dispatch a) k w = prefixed [EvDispatch a] (k tt (dispatched a w)).
Proof. reflexivity. Qed.

Lemma bind_reportException {B} who error (k : unit -> Task B) w :
  bind (reportException who error) k w
  = prefixed [EvReport who error] (k tt w).
Proof. reflexivity. Qed.

Lemma bind_spawn {A B} (name : TaskName) (body : Task A) (k : A -> Task B) w :
  bind (spawn name body) k w = prefixed [EvSpawn name] (bind body k w).
Proof. unfold spawn. now rewrite bind_bind, bind_emit. Qed.

Lemma spawn_eq {A} (name : TaskName) (body : Task A) w :
  spawn name body w = prefixed [EvSpawn name] (body w).
Proof. unfold spawn. now rewrite bind_emit. Qed.

Lemma bind_yield {B} (c : RemoteCall) (k : Settlement -> Task B) w :
  bind (yield c) k w =
  match pending w with
  | [] => Build_Result Waiting [EvCall c] w
  | r :: rest =>
      prefixed [EvCall c; EvSettled r] (k (settled r) (resumed r rest w))
  end.
Proof. unfold bind, yield. now destruct (pending w). Qed.

Lemma bind_newSnapshot {B} (k : Snapshot -> Task B) w :
  bind newSnapshot k w =
  k (fst (createSnapshot (utils w)))
    {| store := store w; utils := snd (createSnapshot (utils w));
       pending := pending w |}.
Proof.
  unfold bind, newSnapshot. destruct (createSnapshot (utils w)); cbn.
  now destruct (k _ _).
Qed.

Lemma bind_getSnapshotOrThrow {B} (id : nat) (k : Snapshot -> Task B) w :
  bind (getSnapshotOrThrow id) k w =
  match getSnapshot (store w) id with
  | Some snapshot => k snapshot w
  | None => Build_Result (Threw "No matching snapshot found") [] w
  end.
Proof.
  unfold getSnapshotOrThrow. rewrite bind_bind, bind_getState.
  destruct (getSnapshot (store w) id); [apply bind_ret | reflexivity].
Qed.

Lemma bind_assert {B} (condition : bool) (k : unit -> Task B) w :
  bind (assert condition) k w =
  if condition || negb assertThrows then k tt w
  else Build_Result (Threw "Assertion failure") [] w.
Proof.
  unfold assert. destruct condition; cbn; [apply bind_ret|].
  destruct assertThrows; cbn; [reflexivity | apply bind_ret].
Qed.

(** One step of a task: the first statement is run. *)
Ltac step :=
  first
    [ rewrite bind_bind
    | rewrite bind_getState
    | rewrite bind_dispatch
    | rewrite bind_reportException
    | rewrite bind_spawn
    | rewrite bind_yield
    | rewrite bind_newSnapshot
    | rewrite bind_getSnapshotOrThrow
    | rewrite bind_assert
    | rewrite bind_when
    | rewrite bind_ret
    | rewrite bind_emit ];
  cbv beta.

(** The projections of the worlds and results at hand are computed. *)
Ltac simpl_world :=
  cbn [store utils pending dispatched resumed
       trace outcome world prefixed app
       ret stop dispatch emit reportException selectSnapshot] in *.

Ltac run := repeat (step || simpl_world).

(** ** The equations of the tasks *)

Lemma takeSnapshot_eq w :
  takeSnapshot w =
  let w0 := if diffing (store w) then dispatched (OTHER toggleDiffing) w else w in
  let snapshot := fst (createSnapshot (utils w)) in
  let start := TAKE_SNAPSHOT_START snapshot in
  let select := SELECT_SNAPSHOT (id snapshot) in
  let w1 :=
    dispatched select (dispatched start
      {| store := store w0; utils := snd (createSnapshot (utils w));
         pending := pending w |}) in
  prefixed (if diffing (store w) then [EvDispatch (OTHER toggleDiffing)] else [])
    (prefixed [EvDispatch start; EvDispatch select]
       match pending w with
       | [] => Build_Result Waiting [EvCall front_saveHeapSnapshot] w1
       | a :: rest =>
           let w2 := resumed a rest w1 in
           prefixed [EvCall front_saveHeapSnapshot; EvSettled a]
             match settled a with
             | Rejected error =>
                 let failed := SNAPSHOT_ERROR (id snapshot) error in
                 Build_Result (Done None)
                   [EvReport "takeSnapshot" error; EvDispatch failed]
                   (dispatched failed w2)
             | Resolved path =>
                 let done := TAKE_SNAPSHOT_END (id snapshot) path in
                 Build_Result (Done (Some (id snapshot)))
                   [EvDispatch done] (dispatched done w2)
             end
       end).
Proof.
  cbv zeta. unfold takeSnapshot. run.
  destruct (diffing (store w)); run;
    (destruct (pending w) as [|a rest]; [|destruct (settled a)]; run);
    reflexivity.
Qed.

Lemma readSnapshot_eq id w :
  readSnapshot id w =
  match getSnapshot (store w) id with
  | None => Build_Result (Threw "No matching snapshot found") [] w
  | Some snapshot =>
      if includes [SAVED; IMPORTING] (state snapshot) || negb assertThrows
      then
        let w1 := dispatched (READ_SNAPSHOT_START id) w in
        let read := heapWorker_readHeapSnapshot (path snapshot) in
        let time := heapWorker_getCreationTime (path snapshot) in
        let failed error w :=
          Build_Result (Done tt)
            [EvReport "readSnapshot" error;
             EvDispatch (SNAPSHOT_ERROR id error)]
            (dispatched (SNAPSHOT_ERROR id error) w) in
        prefixed [EvDispatch (READ_SNAPSHOT_START id)]
          match pending w with
          | [] => Build_Result Waiting [EvCall read] w1
          | a :: rest =>
              let w2 := resumed a rest w1 in
              prefixed [EvCall read; EvSettled a]
                match settled a with
                | Rejected error => failed error w2
                | Resolved _ =>
                    match rest with
                    | [] => Build_Result Waiting [EvCall time] w2
                    | b :: rest =>
                        let w3 := resumed b rest w2 in
                        prefixed [EvCall time; EvSettled b]
                          match settled b with
                          | Rejected error => failed error w3
                          | Resolved creationTime =>
                              let done := READ_SNAPSHOT_END id creationTime in
                              Build_Result (Done tt) [EvDispatch done]
                                (dispatched done w3)
                          end
                    end
                end
          end
      else Build_Result (Threw "Assertion failure") [] w
  end.
Proof.
  cbv zeta. unfold readSnapshot. run.
  destruct (getSnapshot (store w) id) as [snapshot|]; trivial. run.
  destruct (includes _ _ || _); trivial. run.
  destruct (pending w) as [|a rest]; trivial. run.
  destruct (settled a); run; trivial.
  destruct rest as [|b rest]; trivial.
  destruct (settled b); trivial.
Qed.

Lemma takeCensus_loop_eq fuel snapshot id w :
  takeCensus_loop (S fuel) snapshot id w =
  let s := store w in
  let w1 := dispatched (census_start id s) w in
  match pending w with
  | [] =>
      Build_Result Waiting
        [EvDispatch (census_start id s); EvCall (census_call snapshot s)] w1
  | a :: rest =>
      let w2 := resumed a rest w1 in
      prefixed [EvDispatch (census_start id s);
                EvCall (census_call snapshot s); EvSettled a]
        match settled a with
        | Rejected error =>
            Build_Result (Done tt)
              [EvReport "takeCensus" error;
               EvDispatch (SNAPSHOT_ERROR id error)]
              (dispatched (SNAPSHOT_ERROR id error) w2)
        | Resolved report =>
            if out_of_date (inverted s) (filter s) (breakdown s) (store w2)
            then takeCensus_loop fuel snapshot id w2
            else Build_Result (Done tt)
                   [EvDispatch (census_end id s report)]
                   (dispatched (census_end id s report) w2)
        end
  end.
Proof.
  cbv zeta. cbn [takeCensus_loop]. run.
  fold (census_start id (store w)). fold (census_call snapshot (store w)).
  destruct (pending w) as [|a rest]; trivial. run.
  destruct (settled a); run; trivial.
  unfold out_of_date. run.
  destruct (_ || _); [|reflexivity].
  destruct (takeCensus_loop _ _ _ _); reflexivity.
Qed.

Lemma takeCensus_eq id w :
  takeCensus id w =
  match getSnapshot (store w) id with
  | None => Build_Result (Threw "No matching snapshot found") [] w
  | Some snapshot =>
      if includes [READ; SAVED_CENSUS] (state snapshot) || negb assertThrows
      then
        if censusIsUpToDate (inverted (store w)) (filter (store w))
             (breakdown (store w)) (census snapshot)
        then Build_Result (Done tt) [] w
        else takeCensus_loop (S (List.length (pending w))) snapshot id w
      else Build_Result (Threw "Assertion failure") [] w
  end.
Proof.
  unfold takeCensus. run.
  destruct (getSnapshot (store w) id) as [snapshot|]; trivial. run.
  destruct (includes _ _ || _); trivial. run.
  destruct (censusIsUpToDate _ _ _ _); trivial.
Qed.

(** ** A remote call that fails *)

(** The loop of [takeCensus] never takes a census again after a failure. *)
Lemma takeCensus_loop_failure fuel snapshot id :
  forall w pre c a error post,
    trace (takeCensus_loop fuel snapshot id w)
      = pre ++ EvCall c :: EvSettled a :: post ->
    settled a = Rejected error ->
    post = [EvReport "takeCensus" error; EvDispatch (SNAPSHOT_ERROR id error)]
    /\ outcome (takeCensus_loop fuel snapshot id w) = Done tt.
Proof.
  induction fuel as [|fuel IH]; intros w pre c a error post E Ea.
  - cbn in E. now apply split_nil in E.
  - rewrite takeCensus_loop_eq in *. cbv zeta in *.
    destruct (pending w) as [|a0 rest]; simpl_world.
    + split_at E.
    + destruct (settled a0) as [report|error0] eqn:E0; simpl_world.
      * destruct (out_of_date _ _ _ _); simpl_world; split_at E.
        -- injection E as _ <- _. congruence.
        -- exact (IH _ _ _ _ _ _ E Ea).
        -- injection E as _ <- _. congruence.
      * split_at E. injection E as _ <- <-.
        split; [congruence | reflexivity].
Qed.

(** C1: when a remote call of [takeSnapshot], [readSnapshot] or
    [takeCensus] fails, the error is caught and reported, then a
    SNAPSHOT_ERROR action with the id of the snapshot and the error is
    dispatched, and that is the end of the task: it returns, nothing more is
    dispatched, and no remote call is made again. *)
Theorem remote_failure_aborts (w : World) (id : nat) :
  (forall pre c a error post,
      trace (takeSnapshot w) = pre ++ EvCall c :: EvSettled a :: post ->
      settled a = Rejected error ->
      post = [EvReport "takeSnapshot" error;
              EvDispatch
                (SNAPSHOT_ERROR (Data.id (fst (createSnapshot (utils w))))
                                error)]
      /\ outcome (takeSnapshot w) = Done None)
  /\ (forall pre c a error post,
      trace (readSnapshot id w) = pre ++ EvCall c :: EvSettled a :: post ->
      settled a = Rejected error ->
      post = [EvReport "readSnapshot" error;
              EvDispatch (SNAPSHOT_ERROR id error)]
      /\ outcome (readSnapshot id w) = Done tt)
  /\ (forall pre c a error post,
      trace (takeCensus id w) = pre ++ EvCall c :: EvSettled a :: post ->
      settled a = Rejected error ->
      post = [EvReport "takeCensus" error;
              EvDispatch (SNAPSHOT_ERROR id error)]
      /\ outcome (takeCensus id w) = Done tt).
Proof.
  split; [|split]; intros pre c a error post.
  - rewrite takeSnapshot_eq. cbv zeta.
    destruct (diffing (store w)), (pending w) as [|a0 rest]; simpl_world;
      try destruct (settled a0) eqn:E0; simpl_world;
      intros E Ea; split_at E;
      injection E as _ <- <-; split; congruence.
  - rewrite readSnapshot_eq. cbv zeta.
    destruct (getSnapshot (store w) id) as [snapshot|]; simpl_world;
      [|intros E; now apply split_nil in E].
    destruct (includes _ _ || _); simpl_world;
      [|intros E; now apply split_nil in E].
    destruct (pending w) as [|a0 [|b0 rest]]; simpl_world;
      try destruct (settled a0) eqn:E0; simpl_world;
      try destruct (settled b0) eqn:E1; simpl_world;
      intros E Ea; split_at E;
      try (injection E as _ <- <-); try (injection E as _ <-);
      split; congruence.
  - rewrite takeCensus_eq.
    destruct (getSnapshot (store w) id) as [snapshot|]; simpl_world;
      [|intros E; now apply split_nil in E].
    destruct (includes _ _ || _); simpl_world;
      [|intros E; now apply split_nil in E].
    destruct (censusIsUpToDate _ _ _ _); simpl_world;
      [intros E; now apply split_nil in E|].
    apply takeCensus_loop_failure.
Qed.

(** ** What [takeSnapshot] returns *)

(** C8: [takeSnapshot] returns the id of the new snapshot exactly when the
    promise of [front.saveHeapSnapshot] is resolved, and null exactly when
    it is rejected; either way the snapshot was created, announced by
    TAKE_SNAPSHOT_START and selected before the remote call, which is the
    only one. *)
Theorem takeSnapshot_returns (w : World) :
  let snapshot := fst (createSnapshot (utils w)) in
  let r := takeSnapshot w in
  (exists pre post,
      trace r = pre ++ EvDispatch (TAKE_SNAPSHOT_START snapshot)
                    :: EvDispatch (SELECT_SNAPSHOT (id snapshot))
                    :: EvCall front_saveHeapSnapshot :: post
      /\ (forall c, ~ In (EvCall c) pre)
      /\ (forall c, ~ In (EvCall c) post))
  /\ (outcome r = Done (Some (id snapshot)) <->
      exists a v, In (EvSettled a) (trace r) /\ settled a = Resolved v)
  /\ (outcome r = Done None <->
      exists a e, In (EvSettled a) (trace r) /\ settled a = Rejected e).
Proof.
  cbv zeta. rewrite takeSnapshot_eq. cbv zeta.
  destruct (diffing (store w)); simpl_world;
    (destruct (pending w) as [|a rest]; [|destruct (settled a) eqn:Ea];
     simpl_world).
  all: split;
    [ first [ exists []; eexists; split; [reflexivity|]
            | exists [EvDispatch (OTHER toggleDiffing)]; eexists;
              split; [reflexivity|] ];
      split; intros c; cbn; intuition discriminate
    | ].
  all: split; split; try discriminate.
  all: try (intros _; exists a; eexists; split; [cbn; tauto | eassumption]).
  all: intros (a0 & v0 & Hin & Hs); cbn in Hin;
    repeat destruct Hin as [Hin|Hin]; try discriminate Hin; try contradiction;
    injection Hin as <-; congruence.
Qed.

(** ** The order of [takeSnapshotAndCensus] *)

Lemma state_eqb_eq (a b : snapshotState) : state_eqb a b = true <-> a = b.
Proof. destruct a, b; cbn; split; congruence. Qed.

(** C2: [takeSnapshotAndCensus] dispatches [takeSnapshot] first.  When that
    does not return an id, nothing follows; when it returns null, the task
    returns.  When it returns an id, [readSnapshot] is dispatched for that
    id once [takeSnapshot] is over, and [takeCensus] is dispatched for that
    id, once [readSnapshot] is over, if and only if [readSnapshot] returned
    and the state of the snapshot is then READ. *)
Theorem takeSnapshotAndCensus_order (w : World) :
  let r := takeSnapshotAndCensus w in
  let r1 := takeSnapshot w in
  (exists rest, trace r = EvSpawn TakeSnapshot :: trace r1 ++ rest)
  /\ ((forall id, outcome r1 <> Done (Some id)) ->
      trace r = EvSpawn TakeSnapshot :: trace r1)
  /\ (outcome r1 = Done None -> outcome r = Done tt)
  /\ (forall id, outcome r1 = Done (Some id) ->
      let r2 := readSnapshot id (world r1) in
      exists rest,
        trace r = EvSpawn TakeSnapshot :: trace r1
                    ++ EvSpawn (ReadSnapshot id) :: trace r2 ++ rest
        /\ (rest = [] \/
            rest = EvSpawn (TakeCensus id)
                     :: trace (takeCensus id (world r2)))
        /\ (rest <> [] <->
            outcome r2 = Done tt
            /\ exists snapshot,
                 getSnapshot (store (world r2)) id = Some snapshot
                 /\ state snapshot = READ)).
Proof.
  cbv zeta. unfold takeSnapshotAndCensus. rewrite bind_spawn.
  destruct (takeSnapshot w) as [o1 tr1 w1] eqn:E1.
  rewrite (bind_run _ _ _ _ _ _ E1).
  destruct o1 as [[id|]|x| |]; simpl_world.
  2-5: rewrite ?app_nil_r;
    (split; [exists []; now rewrite app_nil_r|]);
    (split; [reflexivity|]); (split; [congruence|]); discriminate.
  rewrite bind_spawn.
  destruct (readSnapshot id w1) as [o2 tr2 w2] eqn:E2.
  rewrite (bind_run _ _ _ _ _ _ E2).
  assert (forall rest : list Event,
    EvSpawn TakeSnapshot :: tr1 ++ EvSpawn (ReadSnapshot id) :: tr2 ++ rest
    = EvSpawn TakeSnapshot
        :: tr1 ++ (EvSpawn (ReadSnapshot id) :: tr2 ++ rest)) as _ by trivial.
  split; [|split; [|split]].
  - eexists. reflexivity.
  - intros N. now destruct (N id).
  - discriminate.
  - intros id' E. injection E as <-. rewrite E2. simpl_world.
    destruct o2 as [[]|x| |]; simpl_world.
    2-4: exists []; rewrite app_nil_r; split; [reflexivity|];
      split; [now left|];
      split; [intros N; now destruct N | intros (N & _); discriminate N].
    rewrite bind_getSnapshotOrThrow.
    destruct (getSnapshot (store w2) id) as [snapshot|]; simpl_world.
    2: { exists []. rewrite app_nil_r. split; [reflexivity|].
         split; [now left|]. split; [intros N; now destruct N|].
         intros (_ & snapshot & N & _). discriminate N. }
    destruct (state_eqb (state snapshot) READ) eqn:Es.
    + rewrite spawn_eq. simpl_world. eexists. split; [reflexivity|].
      split; [now right|]. split; [|discriminate].
      intros _. split; trivial. exists snapshot.
      split; trivial. now apply state_eqb_eq.
    + simpl_world. exists []. rewrite app_nil_r. split; [reflexivity|].
      split; [now left|]. split; [intros N; now destruct N|].
      intros (_ & snapshot' & N & Er). injection N as <-.
      apply state_eqb_eq in Er. congruence.
Qed.

(** ** The store changes by dispatch only *)

Lemma replay_app (l l' : list Event) (s : State) :
  replay (l ++ l') s = replay l' (replay l s).
Proof. apply fold_left_app. Qed.

Lemma reports_failure_cons (x : Event) (before : list Event) (e : Event) :
  reports_failure before e -> reports_failure (x :: before) e.
Proof.
  destruct e; cbn; trivial.
  intros (pre & a & -> & Ea). now exists (x :: pre), a.
Qed.

Lemma reports_failure_after (l tr : list Event) :
  Forall rpc_or_dispatch l ->
  (forall pre e post, tr = pre ++ e :: post -> reports_failure pre e) ->
  forall pre e post, l ++ tr = pre ++ e :: post -> reports_failure pre e.
Proof.
  induction 1 as [|x l Hx Hl IH]; intros Htr pre e post E; cbn in E.
  - eauto.
  - apply split_head in E. destruct E as [(-> & E) | (pre' & -> & E)].
    + injection E as <- _. now destruct x.
    + apply reports_failure_cons. eauto.
Qed.

Lemma framed_after {A} (l : list Event) (m : Task A) (f : World -> World) :
  Forall rpc_or_dispatch l ->
  (forall w, store (f w) = replay l (store w)) ->
  framed m -> framed (fun w => prefixed l (m (f w))).
Proof.
  intros Hl Hf Hm w. destruct (Hm (f w)) as [Hs Hr]. simpl_world. split.
  - now rewrite replay_app, <- Hf.
  - now apply reports_failure_after.
Qed.

Lemma takeCensus_loop_framed fuel snapshot id :
  framed (takeCensus_loop fuel snapshot id).
Proof.
  induction fuel as [|fuel IH]; intros w.
  - cbn. split; trivial. intros pre e post E. now apply split_nil in E.
  - rewrite takeCensus_loop_eq. cbv zeta.
    destruct (pending w) as [|a rest]; simpl_world.
    + split; [reflexivity|]. intros pre e post E.
      split_at E; injection E as <- _; exact I.
    + destruct (settled a) as [report|error] eqn:Ea; simpl_world.
      * destruct (out_of_date _ _ _ _); simpl_world.
        -- destruct (IH (resumed a rest
                           (dispatched (census_start id (store w)) w)))
             as [Hs Hr].
           split; [exact Hs|]. intros pre e post E.
           split_at E; try (injection E as <- _; exact I).
           do 3 apply reports_failure_cons. eauto.
        -- split; [reflexivity|]. intros pre e post E.
           split_at E; injection E as <- _; exact I.
      * split; [reflexivity|]. intros pre e post E.
        split_at E; injection E as <- _; try exact I.
        now exists [EvDispatch (census_start id (store w));
                    EvCall (census_call snapshot (store w))], a.
Qed.

Lemma takeSnapshot_framed : framed takeSnapshot.
Proof.
  intros w. rewrite takeSnapshot_eq. cbv zeta.
  destruct (diffing (store w)), (pending w) as [|a rest]; simpl_world;
    try destruct (settled a) eqn:Ea; simpl_world;
    (split; [reflexivity|]); intros pre e post E;
    split_at E; injection E as <- _; try exact I;
    eexists _, a; (split; [|exact Ea]);
    first [ now instantiate (1 := [_; _; _])
          | now instantiate (1 := [_; _; _; _]) ].
Qed.

Lemma readSnapshot_framed id : framed (readSnapshot id).
Proof.
  intros w. rewrite readSnapshot_eq. cbv zeta.
  destruct (getSnapshot (store w) id) as [snapshot|]; simpl_world;
    [|split; trivial; intros pre e post E; now apply split_nil in E].
  destruct (includes _ _ || _); simpl_world;
    [|split; trivial; intros pre e post E; now apply split_nil in E].
  destruct (pending w) as [|a [|b rest]]; simpl_world;
    try destruct (settled a) eqn:Ea; simpl_world;
    try destruct (settled b) eqn:Eb; simpl_world;
    (split; [reflexivity|]); intros pre e post E;
    split_at E; injection E as <- _; try exact I.
  all: first
    [ eexists _, a; (split; [|exact Ea]); now instantiate (1 := [_; _])
    | eexists _, b; (split; [|exact Eb]);
      now instantiate (1 := [_; _; _; _]) ].
Qed.

Lemma takeCensus_framed id : framed (takeCensus id).
Proof.
  intros w. rewrite takeCensus_eq.
  destruct (getSnapshot (store w) id) as [snapshot|]; simpl_world;
    [|split; trivial; intros pre e post E; now apply split_nil in E].
  destruct (includes _ _ || _); simpl_world;
    [|split; trivial; intros pre e post E; now apply split_nil in E].
  destruct (censusIsUpToDate _ _ _ _); simpl_world;
    [split; trivial; intros pre e post E; now apply split_nil in E|].
  apply takeCensus_loop_framed.
Qed.

Lemma refreshSelectedCensus_framed : framed refreshSelectedCensus.
Proof.
  intros w. unfold refreshSelectedCensus. run.
  destruct (find selected (snapshots (store w))) as [snapshot|]; simpl_world;
    [|split; trivial; intros pre e post E; now apply split_nil in E].
  destruct (state_eqb _ _); simpl_world;
    [|split; trivial; intros pre e post E; now apply split_nil in E].
  rewrite spawn_eq.
  apply (framed_after [EvSpawn (TakeCensus (id snapshot))]
           (takeCensus (id snapshot)) (fun w => w));
    [repeat constructor | reflexivity | apply takeCensus_framed].
Qed.

Lemma selectSnapshotAndRefresh_framed id :
  framed (selectSnapshotAndRefresh id).
Proof.
  intros w. unfold selectSnapshotAndRefresh. run. rewrite !spawn_eq.
  destruct (diffing (store w)); run; rewrite ?spawn_eq, ?prefixed_prefixed;
    simpl_world.
  - apply (framed_after
             [EvDispatch (OTHER toggleDiffing); EvDispatch (SELECT_SNAPSHOT id);
              EvSpawn RefreshSelectedCensus]
             refreshSelectedCensus
             (fun w => dispatched (SELECT_SNAPSHOT id)
                         (dispatched (OTHER toggleDiffing) w)));
      [repeat constructor | reflexivity | apply refreshSelectedCensus_framed].
  - apply (framed_after
             [EvDispatch (SELECT_SNAPSHOT id); EvSpawn RefreshSelectedCensus]
             refreshSelectedCensus
             (fun w => dispatched (SELECT_SNAPSHOT id) w));
      [repeat constructor | reflexivity | apply refreshSelectedCensus_framed].
Qed.

(** C6, amended: the store that an action creator leaves is the store it
    found, taken through the reducers by the actions it dispatched and by
    the actions the others dispatched while it was suspended on a remote
    call, in the order of the trace; and every event of the trace is a call
    on a remote object, the answer to it, a dispatch, or the report of the
    error a remote call has just failed with. *)
Theorem effects_are_calls_dispatches_and_reports (id : nat) :
  framed takeSnapshot /\ framed (readSnapshot id) /\ framed (takeCensus id)
  /\ framed (selectSnapshotAndRefresh id) /\ framed refreshSelectedCensus.
Proof.
  split; [apply takeSnapshot_framed|].
  split; [apply readSnapshot_framed|].
  split; [apply takeCensus_framed|].
  split; [apply selectSnapshotAndRefresh_framed|].
  apply refreshSelectedCensus_framed.
Qed.

(** ** The loop of [takeCensus] *)

Lemma filter_eqb_eq (a b : option string) : filter_eqb a b = true <-> a = b.
Proof.
  destruct a as [x|], b as [y|]; cbn; try (split; congruence).
  rewrite String.eqb_eq. split; congruence.
Qed.

Lemma out_of_date_false inv f b (s' : State) :
  out_of_date inv f b s' = false <-> same_census inv f b s'.
Proof.
  unfold out_of_date, same_census.
  rewrite !orb_false_iff, !negb_false_iff, Bool.eqb_true_iff, filter_eqb_eq.
  tauto.
Qed.

Lemma out_of_date_true inv f b (s' : State) :
  out_of_date inv f b s' = true <-> ~ same_census inv f b s'.
Proof.
  rewrite <- out_of_date_false. destruct (out_of_date inv f b s'); split;
    congruence.
Qed.

(** With more fuel than answers, the bound is not reached. *)
Lemma takeCensus_loop_fuel fuel snapshot id :
  forall w, List.length (pending w) < fuel ->
    outcome (takeCensus_loop fuel snapshot id w) <> OutOfFuel.
Proof.
  induction fuel as [|fuel IH]; intros w L; [lia|].
  rewrite takeCensus_loop_eq. cbv zeta.
  destruct (pending w) as [|a rest]; simpl_world; [discriminate|].
  destruct (settled a); simpl_world; [|discriminate].
  destruct (out_of_date _ _ _ _); simpl_world; [|discriminate].
  apply IH. cbn in *. lia.
Qed.

Lemma takeCensus_loop_starts fuel snapshot id w :
  exists post,
    trace (takeCensus_loop (S fuel) snapshot id w)
    = EvDispatch (census_start id (store w))
        :: EvCall (census_call snapshot (store w)) :: post.
Proof.
  rewrite takeCensus_loop_eq. cbv zeta.
  destruct (pending w); simpl_world; eexists; reflexivity.
Qed.

(** TAKE_CENSUS_END comes last, right after the answer whose report it
    carries, and with the values of the state as it is then. *)
Lemma takeCensus_loop_end fuel snapshot id :
  forall w pre i b inv f report post,
    trace (takeCensus_loop fuel snapshot id w)
      = pre ++ EvDispatch (TAKE_CENSUS_END i b inv f report) :: post ->
    (exists pre' a,
        pre = pre' ++ [EvCall (heapWorker_takeCensus (path snapshot) b
                         {| asInvertedTreeNode := inv;
                            asTreeNode := negb inv;
                            opts_filter := filter_or_null f |});
                       EvSettled a]
        /\ settled a = Resolved report)
    /\ i = id /\ post = []
    /\ same_census inv f b (replay pre (store w))
    /\ outcome (takeCensus_loop fuel snapshot id w) = Done tt.
Proof.
  induction fuel as [|fuel IH]; intros w pre i b inv f report post E.
  - cbn in E. now apply split_nil in E.
  - rewrite takeCensus_loop_eq in *. cbv zeta in *.
    destruct (pending w) as [|a rest]; simpl_world.
    + split_at E.
    + destruct (settled a) as [report0|error0] eqn:Ea; simpl_world.
      * destruct (out_of_date _ _ _ _) eqn:Eo; simpl_world.
        -- split_at E. apply IH in E.
           destruct E as ((pre' & a' & -> & Ea') & -> & -> & Hs & Ho).
           split; [|auto].
           now exists (EvDispatch (census_start id (store w))
                         :: EvCall (census_call snapshot (store w))
                         :: EvSettled a :: pre'), a'.
        -- split_at E. injection E as <- <- <- <- <- <-.
           split; [|split; [|split; [|split]]]; trivial.
           ++ now exists [EvDispatch (census_start id (store w))], a.
           ++ now apply out_of_date_false.
      * split_at E.
Qed.

(** After an answer with a report: the census is taken again, with the
    values of the state as it is then, when those differ from the values
    it was taken with; otherwise TAKE_CENSUS_END follows and the task
    returns. *)
Lemma takeCensus_loop_repeats fuel snapshot id :
  forall w, List.length (pending w) < fuel ->
  forall pre i inv f b c a report post,
    trace (takeCensus_loop fuel snapshot id w)
      = pre ++ EvDispatch (TAKE_CENSUS_START i inv f b)
            :: EvCall c :: EvSettled a :: post ->
    settled a = Resolved report ->
    let s' :=
      replay (pre ++ [EvDispatch (TAKE_CENSUS_START i inv f b);
                      EvCall c; EvSettled a]) (store w) in
    (~ same_census inv f b s' ->
      exists post',
        post = EvDispatch (census_start id s')
                 :: EvCall (census_call snapshot s') :: post')
    /\ (same_census inv f b s' ->
        post = [EvDispatch (TAKE_CENSUS_END id b inv f report)]
        /\ outcome (takeCensus_loop fuel snapshot id w) = Done tt).
Proof.
  induction fuel as [|fuel IH]; intros w L pre i inv f b c a report post E Ea;
    [lia|].
  rewrite takeCensus_loop_eq in *. cbv zeta in *.
  destruct (pending w) as [|a0 rest] eqn:Ep; simpl_world.
  - split_at E.
  - assert (List.length rest < fuel) as L' by (cbn in L; lia).
    destruct (settled a0) as [report0|error0] eqn:Ea0; simpl_world.
    + destruct (out_of_date _ _ _ _) eqn:Eo; simpl_world.
      * split_at E.
        -- injection E as <- <- <- <- <- <- <-.
           cbn [app replay fold_left replay_event]. fold (census_start id (store w)).
           split; [intros _ | intros N; now apply out_of_date_true in Eo].
           destruct fuel as [|fuel]; [lia|].
           apply takeCensus_loop_starts.
        -- cbn [app replay fold_left replay_event].
           exact (IH (resumed a0 rest
                        (dispatched (census_start id (store w)) w))
                    L' _ _ _ _ _ _ _ _ _ E Ea).
      * split_at E. injection E as <- <- <- <- <- <- <-.
        cbn [app replay fold_left replay_event].
        fold (census_start id (store w)).
        assert (report0 = report) as -> by congruence.
        split; [intros N; now apply out_of_date_false in Eo | now split].
    + split_at E. injection E as _ _ _ _ _ <- _. congruence.
Qed.

(** ** What the actions carry *)

(** C4: the path is carried by TAKE_SNAPSHOT_END, which follows, and only
    follows, the resolved answer of [front.saveHeapSnapshot]; the creation
    time by READ_SNAPSHOT_END, which follows, and only follows, the resolved
    answer of [heapWorker.getCreationTime]; the report by TAKE_CENSUS_END,
    which only follows the resolved answer of [heapWorker.takeCensus].  Each
    of the three carries the id of the snapshot and is the last event. *)
Theorem responses_are_carried (w : World) (id : nat) :
  let created := Data.id (fst (createSnapshot (utils w))) in
  (forall pre i p post,
      trace (takeSnapshot w)
        = pre ++ EvDispatch (TAKE_SNAPSHOT_END i p) :: post ->
      (exists pre' a,
          pre = pre' ++ [EvCall front_saveHeapSnapshot; EvSettled a]
          /\ settled a = Resolved p)
      /\ i = created /\ post = [])
  /\ (forall pre a p post,
      trace (takeSnapshot w)
        = pre ++ EvCall front_saveHeapSnapshot :: EvSettled a :: post ->
      settled a = Resolved p ->
      post = [EvDispatch (TAKE_SNAPSHOT_END created p)])
  /\ (forall pre i time post,
      trace (readSnapshot id w)
        = pre ++ EvDispatch (READ_SNAPSHOT_END i time) :: post ->
      (exists pre' path a,
          pre = pre' ++ [EvCall (heapWorker_getCreationTime path);
                         EvSettled a]
          /\ settled a = Resolved time)
      /\ i = id /\ post = [])
  /\ (forall pre path a time post,
      trace (readSnapshot id w)
        = pre ++ EvCall (heapWorker_getCreationTime path)
              :: EvSettled a :: post ->
      settled a = Resolved time ->
      post = [EvDispatch (READ_SNAPSHOT_END id time)])
  /\ (forall pre i b inv f report post,
      trace (takeCensus id w)
        = pre ++ EvDispatch (TAKE_CENSUS_END i b inv f report) :: post ->
      (exists pre' path opts a,
          pre = pre' ++ [EvCall (heapWorker_takeCensus path b opts);
                         EvSettled a]
          /\ settled a = Resolved report)
      /\ i = id /\ post = []).
Proof.
  cbv zeta. split; [|split; [|split; [|split]]].
  - intros pre i p post. rewrite takeSnapshot_eq. cbv zeta.
    destruct (diffing (store w)), (pending w) as [|a rest]; simpl_world;
      try destruct (settled a) eqn:Ea; simpl_world;
      intros E; split_at E; injection E as <- <-;
      (split; [|now split]);
      first [ now eexists [_; _], a | now eexists [_; _; _], a ].
  - intros pre a p post. rewrite takeSnapshot_eq. cbv zeta.
    destruct (diffing (store w)), (pending w) as [|a0 rest]; simpl_world;
      try destruct (settled a0) eqn:E0; simpl_world;
      intros E Ea; split_at E; injection E as <- <-; congruence.
  - intros pre i time post. rewrite readSnapshot_eq. cbv zeta.
    destruct (getSnapshot (store w) id) as [snapshot|]; simpl_world;
      [|intros E; now apply split_nil in E].
    destruct (includes _ _ || _); simpl_world;
      [|intros E; now apply split_nil in E].
    destruct (pending w) as [|a [|b rest]]; simpl_world;
      try destruct (settled a) eqn:Ea; simpl_world;
      try destruct (settled b) eqn:Eb; simpl_world;
      intros E; split_at E. injection E as <- <-.
    split; [|now split]. eexists [_; _; _], _, b. now split.
  - intros pre p a time post. rewrite readSnapshot_eq. cbv zeta.
    destruct (getSnapshot (store w) id) as [snapshot|]; simpl_world;
      [|intros E; now apply split_nil in E].
    destruct (includes _ _ || _); simpl_world;
      [|intros E; now apply split_nil in E].
    destruct (pending w) as [|a0 [|b0 rest]]; simpl_world;
      try destruct (settled a0) eqn:E0; simpl_world;
      try destruct (settled b0) eqn:E1; simpl_world;
      intros E Ea; split_at E; injection E as _ <- <-; congruence.
  - intros pre i b inv f report post. rewrite takeCensus_eq.
    destruct (getSnapshot (store w) id) as [snapshot|]; simpl_world;
      [|intros E; now apply split_nil in E].
    destruct (includes _ _ || _); simpl_world;
      [|intros E; now apply split_nil in E].
    destruct (censusIsUpToDate _ _ _ _); simpl_world;
      [intros E; now apply split_nil in E|].
    intros E. apply takeCensus_loop_end in E.
    destruct E as ((pre' & a & -> & Ea) & -> & -> & _).
    split; [|now split]. now eexists pre', (path snapshot), _, a.
Qed.

(** ** A census that is up to date *)

(** C9: for a snapshot in state READ or SAVED_CENSUS.  When its census is
    up to date, [takeCensus] returns at once: no event, the world as it
    was.  Otherwise a census is taken with the values of the state; after
    each answer with a report, the census is taken again, with the values
    of the state as it is then, when those are not the values it was taken
    with, and otherwise TAKE_CENSUS_END is dispatched with those values and
    the report, and the task returns; TAKE_CENSUS_END is dispatched in that
    case only, and last; and the bound of the loop is not reached. *)
Theorem takeCensus_until_up_to_date (w : World) (id : nat)
    (snapshot : Snapshot) :
  getSnapshot (store w) id = Some snapshot ->
  state snapshot = READ \/ state snapshot = SAVED_CENSUS ->
  let s := store w in
  let r := takeCensus id w in
  (censusIsUpToDate (inverted s) (filter s) (breakdown s) (census snapshot)
     = true ->
   r = Build_Result (Done tt) [] w)
  /\ (censusIsUpToDate (inverted s) (filter s) (breakdown s) (census snapshot)
       = false ->
     outcome r <> OutOfFuel
     /\ (exists post,
          trace r = EvDispatch (census_start id s)
                      :: EvCall (census_call snapshot s) :: post)
     /\ (forall pre i inv f b c a report post,
          trace r = pre ++ EvDispatch (TAKE_CENSUS_START i inv f b)
                        :: EvCall c :: EvSettled a :: post ->
          settled a = Resolved report ->
          let s' :=
            replay (pre ++ [EvDispatch (TAKE_CENSUS_START i inv f b);
                            EvCall c; EvSettled a]) s in
          (~ same_census inv f b s' ->
            exists post',
              post = EvDispatch (census_start id s')
                       :: EvCall (census_call snapshot s') :: post')
          /\ (same_census inv f b s' ->
              post = [EvDispatch (TAKE_CENSUS_END id b inv f report)]
              /\ outcome r = Done tt))
     /\ (forall pre i b inv f report post,
          trace r = pre ++ EvDispatch (TAKE_CENSUS_END i b inv f report)
                        :: post ->
          post = [] /\ same_census inv f b (replay pre s)
          /\ outcome r = Done tt)).
Proof.
  intros Eg Est. cbv zeta. rewrite takeCensus_eq, Eg.
  replace (includes [READ; SAVED_CENSUS] (state snapshot)) with true
    by (destruct Est as [-> | ->]; reflexivity).
  cbn [orb]. split; intros ->; [reflexivity|].
  split; [apply takeCensus_loop_fuel; lia|].
  split; [apply takeCensus_loop_starts|].
  split.
  - apply takeCensus_loop_repeats. lia.
  - intros pre i b inv f report post E.
    apply takeCensus_loop_end in E. tauto.
Qed.

(** ** One remote call at a time *)

Lemma settles_getState : settles kind getState.
Proof. intros w. exists false. split; [reflexivity | discriminate]. Qed.

Lemma settles_dispatch a : settles kind (dispatch a).
Proof. intros w. exists false. split; [reflexivity | discriminate]. Qed.

Lemma settles_newSnapshot : settles kind newSnapshot.
Proof.
  intros w. exists false. unfold newSnapshot.
  destruct (createSnapshot (utils w)). split; [reflexivity | discriminate].
Qed.

Lemma settles_yield c : settles kind (yield c).
Proof.
  intros w. unfold yield. destruct (pending w).
  - exists true. now split.
  - exists false. split; [reflexivity | discriminate].
Qed.

#[local] Hint Resolve settles_getState settles_dispatch settles_newSnapshot
  settles_yield : seq.

Lemma settles_takeSnapshot : settles kind takeSnapshot.
Proof. unfold takeSnapshot, reportException. seq. Qed.

Lemma settles_readSnapshot id : settles kind (readSnapshot id).
Proof.
  unfold readSnapshot, getSnapshotOrThrow, assert, reportException. seq.
Qed.

Lemma settles_takeCensus_loop fuel snapshot id :
  settles kind (takeCensus_loop fuel snapshot id).
Proof.
  induction fuel as [|fuel IH]; cbn [takeCensus_loop];
    unfold reportException; seq.
Qed.

Lemma settles_takeCensus id : settles kind (takeCensus id).
Proof.
  unfold takeCensus, getSnapshotOrThrow, assert. seq.
  intros w. apply settles_takeCensus_loop.
Qed.

#[local] Hint Resolve settles_takeSnapshot settles_readSnapshot
  settles_takeCensus : seq.

Lemma settles_takeSnapshotAndCensus : settles kind takeSnapshotAndCensus.
Proof. unfold takeSnapshotAndCensus, spawn, getSnapshotOrThrow. seq. Qed.

Lemma settles_refreshSelectedCensus : settles kind refreshSelectedCensus.
Proof. unfold refreshSelectedCensus, spawn. seq. Qed.

#[local] Hint Resolve settles_refreshSelectedCensus : seq.

Lemma settles_selectSnapshotAndRefresh id :
  settles kind (selectSnapshotAndRefresh id).
Proof. unfold selectSnapshotAndRefresh, spawn. seq. Qed.

(** The tasks of snapshot.js make their remote calls one at a time. *)
Lemma tasks_one_at_a_time (id : nat) :
  one_at_a_time kind takeSnapshot
  /\ one_at_a_time kind (readSnapshot id)
  /\ one_at_a_time kind (takeCensus id)
  /\ one_at_a_time kind takeSnapshotAndCensus
  /\ one_at_a_time kind (selectSnapshotAndRefresh id)
  /\ one_at_a_time kind refreshSelectedCensus.
Proof.
  repeat apply conj; apply settles_one_at_a_time;
    auto using settles_takeSnapshotAndCensus, settles_selectSnapshotAndRefresh
      with seq.
Qed.

End Facts.
(** ** On the sample host *)

Import Sample.

Lemma remote_failure_aborts_witness :
  (exists pre c a error post,
      trace (takeSnapshot (start [ko "disk full"]))
        = pre ++ EvCall c :: EvSettled a :: post
      /\ settled a = Rejected error
      /\ post = [EvReport "takeSnapshot" error;
                 EvDispatch (SNAPSHOT_ERROR 1 error)]
      /\ outcome (takeSnapshot (start [ko "disk full"])) = Done None)
  /\ (exists pre c a error post,
      trace (readSnapshot 1 (saved [ok "done"; ko "truncated"]))
        = pre ++ EvCall c :: EvSettled a :: post
      /\ settled a = Rejected error
      /\ post = [EvReport "readSnapshot" error;
                 EvDispatch (SNAPSHOT_ERROR 1 error)]
      /\ outcome (readSnapshot 1 (saved [ok "done"; ko "truncated"]))
         = Done tt)
  /\ (exists pre c a error post,
      trace (takeCensus 1 (read [late "objectClass" "stale"; ko "killed"]))
        = pre ++ EvCall c :: EvSettled a :: post
      /\ settled a = Rejected error
      /\ post = [EvReport "takeCensus" error;
                 EvDispatch (SNAPSHOT_ERROR 1 error)]
      /\ outcome
           (takeCensus 1 (read [late "objectClass" "stale"; ko "killed"]))
         = Done tt).
Proof.
  split; [|split].
  - eexists [_; _], _, _, _, _.
    split; [reflexivity|]. split; [reflexivity|].
    exact (proj1 (remote_failure_aborts (start [ko "disk full"]) 1)
             [_; _] _ _ _ _ eq_refl eq_refl).
  - eexists [_; _; _], _, _, _, _.
    split; [reflexivity|]. split; [reflexivity|].
    exact (proj1 (proj2 (remote_failure_aborts
                           (saved [ok "done"; ko "truncated"]) 1))
             [_; _; _] _ _ _ _ eq_refl eq_refl).
  - eexists [_; _; _; _], _, _, _, _.
    split; [reflexivity|]. split; [reflexivity|].
    exact (proj2 (proj2 (remote_failure_aborts
                           (read [late "objectClass" "stale"; ko "killed"])
                           1))
             [_; _; _; _] _ _ _ _ eq_refl eq_refl).
Defined.

Lemma takeSnapshotAndCensus_order_witness :
  let w := start [ok "/tmp/1.fxsnapshot"; ok "done"; ok "1446500000";
                  ok "report"] in
  outcome (takeSnapshot w) = Done (Some 1)
  /\ exists rest,
       trace (takeSnapshotAndCensus w)
       = EvSpawn TakeSnapshot :: trace (takeSnapshot w)
           ++ EvSpawn (ReadSnapshot 1)
           :: trace (readSnapshot 1 (world (takeSnapshot w))) ++ rest
       /\ rest = EvSpawn (TakeCensus 1)
                   :: trace (takeCensus 1
                               (world (readSnapshot 1
                                         (world (takeSnapshot w))))).
Proof.
  cbv zeta. split; [reflexivity|].
  assert (outcome (takeSnapshot
            (start [ok "/tmp/1.fxsnapshot"; ok "done"; ok "1446500000";
                    ok "report"])) = Done (Some 1)) as Ho by reflexivity.
  destruct (proj2 (proj2 (proj2 (takeSnapshotAndCensus_order
              (start [ok "/tmp/1.fxsnapshot"; ok "done"; ok "1446500000";
                      ok "report"])))) 1 Ho)
    as (rest & Ht & [-> | ->] & Hc).
  - exfalso. vm_compute in Ht. discriminate Ht.
  - eexists. split; [exact Ht | reflexivity].
Defined.

Lemma responses_are_carried_witness :
  (exists a post,
      trace (takeSnapshot (start [ok "/tmp/1.fxsnapshot"]))
        = [EvDispatch (TAKE_SNAPSHOT_START (fst (createSnapshot 0)));
           EvDispatch (SELECT_SNAPSHOT 1)]
            ++ EvCall front_saveHeapSnapshot :: EvSettled a :: post
      /\ settled a = Resolved "/tmp/1.fxsnapshot"
      /\ post = [EvDispatch (TAKE_SNAPSHOT_END 1 "/tmp/1.fxsnapshot")])
  /\ (exists a post,
      trace (readSnapshot 1 (saved [ok "done"; ok "1446500000"]))
        = [EvDispatch (READ_SNAPSHOT_START 1);
           EvCall (heapWorker_readHeapSnapshot "/tmp/1.fxsnapshot");
           EvSettled (ok "done")]
            ++ EvCall (heapWorker_getCreationTime "/tmp/1.fxsnapshot")
            :: EvSettled a :: post
      /\ settled a = Resolved "1446500000"
      /\ post = [EvDispatch (READ_SNAPSHOT_END 1 "1446500000")])
  /\ (exists pre,
      trace (takeCensus 1 (read [ok "report"]))
        = pre ++ EvDispatch
                   (TAKE_CENSUS_END 1 "coarseType" false None "report")
              :: []
      /\ exists pre' path opts a,
           pre = pre' ++ [EvCall (heapWorker_takeCensus path "coarseType" opts);
                          EvSettled a]
           /\ settled a = Resolved "report").
Proof.
  split; [|split].
  - eexists _, _. split; [reflexivity|]. split; [reflexivity|].
    exact (proj1 (proj2 (responses_are_carried
                           (start [ok "/tmp/1.fxsnapshot"]) 1))
             [_; _] _ _ _ eq_refl eq_refl).
  - eexists _, _. split; [reflexivity|]. split; [reflexivity|].
    exact (proj1 (proj2 (proj2 (proj2 (responses_are_carried
                           (saved [ok "done"; ok "1446500000"]) 1))))
             [_; _; _] _ _ _ _ eq_refl eq_refl).
  - eexists [_; _; _]. split; [reflexivity|].
    exact (proj1 (proj2 (proj2 (proj2 (proj2 (responses_are_carried
                           (read [ok "report"]) 1))))
                    [_; _; _] _ _ _ _ _ [] eq_refl)).
Defined.

Lemma effects_witness :
  let w := start [ko "disk full"] in
  store (world (takeSnapshot w)) = replay (trace (takeSnapshot w)) (store w)
  /\ exists pre a,
       [EvDispatch (TAKE_SNAPSHOT_START (fst (createSnapshot 0)));
        EvDispatch (SELECT_SNAPSHOT 1);
        EvCall front_saveHeapSnapshot; EvSettled (ko "disk full")]
       = pre ++ [EvSettled a]
       /\ settled a = Rejected "disk full".
Proof.
  cbv zeta.
  destruct (proj1 (effects_are_calls_dispatches_and_reports 1)
              (start [ko "disk full"])) as [Hs Hr].
  split; [exact Hs|].
  exact (Hr [_; _; _; _] (@EvReport types "takeSnapshot" "disk full") [_]
            eq_refl).
Defined.

(** C6, as stated, fails: when [front.saveHeapSnapshot] fails,
    [takeSnapshot] reports the error with [reportException], which is
    neither a call on a remote object nor a dispatch. *)
Lemma report_is_neither_call_nor_dispatch :
  ~ (forall e,
       In e (trace (takeSnapshot (start [ko "disk full"]))) ->
       rpc_or_dispatch e).
Proof.
  intros N.
  apply (N (@EvReport types "takeSnapshot" "disk full")).
  vm_compute. tauto.
Qed.

Lemma takeCensus_until_up_to_date_witness :
  (exists snapshot,
      getSnapshot (store (censused [])) 1 = Some snapshot
      /\ state snapshot = SAVED_CENSUS
      /\ takeCensus 1 (censused []) = Build_Result (Done tt) [] (censused []))
  /\ (exists snapshot,
      getSnapshot (store (read [late "objectClass" "stale"; ok "fresh"])) 1
        = Some snapshot
      /\ state snapshot = READ
      /\ (exists post,
            trace (takeCensus 1
                     (read [late "objectClass" "stale"; ok "fresh"]))
            = [EvDispatch (TAKE_CENSUS_START 1 false None "coarseType");
               EvCall (census_call snapshot
                         (store (read [late "objectClass" "stale";
                                       ok "fresh"])));
               EvSettled (late "objectClass" "stale");
               EvDispatch (TAKE_CENSUS_START 1 false None "objectClass")]
              ++ post)
      /\ outcome (takeCensus 1
                    (read [late "objectClass" "stale"; ok "fresh"]))
         = Done tt).
Proof.
  split.
  - eexists. split; [reflexivity|]. split; [reflexivity|].
    assert (getSnapshot (store (censused [])) 1
            = Some {| id := 1; state := SAVED_CENSUS;
                      path := "/tmp/1.fxsnapshot";
                      census := Some {| census_report := Some "report";
                                        census_breakdown := "coarseType";
                                        census_inverted := false;
                                        census_filter := None |};
                      selected := true |}) as Hg by reflexivity.
    exact (proj1 (takeCensus_until_up_to_date (censused []) 1 _ Hg
                    (or_intror eq_refl)) eq_refl).
  - assert (getSnapshot
              (store (read [late "objectClass" "stale"; ok "fresh"])) 1
            = Some {| id := 1; state := READ;
                      path := "/tmp/1.fxsnapshot"; census := None;
                      selected := true |}) as Hg by reflexivity.
    eexists. split; [exact Hg|]. split; [reflexivity|].
    destruct (proj2 (takeCensus_until_up_to_date
                       (read [late "objectClass" "stale"; ok "fresh"]) 1 _
                       Hg (or_introl eq_refl)) eq_refl)
      as (_ & _ & Hrepeat & _).
    split.
    + assert (trace (takeCensus 1
                (read [late "objectClass" "stale"; ok "fresh"]))
              = [] ++ EvDispatch (TAKE_CENSUS_START 1 false None "coarseType")
                  :: EvCall (heapWorker_takeCensus "/tmp/1.fxsnapshot"
                               "coarseType"
                               {| asInvertedTreeNode := false;
                                  asTreeNode := true; opts_filter := None |})
                  :: EvSettled (late "objectClass" "stale")
                  :: [EvDispatch
                        (TAKE_CENSUS_START 1 false None "objectClass");
                      EvCall (heapWorker_takeCensus "/tmp/1.fxsnapshot"
                                "objectClass"
                                {| asInvertedTreeNode := false;
                                   asTreeNode := true;
                                   opts_filter := None |});
                      EvSettled (ok "fresh");
                      EvDispatch (TAKE_CENSUS_END 1 "objectClass" false None
                                    "fresh")]) as Ht by reflexivity.
      destruct (Hrepeat _ _ _ _ _ _ _ "stale" _ Ht eq_refl) as [Hstale _].
      destruct Hstale as (post & Hpost);
        [intros (_ & _ & Hb); vm_compute in Hb; discriminate Hb|].
      eexists. rewrite Ht. cbn [app]. reflexivity.
    + assert (trace (takeCensus 1
                (read [late "objectClass" "stale"; ok "fresh"]))
              = [EvDispatch (TAKE_CENSUS_START 1 false None "coarseType");
                 EvCall (heapWorker_takeCensus "/tmp/1.fxsnapshot"
                           "coarseType"
                           {| asInvertedTreeNode := false;
                              asTreeNode := true; opts_filter := None |});
                 EvSettled (late "objectClass" "stale")]
                ++ EvDispatch (TAKE_CENSUS_START 1 false None "objectClass")
                  :: EvCall (heapWorker_takeCensus "/tmp/1.fxsnapshot"
                               "objectClass"
                               {| asInvertedTreeNode := false;
                                  asTreeNode := true; opts_filter := None |})
                  :: EvSettled (ok "fresh")
                  :: [EvDispatch (TAKE_CENSUS_END 1 "objectClass" false None
                                    "fresh")]) as Ht by reflexivity.
      destruct (Hrepeat _ _ _ _ _ _ _ "fresh" _ Ht eq_refl) as [_ Hfresh].
      apply Hfresh. vm_compute. repeat split.
Defined.

End MemoryFacts.



(** * Facts about the animations controller *)
Module AnimationsFacts.
Import Task TaskFacts Animations.
Open Scope task_scope.
Open Scope Z_scope.

(** ** The [documentCurrentTime] getter *)

Lemma Math_max_cases (a b : Q) :
  (Math_max a b = b /\ (a <= b)%Q) \/ (Math_max a b = a /\ (b < a)%Q).
Proof.
  unfold Math_max. destruct (Qle_bool a b) eqn:E.
  - left. split; trivial. now apply Qle_bool_iff.
  - right. split; trivial. apply Qnot_le_lt. intros N.
    apply Qle_bool_iff in N. congruence.
Qed.

Lemma fold_left_max_ge (l : list Q) (a : Q) :
  (a <= fold_left Math_max l a)%Q
  /\ forall q, In q l -> (q <= fold_left Math_max l a)%Q.
Proof.
  revert a. induction l as [|x l IH]; intros a; cbn.
  - split; [lra | tauto].
  - destruct (IH (Math_max a x)) as [Ha Hl].
    destruct (Math_max_cases a x) as [[E H] | [E H]]; rewrite E in *;
      (split; [lra|]); intros q [<- | Hq]; auto; lra.
Qed.

Lemma fold_left_max_in (l : list Q) (a : Q) :
  fold_left Math_max l a = a \/ In (fold_left Math_max l a) l.
Proof.
  revert a. induction l as [|x l IH]; intros a; cbn; [now left|].
  destruct (IH (Math_max a x)) as [E | Hin]; [|now right; right].
  rewrite E.
  destruct (Math_max_cases a x) as [[-> _] | [-> _]];
    [right; now left | now left].
Qed.

(** [maximum] gives the greatest of the numbers, and it is one of them. *)
Lemma maximum_ge (l : list Q) (q : Q) : In q l -> (q <= maximum l)%Q.
Proof.
  destruct l as [|x l]; cbn; [tauto|].
  destruct (fold_left_max_ge l x) as [Hx Hl].
  intros [<- | Hq]; auto.
Qed.

Lemma maximum_in (l : list Q) : l <> [] -> In (maximum l) l.
Proof.
  destruct l as [|x l]; [congruence|]. intros _. cbn [maximum].
  destruct (fold_left_max_in l x) as [-> | Hin]; [now left | now right].
Qed.

(** The loop, whatever the times: false on the first falsy time, otherwise
    the greatest of [time] and of the times. *)
Lemma documentCurrentTime_from_eq (l : list Player) (time : Q) :
  documentCurrentTime_from time l =
  if existsb (fun p => falsy (documentCurrentTime (state p))) l
  then JsFalse
  else JsNumber (fold_left Math_max (times l) time).
Proof.
  revert time. induction l as [|p l IH]; intros time; cbn; trivial.
  destruct (documentCurrentTime (state p)) as [| |q]; cbn; trivial.
  destruct (Qeq_bool q 0); cbn; trivial.
Qed.

(** From 0 and with no negative time, the loop gives the greatest of the
    times. *)
Lemma fold_left_max_from_0 (l : list Q) :
  (forall q, In q l -> (0 <= q)%Q) ->
  fold_left Math_max l 0%Q = maximum l.
Proof.
  destruct l as [|q l]; intros H; cbn; trivial.
  unfold Math_max at 2.
  replace (Qle_bool 0 q) with true; trivial.
  symmetry. apply Qle_bool_iff. apply H. now left.
Qed.

Lemma times_nil (l : list Player) :
  (forall p, In p l -> falsy (documentCurrentTime (state p)) = false) ->
  times l = [] -> l = [].
Proof.
  destruct l as [|p l]; trivial. intros H. specialize (H p (or_introl eq_refl)).
  cbn. destruct (documentCurrentTime (state p)); discriminate.
Qed.

(** C10: the getter returns false if and only if the time of some player is
    falsy (missing, NaN or zero); otherwise, the times being those of a
    document timeline, of which none is negative, it returns their maximum:
    a time of the list that no other exceeds; for an empty list it returns
    the number 0, not false. *)
Theorem documentCurrentTime_value (c : Controller) :
  let l := animationPlayers c in
  (get_documentCurrentTime c = JsFalse <->
     exists p, In p l /\ falsy (documentCurrentTime (state p)) = true)
  /\ (timeline_times l ->
      (forall p, In p l -> falsy (documentCurrentTime (state p)) = false) ->
      get_documentCurrentTime c = documentCurrentTime_spec l
      /\ get_documentCurrentTime c = JsNumber (maximum (times l))
      /\ (forall q, In q (times l) -> (q <= maximum (times l))%Q)
      /\ (l <> [] -> In (maximum (times l)) (times l)))
  /\ (l = [] -> get_documentCurrentTime c = JsNumber 0).
Proof.
  cbv zeta. unfold get_documentCurrentTime, documentCurrentTime_spec.
  rewrite documentCurrentTime_from_eq.
  split; [|split].
  - destruct (existsb _ _) eqn:Ex.
    + split; trivial. intros _. apply existsb_exists in Ex. exact Ex.
    + split; [discriminate|]. intros Hp. apply existsb_exists in Hp.
      congruence.
  - intros Htimes Hall.
    replace (existsb _ _) with false.
    + rewrite (fold_left_max_from_0 _ Htimes).
      split; trivial. split; trivial. split; [apply maximum_ge|].
      intros Hl. apply maximum_in. intros Ht. apply Hl.
      now apply times_nil.
    + symmetry. apply not_true_is_false. intros Ex.
      apply existsb_exists in Ex. destruct Ex as (p & Hp & Hf).
      rewrite (Hall p Hp) in Hf. discriminate.
  - intros ->. reflexivity.
Qed.

(** ** The list of players *)

Lemma indexOf_absent (l : list Player) (p : Player) :
  (forall x, In x l -> same_player x p = false) -> indexOf l p = -1.
Proof.
  induction l as [|x l IH]; intros H; cbn; trivial.
  rewrite (H x) by now left. rewrite IH by (intros; apply H; now right).
  reflexivity.
Qed.

Lemma splice_last {A} (l : list A) : splice l (-1) 1 = removelast l.
Proof.
  unfold splice. cbn [Z.ltb Z.compare].
  rewrite removelast_firstn_len.
  destruct l as [|x l]; trivial.
  set (n := List.length (x :: l)).
  assert (1 <= Z.of_nat n) by (subst n; cbn [List.length]; lia).
  replace (Z.max (Z.of_nat n + -1) 0) with (Z.of_nat (pred n)) by lia.
  replace (Z.min (Z.max 1 0) (Z.of_nat n - Z.of_nat (pred n))) with 1 by lia.
  replace (Z.of_nat (pred n) + 1) with (Z.of_nat n) by lia.
  rewrite !Nat2Z.id. subst n. rewrite skipn_all. apply app_nil_r.
Qed.

Lemma bind_await {B} (c : RemoteCall) (k : Answer -> Method B) w :
  bind (await c) k w =
  match answers w with
  | [] => Build_Result Waiting [EvCall c] w
  | a :: rest =>
      let w' := {| this := this w; panel := panel w;
                   listeners := listeners w; answers := rest |} in
      match rejection a with
      | Some error => Build_Result (Threw error) [EvCall c; EvSettled a] w'
      | None => prefixed [EvCall c; EvSettled a] (k a w')
      end
  end.
Proof.
  unfold bind, await. destruct (answers w) as [|a rest]; trivial.
  now destruct (rejection a).
Qed.

Lemma bind_self {B} (k : Controller -> Method B) w :
  bind self k w = k (this w) w.
Proof. unfold self. now rewrite bind_bind, bind_get, bind_ret. Qed.

Lemma bind_update {B} (f : Controller -> Controller) (k : unit -> Method B) w :
  bind (update f) k w =
  k tt {| this := f (this w); panel := panel w; listeners := listeners w;
          answers := answers w |}.
Proof. unfold update. now rewrite bind_bind, bind_get, bind_put. Qed.

(** One step of a method that stays within the controller. *)
Ltac local_step :=
  first
    [ rewrite bind_bind
    | rewrite bind_self
    | rewrite bind_update
    | rewrite bind_ret
    | rewrite bind_get
    | rewrite bind_put
    | rewrite bind_emit
    | rewrite bind_when ];
  cbv beta.

(** A "removed" change for a player the list does not hold: the player is
    released, and the last player of the list goes. *)
Lemma onAnimationMutations_removed_absent (w : World) (p : Player)
    (a : Answer) (rest : list Answer) :
  answers w = a :: rest -> rejection a = None ->
  (forall x, In x (animationPlayers (this w)) -> same_player x p = false) ->
  let r := onAnimationMutations [{| type := "removed"; player := p |}] w in
  calls (trace r) = [player_release p]
  /\ animationPlayers (this (world r))
     = removelast (animationPlayers (this w)).
Proof.
  intros Ea Er Hp. cbv zeta. unfold onAnimationMutations.
  cbn [for_of type player String.eqb Ascii.eqb Bool.eqb when].
  rewrite !bind_bind, bind_ret, !bind_bind, bind_await, Ea, Er.
  cbv zeta. repeat local_step.
  cbn. rewrite (indexOf_absent _ _ Hp), splice_last. now split.
Qed.

(** C3, at the failing input: the list holds the players 1 and 2, and a
    "removed" change comes for a player 3 that it does not hold.  Player 3 is
    released; player 2, which nobody released, leaves the list. *)
Theorem removed_stranger_drops_last_player :
  let p1 := Sample.playing 1 10 in
  let p2 := Sample.playing 2 20 in
  let p3 := Sample.playing 3 30 in
  let w := {| this := Sample.controller Sample.all_traits [p1; p2];
              panel := Sample.page 1; listeners := [];
              answers := [Sample.fine] |} in
  let r := onAnimationMutations [{| type := "removed"; player := p3 |}] w in
  outcome r = Done tt
  /\ calls (trace r) = [player_release p3]
  /\ animationPlayers (this (world r)) = [p1].
Proof. vm_compute. repeat split. Qed.

(** ** One remote call at a time *)

Lemma settles_await c : settles kind (await c).
Proof.
  intros w. unfold await. destruct (answers w) as [|a rest].
  - exists true. now split.
  - exists false. destruct (rejection a); (split; [reflexivity|discriminate]).
Qed.

#[local] Hint Resolve settles_await : seq.

(** The small steps that the methods are made of. *)
Ltac unfold_steps :=
  unfold self, update, trait, on_front, on, off, on_sidebar in *.

Lemma settles_getServerTraits_loop config traits :
  settles kind (getServerTraits_loop config traits).
Proof.
  revert traits. induction config as [|[name [actor method]] config IH];
    intros traits; cbn [getServerTraits_loop]; seq.
Qed.

Lemma settles_getServerTraits : settles kind getServerTraits.
Proof. apply settles_getServerTraits_loop. Qed.

Lemma settles_startListeners : settles kind startListeners.
Proof. unfold startListeners. unfold_steps. seq. Qed.

Lemma settles_stopListeners : settles kind stopListeners.
Proof. unfold stopListeners. unfold_steps. seq. Qed.

Lemma settles_destroyAnimationPlayers : settles kind destroyAnimationPlayers.
Proof. unfold destroyAnimationPlayers. unfold_steps. seq. Qed.

#[local] Hint Resolve settles_getServerTraits settles_startListeners
  settles_stopListeners settles_destroyAnimationPlayers : seq.

Lemma settles_refreshAnimationPlayers nodeFront :
  settles kind (refreshAnimationPlayers nodeFront).
Proof. unfold refreshAnimationPlayers. unfold_steps. seq. Qed.

#[local] Hint Resolve settles_refreshAnimationPlayers : seq.

Lemma settles_onNewNodeFront : settles kind onNewNodeFront.
Proof. unfold onNewNodeFront. unfold_steps. seq. Qed.

#[local] Hint Resolve settles_onNewNodeFront : seq.

Lemma settles_initialize : settles kind initialize.
Proof. unfold initialize. unfold_steps. seq. Qed.

Lemma settles_destroy : settles kind destroy.
Proof. unfold destroy. unfold_steps. seq. Qed.

Lemma settles_toggleAll : settles kind toggleAll.
Proof. unfold toggleAll. unfold_steps. seq. Qed.

Lemma settles_toggleCurrentAnimations shouldPause :
  settles kind (toggleCurrentAnimations shouldPause).
Proof. unfold toggleCurrentAnimations. unfold_steps. seq. Qed.

Lemma settles_setCurrentTimeAll time shouldPause :
  settles kind (setCurrentTimeAll time shouldPause).
Proof. unfold setCurrentTimeAll. unfold_steps. seq. Qed.

Lemma settles_setPlaybackRateAll rate :
  settles kind (setPlaybackRateAll rate).
Proof. unfold setPlaybackRateAll. unfold_steps. seq. Qed.

Lemma settles_onAnimationMutations changes :
  settles kind (onAnimationMutations changes).
Proof. unfold onAnimationMutations. unfold_steps. seq. Qed.

Lemma one_at_a_time_onPanelVisibilityChange :
  one_at_a_time kind onPanelVisibilityChange.
Proof.
  intros w. unfold onPanelVisibilityChange. rewrite bind_get.
  destruct (isPanelVisible (panel w)); cbn [when].
  - apply one_at_a_time_detach, settles_onNewNodeFront.
  - discriminate.
Qed.

(** The methods of the controller make their remote calls one at a time. *)
Lemma methods_one_at_a_time (shouldPause : bool) (time rate : Z)
    (changes : list Change) (nodeFront : JsRef) :
  one_at_a_time kind getServerTraits
  /\ one_at_a_time kind initialize
  /\ one_at_a_time kind destroy
  /\ one_at_a_time kind onNewNodeFront
  /\ one_at_a_time kind onPanelVisibilityChange
  /\ one_at_a_time kind toggleAll
  /\ one_at_a_time kind (toggleCurrentAnimations shouldPause)
  /\ one_at_a_time kind (setCurrentTimeAll time shouldPause)
  /\ one_at_a_time kind (setPlaybackRateAll rate)
  /\ one_at_a_time kind (refreshAnimationPlayers nodeFront)
  /\ one_at_a_time kind (onAnimationMutations changes)
  /\ one_at_a_time kind destroyAnimationPlayers.
Proof.
  repeat apply conj;
    try apply one_at_a_time_onPanelVisibilityChange;
    apply settles_one_at_a_time;
    auto using settles_initialize, settles_destroy, settles_toggleAll,
      settles_toggleCurrentAnimations, settles_setCurrentTimeAll,
      settles_setPlaybackRateAll, settles_onAnimationMutations with seq.
Qed.

(** ** The fallbacks go through the players in order *)

Lemma bind_trait {B} (name : string) (k : bool -> Method B) w :
  bind (trait name) k w =
  match traits (this w) with
  | Some traits => k (trait_of traits name) w
  | None =>
      Build_Result (Threw "TypeError: this.traits is undefined") [] w
  end.
Proof.
  unfold trait. rewrite bind_bind, bind_self.
  destruct (traits (this w)); [apply bind_ret | reflexivity].
Qed.

Lemma toggle_fallback (shouldPause : bool) (l : list Player) :
  forall w, exists n,
    calls (trace (for_of l (fun player =>
      if shouldPause then await (player_pause player) ;; ret tt
      else await (player_play player) ;; ret tt) w))
    = firstn n (map (toggle_call shouldPause) l)
    /\ (outcome (for_of l (fun player =>
          if shouldPause then await (player_pause player) ;; ret tt
          else await (player_play player) ;; ret tt) w) = Done tt ->
        n = List.length l).
Proof.
  induction l as [|p l IH]; intros w; cbn [for_of].
  - exists 0%nat. now split.
  - destruct shouldPause; rewrite bind_bind, bind_await;
      (destruct (answers w) as [|a rest];
       [exists 1%nat; now split|]);
      (destruct (rejection a);
       [exists 1%nat; now split|]);
      cbv zeta; rewrite bind_ret;
      match goal with
      | |- context [for_of l ?body ?w'] =>
          destruct (IH w') as (n & Hc & Hd)
      end;
      exists (S n); cbn [trace outcome prefixed app calls firstn map];
      rewrite Hc; (split; [reflexivity|]);
      intros Ho; cbn [List.length]; f_equal; now apply Hd.
Qed.

Lemma setCurrentTime_fallback (time : Z) (shouldPause : bool)
    (l : list Player) :
  forall w, exists n,
    calls (trace (for_of l (fun animation =>
      when shouldPause (await (player_pause animation) ;; ret tt) ;;
      await (player_setCurrentTime animation time) ;; ret tt) w))
    = firstn n (flat_map (setCurrentTime_calls time shouldPause) l)
    /\ (outcome (for_of l (fun animation =>
          when shouldPause (await (player_pause animation) ;; ret tt) ;;
          await (player_setCurrentTime animation time) ;; ret tt) w)
        = Done tt ->
        n = List.length (flat_map (setCurrentTime_calls time shouldPause) l)).
Proof.
  induction l as [|p l IH]; intros w; cbn [for_of].
  - exists 0%nat. now split.
  - destruct shouldPause; cbn [when] in IH |- *;
      cbn [flat_map setCurrentTime_calls app].
    + rewrite !bind_bind, bind_await.
      destruct (answers w) as [|a rest]; [exists 1%nat; now split|].
      destruct (rejection a); [exists 1%nat; now split|].
      cbv zeta. rewrite bind_ret, !bind_bind, bind_await. cbn [answers].
      destruct rest as [|b rest]; [exists 2%nat; now split|].
      destruct (rejection b); [exists 2%nat; now split|].
      cbv zeta. rewrite bind_ret.
      match goal with
      | |- context [for_of l ?body ?w'] =>
          destruct (IH w') as (n & Hc & Hd)
      end.
      exists (S (S n)). cbn [trace outcome prefixed app calls firstn].
      rewrite Hc. split; [reflexivity|].
      intros Ho. cbn [List.length]. do 2 f_equal. now apply Hd.
    + rewrite !bind_bind, bind_ret. cbv beta. rewrite ?bind_bind, bind_await.
      destruct (answers w) as [|a rest]; [exists 1%nat; now split|].
      destruct (rejection a); [exists 1%nat; now split|].
      cbv zeta. rewrite bind_ret.
      match goal with
      | |- context [for_of l ?body ?w'] =>
          destruct (IH w') as (n & Hc & Hd)
      end.
      exists (S n). cbn [trace outcome prefixed app calls firstn].
      rewrite Hc. split; [reflexivity|].
      intros Ho. cbn [List.length]. f_equal. now apply Hd.
Qed.

Section OneAtATime.
Context `{HT : Memory.HostTypes} `{HO : !Memory.Host}.

(** C7: the remote calls of a task of snapshot.js, and of a method of the
    controller, come one at a time: in its trace no call is issued before
    the promise of the call before has settled.  In their fallbacks,
    [toggleCurrentAnimations] and [setCurrentTimeAll] go through the players
    in the order of the list, one call after the other, and as far as the
    answers let them. *)
Theorem remote_calls_one_at_a_time (id : nat) (shouldPause : bool)
    (time rate : Z) (changes : list Change) (nodeFront : JsRef) :
  (one_at_a_time Memory.kind Memory.takeSnapshot
   /\ one_at_a_time Memory.kind (Memory.readSnapshot id)
   /\ one_at_a_time Memory.kind (Memory.takeCensus id)
   /\ one_at_a_time Memory.kind Memory.takeSnapshotAndCensus
   /\ one_at_a_time Memory.kind (Memory.selectSnapshotAndRefresh id)
   /\ one_at_a_time Memory.kind Memory.refreshSelectedCensus)
  /\ (one_at_a_time kind getServerTraits
      /\ one_at_a_time kind initialize
      /\ one_at_a_time kind destroy
      /\ one_at_a_time kind onNewNodeFront
      /\ one_at_a_time kind onPanelVisibilityChange
      /\ one_at_a_time kind toggleAll
      /\ one_at_a_time kind (toggleCurrentAnimations shouldPause)
      /\ one_at_a_time kind (setCurrentTimeAll time shouldPause)
      /\ one_at_a_time kind (setPlaybackRateAll rate)
      /\ one_at_a_time kind (refreshAnimationPlayers nodeFront)
      /\ one_at_a_time kind (onAnimationMutations changes)
      /\ one_at_a_time kind destroyAnimationPlayers)
  /\ (forall w ts,
        traits (this w) = Some ts ->
        trait_of ts "hasToggleSeveral" = false ->
        exists n,
          calls (trace (toggleCurrentAnimations shouldPause w))
          = firstn n (map (toggle_call shouldPause)
                          (animationPlayers (this w)))
          /\ (outcome (toggleCurrentAnimations shouldPause w) = Done tt ->
              n = List.length (animationPlayers (this w))))
  /\ (forall w ts,
        traits (this w) = Some ts ->
        trait_of ts "hasSetCurrentTimes" = false ->
        exists n,
          calls (trace (setCurrentTimeAll time shouldPause w))
          = firstn n (flat_map (setCurrentTime_calls time shouldPause)
                               (animationPlayers (this w)))
          /\ (outcome (setCurrentTimeAll time shouldPause w) = Done tt ->
              n = List.length
                    (flat_map (setCurrentTime_calls time shouldPause)
                              (animationPlayers (this w))))).
Proof.
  split; [apply MemoryFacts.tasks_one_at_a_time|].
  split; [apply methods_one_at_a_time|].
  split; intros w ts Et Ef.
  - unfold toggleCurrentAnimations.
    rewrite bind_trait, Et, Ef, bind_self. apply toggle_fallback.
  - unfold setCurrentTimeAll.
    rewrite bind_trait, Et, Ef, bind_self. apply setCurrentTime_fallback.
Qed.

End OneAtATime.

(** ** What makes the controller ask for the players *)

Lemma emits_await (P : Event -> Prop) (c : RemoteCall) :
  P (EvCall c) -> (forall a, P (EvSettled a)) -> emits P (await c).
Proof.
  intros Hc Hs w e. unfold await. destruct (answers w) as [|a rest].
  - intros [<- | []]. exact Hc.
  - destruct (rejection a); (intros [<- | [<- | []]]; [exact Hc | apply Hs]).
Qed.

Lemma onAnimationMutations_no_refresh changes :
  emits not_a_refresh (onAnimationMutations changes).
Proof.
  unfold onAnimationMutations. unfold_steps. events.
  apply emits_await; cbn; trivial.
Qed.

Lemma source_eqb_eq (a b : Source) : source_eqb a b = true <-> a = b.
Proof. destruct a, b; cbn; split; congruence. Qed.

Lemma listens_to_eq src name l :
  listens_to src name l = true <-> source l = src /\ event l = name.
Proof.
  unfold listens_to. now rewrite andb_true_iff, source_eqb_eq, String.eqb_eq.
Qed.

(** An event of [fire] is an event of a listener of what is fired. *)
Lemma for_of_detach_event changes (ls : list Listener) :
  forall w e,
    In e (trace (for_of ls (fun l =>
           detach (call_handler (handler l) changes)) w)) ->
    exists l w',
      In l ls /\ In e (trace (call_handler (handler l) changes w')).
Proof.
  induction ls as [|l ls IH]; intros w e; cbn [for_of].
  - intros [].
  - rewrite trace_bind. intros Hin. apply in_app_or in Hin.
    destruct Hin as [Hin | Hin].
    + exists l, w. split; [now left | exact Hin].
    + cbn [outcome detach] in Hin. apply IH in Hin.
      destruct Hin as (l' & w' & Hl & Hin). exists l', w'.
      split; [now right | exact Hin].
Qed.

Lemma fire_event src name changes w e :
  In e (trace (fire src name changes w)) ->
  exists l w',
    In l (listeners w) /\ listens_to src name l = true
    /\ In e (trace (call_handler (handler l) changes w')).
Proof.
  unfold fire. rewrite bind_get. intros Hin.
  apply for_of_detach_event in Hin. destruct Hin as (l & w' & Hl & Hin).
  apply filter_In in Hl. exists l, w'. tauto.
Qed.

(** With no listener for it, an event does nothing. *)
Lemma fire_unheard src name changes w :
  (forall l, In l (listeners w) -> listens_to src name l = false) ->
  fire src name changes w = Build_Result (Done tt) [] w.
Proof.
  intros H. unfold fire. rewrite bind_get.
  replace (List.filter (listens_to src name) (listeners w)) with (@nil Listener);
    [reflexivity|].
  symmetry. induction (listeners w) as [|l ls IH]; cbn; trivial.
  rewrite (H l) by now left. apply IH. intros l' Hl'. apply H. now right.
Qed.

(** ** Who asks for the players, and who changes the list *)

Lemma quiet_await (c : RemoteCall) :
  not_a_refresh (EvCall c) -> emits not_a_refresh (await c).
Proof. intros H. apply emits_await; cbn; trivial. Qed.

#[local] Hint Extern 1 (emits not_a_refresh (await _)) =>
  apply quiet_await; exact I : events.

(** Proves that a method never asks for the players. *)
Ltac quiet := unfold_steps; solve [events].

Lemma quiet_getServerTraits : emits not_a_refresh getServerTraits.
Proof. unfold getServerTraits. quiet. Qed.

Lemma quiet_startListeners : emits not_a_refresh startListeners.
Proof. unfold startListeners. quiet. Qed.

Lemma quiet_stopListeners : emits not_a_refresh stopListeners.
Proof. unfold stopListeners. quiet. Qed.

Lemma quiet_destroyAnimationPlayers :
  emits not_a_refresh destroyAnimationPlayers.
Proof. unfold destroyAnimationPlayers. quiet. Qed.

#[local] Hint Resolve quiet_getServerTraits quiet_startListeners
  quiet_stopListeners quiet_destroyAnimationPlayers : events.

Lemma quiet_destroy : emits not_a_refresh destroy.
Proof. unfold destroy. quiet. Qed.

Lemma quiet_toggleAll : emits not_a_refresh toggleAll.
Proof. unfold toggleAll. quiet. Qed.

Lemma quiet_toggleCurrentAnimations shouldPause :
  emits not_a_refresh (toggleCurrentAnimations shouldPause).
Proof. unfold toggleCurrentAnimations. quiet. Qed.

Lemma quiet_setCurrentTimeAll time shouldPause :
  emits not_a_refresh (setCurrentTimeAll time shouldPause).
Proof. unfold setCurrentTimeAll. quiet. Qed.

Lemma quiet_setPlaybackRateAll rate :
  emits not_a_refresh (setPlaybackRateAll rate).
Proof. unfold setPlaybackRateAll. quiet. Qed.

Lemma asked_app (l l' : list Event) : asked (l ++ l') = (asked l + asked l')%nat.
Proof.
  induction l as [|e l IH]; cbn; trivial.
  destruct e as [[]| | | | | | |]; cbn; now rewrite IH.
Qed.

Lemma asks_none {A} (m : Method A) :
  emits not_a_refresh m -> asks_at_most 0 m.
Proof.
  intros H w. specialize (H w).
  induction (trace (m w)) as [|e tr IH]; cbn; trivial.
  assert (He : not_a_refresh e) by (apply H; now left).
  assert (Htr : (asked tr <= 0)%nat) by (apply IH; intros e' Hin; apply H; now right).
  destruct e as [[]| | | | | | |]; cbn in He |- *; trivial; contradiction.
Qed.

Lemma asks_after {A B} (n : nat) (m : Method A) (k : A -> Method B) :
  emits not_a_refresh m -> (forall a, asks_at_most n (k a)) ->
  asks_at_most n (bind m k).
Proof.
  intros Hm Hk w. rewrite trace_bind, asked_app.
  pose proof (asks_none m Hm w) as H0.
  destruct (outcome (m w)) as [a| | |]; cbn [asked];
    [specialize (Hk a (world (m w)))|..]; lia.
Qed.

Lemma asks_before {A B} (n : nat) (m : Method A) (k : A -> Method B) :
  asks_at_most n m -> (forall a, emits not_a_refresh (k a)) ->
  asks_at_most n (bind m k).
Proof.
  intros Hm Hk w. rewrite trace_bind, asked_app. specialize (Hm w).
  destruct (outcome (m w)) as [a| | |]; cbn [asked]; try lia.
  pose proof (asks_none (k a) (Hk a) (world (m w))). lia.
Qed.

Lemma asks_getAnimationPlayersForNode node :
  asks_at_most 1
    (on_front (await (animationsFront_getAnimationPlayersForNode node))).
Proof.
  intros w. unfold on_front. rewrite bind_self.
  destruct (animationsFront (this w)); cbn; [|lia].
  unfold await. destruct (answers w) as [|a rest]; cbn; [lia|].
  destruct (rejection a); cbn; lia.
Qed.

Lemma asks_refreshAnimationPlayers node :
  asks_at_most 1 (refreshAnimationPlayers node).
Proof.
  unfold refreshAnimationPlayers.
  apply asks_after; [auto with events | intros _].
  apply asks_before; [apply asks_getAnimationPlayersForNode | intros a].
  quiet.
Qed.

Lemma asks_onNewNodeFront : asks_at_most 1 onNewNodeFront.
Proof.
  unfold onNewNodeFront.
  apply asks_after; [quiet | intros w].
  destruct (negb _ || ref_eqb _ _);
    [intros w'; cbn; lia|].
  apply asks_after; [quiet | intros _].
  destruct (negb _ || negb _).
  - intros w'. apply Nat.le_trans with 0%nat; [|lia].
    apply asks_none. quiet.
  - apply asks_after; [quiet | intros _].
    apply asks_after; [quiet | intros c].
    apply asks_before; [apply asks_refreshAnimationPlayers | intros _].
    quiet.
Qed.

Lemma asks_initialize : asks_at_most 1 initialize.
Proof.
  unfold initialize.
  apply asks_after; [quiet | intros c].
  destruct (initialized c) as [[]|];
    try (intros w'; cbn; lia).
  apply asks_after; [quiet | intros _].
  apply asks_after; [quiet | intros _].
  apply asks_after; [auto with events | intros traits].
  apply asks_after; [quiet | intros _].
  apply asks_after; [quiet | intros c'].
  destruct (destroyed c').
  - intros w'. cbn. lia.
  - apply asks_after; [auto with events | intros _].
    apply asks_before; [apply asks_onNewNodeFront | intros _].
    quiet.
Qed.

(** The methods that play, pause and set times and rates, and those that
    ask for the capabilities and handle the listeners, leave the controller
    as it is. *)
Lemma same_await c0 c : preserves (fun w => this w = c0) (await c).
Proof.
  intros w H. unfold await. destruct (answers w) as [|a rest]; trivial.
  now destruct (rejection a).
Qed.

Lemma same_on c0 src name h : preserves (fun w => this w = c0) (on src name h).
Proof. intros w H. exact H. Qed.

Lemma same_off c0 src name h :
  preserves (fun w => this w = c0) (off src name h).
Proof. intros w H. exact H. Qed.

#[local] Hint Resolve same_await same_on same_off : kept.

Lemma same_controller (shouldPause : bool) (time rate : Z) (w : World) :
  this (world (getServerTraits w)) = this w
  /\ this (world (startListeners w)) = this w
  /\ this (world (stopListeners w)) = this w
  /\ this (world (toggleAll w)) = this w
  /\ this (world (toggleCurrentAnimations shouldPause w)) = this w
  /\ this (world (setCurrentTimeAll time shouldPause w)) = this w
  /\ this (world (setPlaybackRateAll rate w)) = this w.
Proof.
  repeat apply conj;
    match goal with
    | |- this (world (?m w)) = this w =>
        assert (K : preserves (fun w' => this w' = this w) m);
        [|now apply K]
    end.
  - unfold getServerTraits. kept.
  - unfold startListeners, on_sidebar. kept.
  - unfold stopListeners, on_sidebar, on_front, self. kept.
  - unfold toggleAll, trait, on_front, self. kept.
  - unfold toggleCurrentAnimations, trait, on_front, self. kept.
  - unfold setCurrentTimeAll, trait, on_front, self. kept.
  - unfold setPlaybackRateAll, trait, on_front, self. kept.
Qed.

Lemma refreshes_app_l (l l' : list Event) :
  refreshes l -> refreshes (l ++ l').
Proof. intros (n & Hin). exists n. apply in_or_app. now left. Qed.

Lemma refreshes_app_r (l l' : list Event) :
  refreshes l' -> refreshes (l ++ l').
Proof. intros (n & Hin). exists n. apply in_or_app. now right. Qed.

Lemma keeps_or_empties_bind {A B} (m : Method A) (k : A -> Method B) :
  keeps_or_empties m -> (forall a, keeps_or_empties (k a)) ->
  keeps_or_empties (bind m k).
Proof.
  intros Hm Hk w. rewrite trace_bind, world_bind.
  destruct (Hm w) as [Hr | Hl]; [left; now apply refreshes_app_l|].
  destruct (outcome (m w)) as [a| | |]; try (right; exact Hl).
  destruct (Hk a (world (m w))) as [Hr | [Hs | He]].
  - left. now apply refreshes_app_r.
  - right. now rewrite Hs.
  - right. now right.
Qed.

(** Once the front has been asked, what follows may change the list. *)
Lemma keeps_or_empties_asking {A B} (m : Method A) (k : A -> Method B) :
  (forall w,
      refreshes (trace (m w))
      \/ ((forall a, outcome (m w) <> Done a)
          /\ animationPlayers (this (world (m w)))
             = animationPlayers (this w))) ->
  keeps_or_empties (bind m k).
Proof.
  intros Hm w. rewrite trace_bind, world_bind.
  destruct (Hm w) as [Hr | (Ho & Hl)]; [left; now apply refreshes_app_l|].
  destruct (outcome (m w)) as [a| | |]; try (right; left; exact Hl).
  now elim (Ho a).
Qed.

Lemma keeps_or_empties_same {A} (m : Method A) :
  (forall l, preserves (fun w => animationPlayers (this w) = l) m) ->
  keeps_or_empties m.
Proof. intros H w. right. left. now apply H. Qed.

Lemma keeps_or_empties_emptied :
  keeps_or_empties (update (set_animationPlayers [])).
Proof. intros w. right. now right. Qed.

Lemma list_await l c :
  preserves (fun w => animationPlayers (this w) = l) (await c).
Proof.
  intros w H. unfold await. destruct (answers w) as [|a rest]; trivial.
  now destruct (rejection a).
Qed.

Lemma list_on l src name h :
  preserves (fun w => animationPlayers (this w) = l) (on src name h).
Proof. intros w H. exact H. Qed.

Lemma list_off l src name h :
  preserves (fun w => animationPlayers (this w) = l) (off src name h).
Proof. intros w H. exact H. Qed.

Lemma list_update l f :
  (forall c, animationPlayers (f c) = animationPlayers c) ->
  preserves (fun w => animationPlayers (this w) = l) (update f).
Proof. intros Hf w H. cbn. now rewrite Hf. Qed.

#[local] Hint Resolve list_await list_on list_off : kept.
#[local] Hint Extern 1 (preserves _ (update _)) =>
  apply list_update; intros ?; reflexivity : kept.

(** A statement that leaves the list as it is. *)
Ltac same_list :=
  apply keeps_or_empties_same; intros ?;
  unfold self, trait, on_front, on_sidebar; solve [kept].

Lemma keeps_or_empties_destroyAnimationPlayers :
  keeps_or_empties destroyAnimationPlayers.
Proof.
  unfold destroyAnimationPlayers.
  apply keeps_or_empties_bind; [same_list | intros b].
  apply keeps_or_empties_bind; [same_list | intros _].
  apply keeps_or_empties_bind; [same_list | intros c].
  apply keeps_or_empties_bind; [same_list | intros _].
  apply keeps_or_empties_emptied.
Qed.

Lemma keeps_or_empties_refreshAnimationPlayers node :
  keeps_or_empties (refreshAnimationPlayers node).
Proof.
  unfold refreshAnimationPlayers.
  apply keeps_or_empties_bind;
    [apply keeps_or_empties_destroyAnimationPlayers | intros _].
  apply keeps_or_empties_asking. intros w.
  unfold on_front. rewrite bind_self.
  destruct (animationsFront (this w));
    [|right; split; [discriminate | reflexivity]].
  left. exists node. unfold await.
  destruct (answers w) as [|a rest]; [now left|].
  destruct (rejection a); now left.
Qed.

Lemma keeps_or_empties_onNewNodeFront : keeps_or_empties onNewNodeFront.
Proof.
  unfold onNewNodeFront.
  apply keeps_or_empties_bind; [same_list | intros w].
  destruct (negb _ || ref_eqb _ _); [same_list|].
  apply keeps_or_empties_bind; [same_list | intros _].
  destruct (negb _ || negb _).
  - apply keeps_or_empties_bind;
      [apply keeps_or_empties_destroyAnimationPlayers | intros _].
    same_list.
  - apply keeps_or_empties_bind; [same_list | intros _].
    apply keeps_or_empties_bind; [same_list | intros c].
    apply keeps_or_empties_bind;
      [apply keeps_or_empties_refreshAnimationPlayers | intros _].
    same_list.
Qed.

Lemma keeps_or_empties_initialize : keeps_or_empties initialize.
Proof.
  unfold initialize.
  apply keeps_or_empties_bind; [same_list | intros c].
  destruct (initialized c) as [[]|]; try same_list.
  apply keeps_or_empties_bind; [same_list | intros _].
  apply keeps_or_empties_bind; [same_list | intros _].
  apply keeps_or_empties_bind;
    [unfold getServerTraits; same_list | intros traits].
  apply keeps_or_empties_bind; [same_list | intros _].
  apply keeps_or_empties_bind; [same_list | intros c'].
  destruct (destroyed c'); [same_list|].
  apply keeps_or_empties_bind;
    [unfold startListeners; same_list | intros _].
  apply keeps_or_empties_bind;
    [apply keeps_or_empties_onNewNodeFront | intros _].
  same_list.
Qed.

Lemma keeps_or_empties_destroy : keeps_or_empties destroy.
Proof.
  unfold destroy.
  apply keeps_or_empties_bind; [same_list | intros c].
  destruct (initialized c); [|same_list].
  destruct (destroyed c) as [[]|]; try same_list.
  apply keeps_or_empties_bind; [same_list | intros _].
  apply keeps_or_empties_bind;
    [unfold stopListeners; same_list | intros _].
  apply keeps_or_empties_bind;
    [apply keeps_or_empties_destroyAnimationPlayers | intros _].
  same_list.
Qed.

Lemma asks_onPanelVisibilityChange : asks_at_most 1 onPanelVisibilityChange.
Proof.
  intros w. unfold onPanelVisibilityChange. rewrite bind_get.
  destruct (isPanelVisible (panel w)); cbn [when]; [|cbn; lia].
  apply asks_onNewNodeFront.
Qed.

Lemma keeps_or_empties_onPanelVisibilityChange :
  keeps_or_empties onPanelVisibilityChange.
Proof.
  intros w. unfold onPanelVisibilityChange. rewrite bind_get.
  destruct (isPanelVisible (panel w)); cbn [when]; [|right; now left].
  apply keeps_or_empties_onNewNodeFront.
Qed.


(** The listeners stay those of the controller. *)
Lemma kept_await c : preserves only_controller_listeners (await c).
Proof.
  intros w H. unfold await. destruct (answers w) as [|a rest]; trivial.
  now destruct (rejection a).
Qed.

Lemma kept_update f : preserves only_controller_listeners (update f).
Proof. intros w H. exact H. Qed.

Lemma kept_on src name h :
  In {| source := src; event := name; handler := h |} controller_listeners ->
  preserves only_controller_listeners (on src name h).
Proof.
  intros Hin w H l Hl. cbn in Hl. apply in_app_or in Hl.
  destruct Hl as [Hl | [<- | []]]; auto.
Qed.

Lemma kept_off src name h :
  preserves only_controller_listeners (off src name h).
Proof.
  intros w H l Hl. cbn in Hl. apply filter_In in Hl. now apply H.
Qed.

#[local] Hint Resolve kept_await kept_update kept_off : kept.
#[local] Hint Extern 1 (preserves _ (on _ _ _)) =>
  apply kept_on; cbn; tauto : kept.

Lemma kept_destroyAnimationPlayers :
  preserves only_controller_listeners destroyAnimationPlayers.
Proof.
  unfold destroyAnimationPlayers. unfold self, trait, on_front. kept.
Qed.

#[local] Hint Resolve kept_destroyAnimationPlayers : kept.

Lemma kept_refreshAnimationPlayers nodeFront :
  preserves only_controller_listeners (refreshAnimationPlayers nodeFront).
Proof.
  unfold refreshAnimationPlayers. unfold self, trait, on_front. kept.
Qed.

#[local] Hint Resolve kept_refreshAnimationPlayers : kept.

Lemma kept_onNewNodeFront : preserves only_controller_listeners onNewNodeFront.
Proof. unfold onNewNodeFront. unfold self. kept. Qed.

#[local] Hint Resolve kept_onNewNodeFront : kept.

Lemma kept_startListeners : preserves only_controller_listeners startListeners.
Proof.
  unfold startListeners, on_sidebar. kept.
Qed.

Lemma kept_stopListeners : preserves only_controller_listeners stopListeners.
Proof. unfold stopListeners, on_sidebar, on_front, self. kept. Qed.

#[local] Hint Resolve kept_startListeners kept_stopListeners : kept.


Lemma kept_initialize : preserves only_controller_listeners initialize.
Proof.
  unfold initialize, getServerTraits, self. kept.
Qed.

Lemma kept_destroy : preserves only_controller_listeners destroy.
Proof. unfold destroy, self. kept. Qed.

Lemma kept_fire src name changes :
  preserves only_controller_listeners (fire src name changes).
Proof.
  unfold fire, call_handler, onPanelVisibilityChange, onAnimationMutations.
  unfold self. kept.
Qed.

(** ** On the sample page *)

Import Sample.

Lemma documentCurrentTime_value_witness :
  timeline_times [playing 1 10; playing 2 30]
  /\ (forall p, In p [playing 1 10; playing 2 30] ->
                falsy (documentCurrentTime (state p)) = false)
  /\ get_documentCurrentTime (controller all_traits [playing 1 10; playing 2 30])
     = JsNumber (inject_Z 30).
Proof.
  assert (timeline_times [playing 1 10; playing 2 30]) as Htimes
    by (intros q [<- | [<- | []]]; discriminate).
  assert (forall p, In p [playing 1 10; playing 2 30] ->
                    falsy (documentCurrentTime (state p)) = false) as Hall
    by (intros p [<- | [<- | []]]; reflexivity).
  split; [exact Htimes|]. split; [exact Hall|].
  exact (proj1 (proj2 (proj1 (proj2 (documentCurrentTime_value
                  (controller all_traits [playing 1 10; playing 2 30])))
                  Htimes Hall))).
Defined.

(** As the panel opens, [initialize] adds the four listeners. *)
Lemma initialize_listeners :
  outcome (initialize opening) = Done tt
  /\ listeners (world (initialize opening)) = controller_listeners
  /\ animationPlayers (this (world (initialize opening)))
     = [playing 2 20; playing 3 30].
Proof. vm_compute. repeat split. Qed.



Lemma remote_calls_one_at_a_time_witness :
  traits (this bare) = Some []
  /\ trait_of [] "hasToggleSeveral" = false
  /\ trait_of [] "hasSetCurrentTimes" = false
  /\ flight kind false (trace (toggleCurrentAnimations true bare)) <> None
  /\ (exists n,
        calls (trace (toggleCurrentAnimations true bare))
        = firstn n [player_pause (playing 1 10); player_pause (playing 2 20)]
        /\ (outcome (toggleCurrentAnimations true bare) = Done tt ->
            n = 2%nat))
  /\ (exists n,
        calls (trace (setCurrentTimeAll 500 true bare))
        = firstn n [player_pause (playing 1 10);
                    player_setCurrentTime (playing 1 10) 500;
                    player_pause (playing 2 20);
                    player_setCurrentTime (playing 2 20) 500]
        /\ (outcome (setCurrentTimeAll 500 true bare) = Done tt ->
            n = 4%nat)).
Proof.
  destruct (remote_calls_one_at_a_time (HT := types) (HO := host)
              1 true 500 1 [] Undefined)
    as (_ & Hmethods & Htoggle & Htime).
  split; [reflexivity|]. split; [reflexivity|]. split; [reflexivity|].
  split; [apply Hmethods|].
  split; [exact (Htoggle bare [] eq_refl eq_refl)
         | exact (Htime bare [] eq_refl eq_refl)].
Defined.

End AnimationsFacts.

(** * More about the memory-panel action creators *)
Module MemoryFurther.
Import Task TaskFacts Memory Memory.Data MemoryFacts Further.
Open Scope task_scope.

Section Facts.
Context `{HT : HostTypes} `{HO : !Host}.
Implicit Types w : World.

Ltac step :=
  first
    [ rewrite bind_bind
    | rewrite bind_getState
    | rewrite bind_dispatch
    | rewrite bind_reportException
    | rewrite bind_spawn
    | rewrite bind_yield
    | rewrite bind_newSnapshot
    | rewrite bind_getSnapshotOrThrow
    | rewrite bind_assert
    | rewrite bind_when
    | rewrite bind_ret
    | rewrite bind_emit ];
  cbv beta.

Ltac simpl_world :=
  cbn [store utils pending dispatched resumed
       trace outcome world prefixed app
       ret stop dispatch emit reportException selectSnapshot] in *.

Ltac run := repeat (step || simpl_world).

(** ** What throws, and when *)

Lemma takeCensus_loop_never_throws fuel snapshot id :
  forall w x, outcome (takeCensus_loop fuel snapshot id w) <> Threw x.
Proof.
  induction fuel as [|fuel IH]; intros w x; [discriminate|].
  rewrite takeCensus_loop_eq. cbv zeta.
  destruct (pending w) as [|a rest]; simpl_world; [discriminate|].
  destruct (settled a); simpl_world; [|discriminate].
  destruct (out_of_date _ _ _ _); simpl_world; [apply IH | discriminate].
Qed.

Lemma refused_dec allowed (s : State) id :
  refused allowed s id <->
  match getSnapshot s id with
  | None => True
  | Some snapshot => includes allowed (state snapshot) || negb assertThrows = false
  end.
Proof.
  unfold refused. destruct (getSnapshot s id) as [snapshot|]; [|tauto].
  destruct (includes allowed (state snapshot)), assertThrows; cbn; intuition congruence.
Qed.

(** [takeSnapshot] never throws.  [readSnapshot] and [takeCensus] throw in
    one case only, before they do anything: when no snapshot has the id, or
    when the snapshot is in none of the states they accept and a failed
    [assert] throws.  They then leave no event and the world as it was; a
    rejected remote call never makes them throw. *)
Theorem tasks_throw_before_any_effect (w : World) (id : nat) :
  (forall x, outcome (takeSnapshot w) <> Threw x)
  /\ ((exists x, outcome (readSnapshot id w) = Threw x)
      <-> refused [SAVED; IMPORTING] (store w) id)
  /\ ((exists x, outcome (takeCensus id w) = Threw x)
      <-> refused [READ; SAVED_CENSUS] (store w) id)
  /\ (forall x, outcome (readSnapshot id w) = Threw x ->
        trace (readSnapshot id w) = [] /\ world (readSnapshot id w) = w)
  /\ (forall x, outcome (takeCensus id w) = Threw x ->
        trace (takeCensus id w) = [] /\ world (takeCensus id w) = w).
Proof.
  split; [|split; [|split; [|split]]].
  - intros x. rewrite takeSnapshot_eq. cbv zeta.
    destruct (diffing (store w)); simpl_world;
      (destruct (pending w) as [|a rest]; simpl_world; [discriminate|]);
      destruct (settled a); discriminate.
  - rewrite refused_dec, readSnapshot_eq. cbv zeta.
    destruct (getSnapshot (store w) id) as [snapshot|];
      [|split; trivial; intros _; eexists; reflexivity].
    destruct (includes _ _ || _);
      [|split; trivial; intros _; eexists; reflexivity].
    split; [|discriminate]. intros (x & Ex). exfalso. revert Ex. simpl_world.
    destruct (pending w) as [|a rest]; simpl_world; [discriminate|].
    destruct (settled a); simpl_world; [|discriminate].
    destruct rest as [|b rest]; simpl_world; [discriminate|].
    destruct (settled b); discriminate.
  - rewrite refused_dec, takeCensus_eq.
    destruct (getSnapshot (store w) id) as [snapshot|];
      [|split; trivial; intros _; eexists; reflexivity].
    destruct (includes _ _ || _);
      [|split; trivial; intros _; eexists; reflexivity].
    split; [|discriminate]. intros (x & Ex). exfalso. revert Ex.
    destruct (censusIsUpToDate _ _ _ _); [discriminate|].
    apply takeCensus_loop_never_throws.
  - intros x. rewrite readSnapshot_eq. cbv zeta.
    destruct (getSnapshot (store w) id) as [snapshot|]; [|now split].
    destruct (includes _ _ || _); [|now split]. simpl_world.
    destruct (pending w) as [|a rest]; simpl_world; [discriminate|].
    destruct (settled a); simpl_world; [|discriminate].
    destruct rest as [|b rest]; simpl_world; [discriminate|].
    destruct (settled b); discriminate.
  - intros x. rewrite takeCensus_eq.
    destruct (getSnapshot (store w) id) as [snapshot|]; [|now split].
    destruct (includes _ _ || _); [|now split].
    destruct (censusIsUpToDate _ _ _ _); [discriminate|].
    intros Ex. now apply takeCensus_loop_never_throws in Ex.
Qed.

(** ** What is asked of the heap worker *)

(** [readSnapshot] reads the file of the snapshot it found when it started,
    and asks for the creation time of that same file only once the file has
    been read: the call for the time comes right after the call to read was
    resolved, and nothing else is called. *)
Theorem readSnapshot_reads_then_dates (w : World) (id : nat)
    (snapshot : Snapshot) :
  getSnapshot (store w) id = Some snapshot ->
  (forall pre c post,
      trace (readSnapshot id w) = pre ++ EvCall c :: post ->
      c = heapWorker_readHeapSnapshot (path snapshot)
      \/ c = heapWorker_getCreationTime (path snapshot))
  /\ (forall pre p post,
        trace (readSnapshot id w)
          = pre ++ EvCall (heapWorker_getCreationTime p) :: post ->
        exists a v,
          pre = [EvDispatch (READ_SNAPSHOT_START id);
                 EvCall (heapWorker_readHeapSnapshot (path snapshot));
                 EvSettled a]
          /\ settled a = Resolved v).
Proof.
  intros Eg. rewrite readSnapshot_eq, Eg. cbv zeta.
  destruct (includes _ _ || _); simpl_world;
    [|split; intros * E; split_at E].
  destruct (pending w) as [|a rest]; simpl_world.
  { split; intros * E; split_at E. injection E as <- _. now left. }
  destruct (settled a) as [v|error] eqn:Ea; simpl_world.
  2:{ split; intros * E; split_at E. injection E as <- _. now left. }
  destruct rest as [|b rest]; simpl_world.
  { split; intros * E; split_at E.
    - injection E as <- _. now left.
    - injection E as <- _. now right.
    - now exists a, v. }
  destruct (settled b); simpl_world; split; intros * E; split_at E;
    try (injection E as <- _; tauto); now exists a, v.
Qed.

(** The loop of [takeCensus] calls the heap worker for nothing but the
    census it has just announced. *)
Lemma takeCensus_loop_calls fuel snapshot id :
  forall w pre c post,
    trace (takeCensus_loop fuel snapshot id w) = pre ++ EvCall c :: post ->
    exists pre',
      pre = pre'
            ++ [EvDispatch (census_start id (replay pre' (store w)))]
      /\ c = census_call snapshot (replay pre' (store w)).
Proof.
  induction fuel as [|fuel IH]; intros w pre c post E.
  - cbn in E. now apply split_nil in E.
  - rewrite takeCensus_loop_eq in E. cbv zeta in E.
    destruct (pending w) as [|a rest]; simpl_world.
    + split_at E. injection E as <- _. now exists [].
    + destruct (settled a) as [report|error]; simpl_world;
        [destruct (out_of_date _ _ _ _); simpl_world|];
        split_at E; try (injection E as <- _; now exists []).
      destruct (IH _ _ _ _ E) as (pre' & -> & ->).
      now exists (EvDispatch (census_start id (store w))
                  :: EvCall (census_call snapshot (store w))
                  :: EvSettled a :: pre').
Qed.

Lemma filter_or_null_not_empty (f : option string) :
  filter_or_null f <> Some EmptyString.
Proof. destruct f as [[|]|]; discriminate. Qed.

(** What [takeCensus] asks of the heap worker, whatever the others dispatch
    in between: every remote call is a census of the file of the snapshot
    found at the start, announced just before by a TAKE_CENSUS_START for
    the id of the task, with the breakdown of the store at that moment, as
    a tree that is inverted or not as the store says, never both, and with
    the filter of the store, where an empty filter is sent as null. *)
Theorem takeCensus_asks_what_it_announces (w : World) (id : nat)
    (snapshot : Snapshot) :
  getSnapshot (store w) id = Some snapshot ->
  forall pre c post,
    trace (takeCensus id w) = pre ++ EvCall c :: post ->
    exists pre' opts,
      let s := replay pre' (store w) in
      pre = pre' ++ [EvDispatch (census_start id s)]
      /\ c = heapWorker_takeCensus (path snapshot) (breakdown s) opts
      /\ asInvertedTreeNode opts = inverted s
      /\ asTreeNode opts = negb (inverted s)
      /\ opts_filter opts = filter_or_null (filter s)
      /\ opts_filter opts <> Some EmptyString.
Proof.
  intros Eg. rewrite takeCensus_eq, Eg.
  destruct (includes _ _ || _);
    [|intros * E; cbn [trace] in E; split_at E].
  destruct (censusIsUpToDate _ _ _ _);
    [intros * E; cbn [trace] in E; split_at E|].
  intros * E.
  destruct (takeCensus_loop_calls _ _ _ _ _ _ _ E) as (pre' & -> & ->).
  exists pre'. eexists. cbv zeta. repeat split.
  apply filter_or_null_not_empty.
Qed.

(** ** Who creates a snapshot *)

Lemma utils_getState (u : UtilsState) :
  preserves (fun w => utils w = u) getState.
Proof. intros w E. exact E. Qed.

Lemma utils_dispatch (u : UtilsState) (a : Action) :
  preserves (fun w => utils w = u) (dispatch a).
Proof. intros w E. exact E. Qed.

Lemma utils_yield (u : UtilsState) (c : RemoteCall) :
  preserves (fun w => utils w = u) (yield c).
Proof. intros w E. unfold yield. now destruct (pending w). Qed.

Lemma utils_reportException (u : UtilsState) who error :
  preserves (fun w => utils w = u) (reportException who error).
Proof. intros w E. exact E. Qed.

Lemma utils_assert (u : UtilsState) (condition : bool) :
  preserves (fun w => utils w = u) (assert condition).
Proof.
  intros w E. unfold assert. now destruct condition, assertThrows.
Qed.

#[local] Hint Resolve utils_getState utils_dispatch utils_yield
  utils_reportException utils_assert : kept.

Lemma utils_getSnapshotOrThrow (u : UtilsState) (id : nat) :
  preserves (fun w => utils w = u) (getSnapshotOrThrow id).
Proof. unfold getSnapshotOrThrow. kept. Qed.

#[local] Hint Resolve utils_getSnapshotOrThrow : kept.

Lemma utils_readSnapshot (u : UtilsState) (id : nat) :
  preserves (fun w => utils w = u) (readSnapshot id).
Proof. unfold readSnapshot. kept. Qed.

Lemma utils_takeCensus_loop (u : UtilsState) fuel snapshot id :
  preserves (fun w => utils w = u) (takeCensus_loop fuel snapshot id).
Proof.
  induction fuel as [|fuel IH]; cbn [takeCensus_loop]; kept.
Qed.

Lemma utils_takeCensus (u : UtilsState) (id : nat) :
  preserves (fun w => utils w = u) (takeCensus id).
Proof.
  unfold takeCensus. kept. intros w E. now apply utils_takeCensus_loop.
Qed.

#[local] Hint Resolve utils_readSnapshot utils_takeCensus : kept.

Lemma utils_refreshSelectedCensus (u : UtilsState) :
  preserves (fun w => utils w = u) refreshSelectedCensus.
Proof. unfold refreshSelectedCensus, spawn. kept. Qed.

#[local] Hint Resolve utils_refreshSelectedCensus : kept.

Lemma utils_selectSnapshotAndRefresh (u : UtilsState) (id : nat) :
  preserves (fun w => utils w = u) (selectSnapshotAndRefresh id).
Proof. unfold selectSnapshotAndRefresh, spawn. kept. Qed.

Lemma utils_takeSnapshot w :
  utils (world (takeSnapshot w)) = snd (createSnapshot (utils w)).
Proof.
  rewrite takeSnapshot_eq. cbv zeta.
  destruct (diffing (store w)); simpl_world;
    (destruct (pending w) as [|a rest]; simpl_world; trivial);
    now destruct (settled a).
Qed.

(** A snapshot is created by [takeSnapshot] alone, once in a run, with or
    without the reading and the census that [takeSnapshotAndCensus] adds;
    reading, taking a census, refreshing and selecting create none.  The
    snapshot created is the one that is announced and then selected. *)
Theorem takeSnapshot_alone_creates (w : World) (id : nat) :
  let created := createSnapshot (utils w) in
  utils (world (takeSnapshot w)) = snd created
  /\ utils (world (takeSnapshotAndCensus w)) = snd created
  /\ utils (world (readSnapshot id w)) = utils w
  /\ utils (world (takeCensus id w)) = utils w
  /\ utils (world (refreshSelectedCensus w)) = utils w
  /\ utils (world (selectSnapshotAndRefresh id w)) = utils w
  /\ exists pre post,
       trace (takeSnapshot w)
         = pre ++ EvDispatch (TAKE_SNAPSHOT_START (fst created))
               :: EvDispatch (SELECT_SNAPSHOT (Data.id (fst created)))
               :: EvCall front_saveHeapSnapshot :: post
       /\ (forall e, In e pre -> e = EvDispatch (OTHER toggleDiffing)).
Proof.
  cbv zeta. split; [apply utils_takeSnapshot|].
  split; [|split; [|split; [|split; [|split]]]].
  - unfold takeSnapshotAndCensus. rewrite bind_spawn. cbn [world prefixed].
    rewrite world_bind. pose proof (utils_takeSnapshot w) as E.
    destruct (outcome (takeSnapshot w)) as [[id'|]| | |]; trivial.
    revert E. generalize (world (takeSnapshot w)) (snd (createSnapshot (utils w))).
    intros w' u E.
    assert (K : preserves (fun w => utils w = u)
                  (spawn (ReadSnapshot id') (readSnapshot id') ;;
                   snapshot <- getSnapshotOrThrow id' ;;
                   if state_eqb (state snapshot) READ
                   then spawn (TakeCensus id') (takeCensus id')
                   else ret tt)) by (unfold spawn; kept).
    exact (K w' E).
  - now apply utils_readSnapshot.
  - now apply utils_takeCensus.
  - now apply utils_refreshSelectedCensus.
  - now apply utils_selectSnapshotAndRefresh.
  - rewrite takeSnapshot_eq. cbv zeta.
    destruct (diffing (store w)); simpl_world;
      [exists [EvDispatch (OTHER toggleDiffing)] | exists []];
      (destruct (pending w) as [|a rest]; simpl_world;
       [exists [] | eexists]; (split; [reflexivity|]);
       cbn; intuition congruence).
Qed.

(** ** Selecting a snapshot *)

(** [refreshSelectedCensus] reaches the heap worker only when the first
    selected snapshot is in the state SAVED_CENSUS and the census of the
    snapshot with its id is not up to date. *)
Lemma refreshSelectedCensus_calls w c :
  In (EvCall c) (trace (refreshSelectedCensus w)) ->
  exists selection snapshot,
    find selected (snapshots (store w)) = Some selection
    /\ state selection = SAVED_CENSUS
    /\ getSnapshot (store w) (Data.id selection) = Some snapshot
    /\ censusIsUpToDate (inverted (store w)) (filter (store w))
          (breakdown (store w)) (census snapshot) = false.
Proof.
  unfold refreshSelectedCensus. run.
  destruct (find selected (snapshots (store w))) as [selection|];
    [|intros []].
  destruct (state_eqb (state selection) SAVED_CENSUS) eqn:Es; [|intros []].
  apply state_eqb_eq in Es. rewrite spawn_eq, takeCensus_eq.
  destruct (getSnapshot (store w) (Data.id selection)) as [snapshot|] eqn:Eg;
    [|cbn; intuition discriminate].
  destruct (includes _ _ || _); [|cbn; intuition discriminate].
  destruct (censusIsUpToDate _ _ _ _) eqn:Eu; [cbn; intuition discriminate|].
  intros _. now exists selection, snapshot.
Qed.

(** [selectSnapshotAndRefresh] leaves diffing when it is on, selects the
    snapshot, then refreshes; it reaches the heap worker only when, in the
    store as the selection has left it, the first selected snapshot is in
    the state SAVED_CENSUS and the census of the snapshot with its id is
    not up to date.  The store is read after the selection, not before. *)
Theorem select_takes_census_only_when_stale (w : World) (id : nat) :
  let s1 := selected_store id (store w) in
  (exists pre post,
      trace (selectSnapshotAndRefresh id w)
        = pre ++ EvDispatch (SELECT_SNAPSHOT id)
              :: EvSpawn RefreshSelectedCensus :: post
      /\ pre = if diffing (store w)
               then [EvDispatch (OTHER toggleDiffing)] else [])
  /\ (forall c, In (EvCall c) (trace (selectSnapshotAndRefresh id w)) ->
        exists selection snapshot,
          find selected (snapshots s1) = Some selection
          /\ state selection = SAVED_CENSUS
          /\ getSnapshot s1 (Data.id selection) = Some snapshot
          /\ censusIsUpToDate (inverted s1) (filter s1) (breakdown s1)
                (census snapshot) = false).
Proof.
  cbv zeta. unfold selectSnapshotAndRefresh, selected_store. run.
  destruct (diffing (store w)); run; rewrite spawn_eq; simpl_world.
  - split.
    + exists [EvDispatch (OTHER toggleDiffing)]. now eexists.
    + intros c [Hin | [Hin | [Hin | Hin]]]; try discriminate.
      now apply refreshSelectedCensus_calls in Hin.
  - split.
    + exists []. now eexists.
    + intros c [Hin | [Hin | Hin]]; try discriminate.
      now apply refreshSelectedCensus_calls in Hin.
Qed.

(** ** Whose snapshot a task reports on *)

(** Goes through the events of a trace given by its elements. *)
Ltac each_dispatch Hin :=
  cbn [In trace prefixed app] in Hin;
  repeat (destruct Hin as [Hin | Hin];
          [try discriminate Hin; injection Hin as <-; reflexivity|]);
  try contradiction.

Lemma takeCensus_loop_subject fuel snapshot id :
  forall w a,
    In (EvDispatch a) (trace (takeCensus_loop fuel snapshot id w)) ->
    subject a = Some id.
Proof.
  induction fuel as [|fuel IH]; intros w a Hin; [contradiction|].
  rewrite takeCensus_loop_eq in Hin. cbv zeta in Hin.
  destruct (pending w) as [|r rest]; [each_dispatch Hin|].
  destruct (settled r); [|each_dispatch Hin].
  destruct (out_of_date _ _ _ _); each_dispatch Hin.
  exact (IH _ _ Hin).
Qed.

(** A task reports on its own snapshot only: every action that
    [readSnapshot] or [takeCensus] dispatches is about the snapshot whose id
    they were given, and every action of [takeSnapshot] is about the
    snapshot it has created, but for the one that leaves diffing. *)
Theorem tasks_dispatch_about_their_snapshot (w : World) (id : nat) :
  (forall a, In (EvDispatch a) (trace (readSnapshot id w)) ->
             subject a = Some id)
  /\ (forall a, In (EvDispatch a) (trace (takeCensus id w)) ->
               subject a = Some id)
  /\ (forall a, In (EvDispatch a) (trace (takeSnapshot w)) ->
               a = OTHER toggleDiffing
               \/ subject a = Some (Data.id (fst (createSnapshot (utils w))))).
Proof.
  split; [|split]; intros a Hin.
  - rewrite readSnapshot_eq in Hin. cbv zeta in Hin.
    destruct (getSnapshot (store w) id) as [snapshot|]; [|contradiction].
    destruct (includes _ _ || _); [|contradiction].
    destruct (pending w) as [|r rest]; [each_dispatch Hin|].
    destruct (settled r); [|each_dispatch Hin].
    destruct rest as [|r' rest]; [each_dispatch Hin|].
    destruct (settled r'); each_dispatch Hin.
  - rewrite takeCensus_eq in Hin.
    destruct (getSnapshot (store w) id) as [snapshot|]; [|contradiction].
    destruct (includes _ _ || _); [|contradiction].
    destruct (censusIsUpToDate _ _ _ _); [contradiction|].
    exact (takeCensus_loop_subject _ _ _ _ _ Hin).
  - rewrite takeSnapshot_eq in Hin. cbv zeta in Hin.
    destruct (diffing (store w));
      cbn [In trace prefixed app] in Hin;
      [destruct Hin as [Hin | Hin]; [injection Hin as <-; now left|]|];
      right;
      (destruct (pending w) as [|r rest]; [each_dispatch Hin|]);
      destruct (settled r); each_dispatch Hin.
Qed.

End Facts.

(** ** The theorems at work on a sample store *)
Import Sample.

Lemma readSnapshot_reads_then_dates_witness :
  getSnapshot (store (saved [ok "done"; ok "1446500000"])) 1
    = Some {| id := 1; state := SAVED; path := "/tmp/1.fxsnapshot";
              census := None; selected := true |}
  /\ (forall pre p post,
        trace (readSnapshot 1 (saved [ok "done"; ok "1446500000"]))
          = pre ++ EvCall (heapWorker_getCreationTime p) :: post ->
        exists a v,
          pre = [EvDispatch (READ_SNAPSHOT_START 1);
                 EvCall (heapWorker_readHeapSnapshot "/tmp/1.fxsnapshot");
                 EvSettled a]
          /\ settled a = Resolved v).
Proof.
  split; [reflexivity|].
  exact (proj2 (readSnapshot_reads_then_dates
                  (saved [ok "done"; ok "1446500000"]) 1 _ eq_refl)).
Defined.

Lemma takeCensus_asks_what_it_announces_witness :
  getSnapshot (store (read [late "objectClass" "stale"; ok "fresh"])) 1
    = Some {| id := 1; state := READ; path := "/tmp/1.fxsnapshot";
              census := None; selected := true |}
  /\ (forall pre c post,
        trace (takeCensus 1 (read [late "objectClass" "stale"; ok "fresh"]))
          = pre ++ EvCall c :: post ->
        exists pre' opts,
          let s := replay pre'
                     (store (read [late "objectClass" "stale"; ok "fresh"]))
          in
          pre = pre' ++ [EvDispatch (census_start 1 s)]
          /\ c = heapWorker_takeCensus "/tmp/1.fxsnapshot" (breakdown s) opts
          /\ asInvertedTreeNode opts = inverted s
          /\ asTreeNode opts = negb (inverted s)
          /\ opts_filter opts = filter_or_null (filter s)
          /\ opts_filter opts <> Some EmptyString).
Proof.
  split; [reflexivity|].
  exact (takeCensus_asks_what_it_announces
           (read [late "objectClass" "stale"; ok "fresh"]) 1 _ eq_refl).
Defined.

End MemoryFurther.

(** * More about the animations controller *)
Module AnimationsFurther.
Import Task TaskFacts Animations AnimationsFacts Further.
Open Scope task_scope.
Open Scope Z_scope.

(** ** More laws of the small steps *)

Lemma calls_app (l l' : list Event) : calls (l ++ l') = calls l ++ calls l'.
Proof.
  induction l as [|e l IH]; cbn; trivial. destruct e; cbn; now rewrite IH.
Qed.

Lemma bind_on_front {A B} (m : Method A) (k : A -> Method B) w :
  bind (on_front m) k w =
  if animationsFront (this w) then bind m k w
  else Build_Result
         (Threw "TypeError: this.animationsFront is not an object") [] w.
Proof.
  unfold on_front. rewrite bind_bind, bind_self.
  now destruct (animationsFront (this w)).
Qed.

Lemma on_front_eq {A} (m : Method A) w :
  on_front m w =
  if animationsFront (this w) then m w
  else Build_Result
         (Threw "TypeError: this.animationsFront is not an object") [] w.
Proof.
  unfold on_front. rewrite bind_self. now destruct (animationsFront (this w)).
Qed.

Lemma bind_on {B} src name h (k : unit -> Method B) w :
  bind (on src name h) k w =
  k tt {| this := this w; panel := panel w;
          listeners := listeners w
            ++ [{| source := src; event := name; handler := h |}];
          answers := answers w |}.
Proof. unfold on. now rewrite bind_bind, bind_get, bind_put. Qed.

Lemma bind_off {B} src name h (k : unit -> Method B) w :
  bind (off src name h) k w =
  k tt {| this := this w; panel := panel w;
          listeners :=
            List.filter
              (fun l => negb (listener_eqb l
                 {| source := src; event := name; handler := h |}))
              (listeners w);
          answers := answers w |}.
Proof. unfold off. now rewrite bind_bind, bind_get, bind_put. Qed.

Lemma bind_on_sidebar {B} (m : Method unit) (k : unit -> Method B) w :
  bind (on_sidebar m) k w =
  match currentTabID (panel w) with
  | Some _ => bind m k w
  | None => Build_Result (Threw "TypeError: gInspector.sidebar is null") [] w
  end.
Proof.
  unfold on_sidebar. rewrite bind_bind, bind_get.
  now destruct (currentTabID (panel w)).
Qed.

Ltac simpl_result :=
  cbn [this panel listeners answers trace outcome world prefixed app
       ret stop emit put update] in *.

(** ** Releasing the players *)

(** The loop of [destroyAnimationPlayers]: the players are released in the
    order of the list, as far as the answers let it; the controller is not
    touched. *)
Lemma release_loop (l : list Player) :
  forall w,
    let r := for_of l (fun front => await (player_release front) ;; ret tt) w in
    this (world r) = this w /\ panel (world r) = panel w
    /\ listeners (world r) = listeners w
    /\ exists n,
         calls (trace r) = firstn n (map player_release l)
         /\ (outcome r = Done tt -> n = List.length l).
Proof.
  induction l as [|p l IH]; intros w; cbv zeta; cbn [for_of].
  - repeat split. now exists 0%nat.
  - rewrite bind_bind, bind_await.
    destruct (answers w) as [|a rest];
      [repeat split; exists 1%nat; now split|].
    destruct (rejection a);
      [repeat split; exists 1%nat; now split|].
    cbv zeta. rewrite bind_ret.
    match goal with
    | |- context [for_of l ?body ?w'] =>
        destruct (IH w') as (Ht & Hp & Hl & n & Hc & Hd)
    end.
    cbn [trace outcome world prefixed app calls this panel listeners] in *.
    repeat split; trivial.
    exists (S n). cbn [firstn map]. rewrite Hc. split; trivial.
    intros Ho. cbn [List.length]. f_equal. now apply Hd.
Qed.

Lemma update_eq (f : Controller -> Controller) w :
  update f w =
  Build_Result (Done tt) []
    {| this := f (this w); panel := panel w; listeners := listeners w;
       answers := answers w |}.
Proof. reflexivity. Qed.

(** What [destroyAnimationPlayers] leaves behind. *)
Lemma destroyAnimationPlayers_result w :
  let r := destroyAnimationPlayers w in
  panel (world r) = panel w /\ listeners (world r) = listeners w
  /\ (outcome r = Done tt ->
      this (world r) = set_animationPlayers [] (this w)
      /\ exists ts,
           traits (this w) = Some ts
           /\ calls (trace r)
              = (if trait_of ts "hasMutationEvents"
                 then [animationsFront_stopAnimationPlayerUpdates] else [])
                ++ map player_release (animationPlayers (this w)))
  /\ (outcome r <> Done tt -> this (world r) = this w).
Proof.
  cbv zeta. unfold destroyAnimationPlayers. rewrite bind_trait.
  destruct (traits (this w)) as [ts|] eqn:Et;
    [|repeat split; trivial; discriminate].
  assert (Tail : forall w',
    this w' = this w -> panel w' = panel w -> listeners w' = listeners w ->
    let r := bind self (fun c =>
               for_of (animationPlayers c) (fun front =>
                 await (player_release front) ;; ret tt) ;;
               update (set_animationPlayers [])) w' in
    panel (world r) = panel w /\ listeners (world r) = listeners w
    /\ (outcome r = Done tt ->
        this (world r) = set_animationPlayers [] (this w)
        /\ calls (trace r) = map player_release (animationPlayers (this w)))
    /\ (outcome r <> Done tt -> this (world r) = this w)).
  { intros w' Ht Hp Hl. cbv zeta. rewrite bind_self, Ht.
    pose proof (release_loop (animationPlayers (this w)) w') as H.
    cbv zeta in H. rewrite world_bind, outcome_bind, trace_bind.
    destruct H as (Ht' & Hp' & Hl' & n & Hc & Hd).
    destruct (outcome (for_of _ _ w')) as [[]| | |];
      rewrite ?update_eq; simpl_result;
      rewrite ?Ht', ?Hp', ?Hl', ?Ht, ?Hp, ?Hl;
      repeat split; trivial; try discriminate; try (intros N; now elim N).

    rewrite app_nil_r, Hc, (Hd eq_refl). apply firstn_all2.
    now rewrite length_map. }
  rewrite bind_when. destruct (trait_of ts "hasMutationEvents") eqn:Em.
  - rewrite bind_on_front.
    destruct (animationsFront (this w));
      [|repeat split; trivial; discriminate].
    rewrite bind_bind, bind_await.
    destruct (answers w) as [|a rest];
      [repeat split; trivial; discriminate|].
    destruct (rejection a); [repeat split; trivial; discriminate|].
    cbv zeta. rewrite bind_ret.
    match goal with
    | |- context [bind self ?k ?w'] =>
        destruct (Tail w' eq_refl eq_refl eq_refl) as (Hp & Hl & Hd & Hn)
    end.
    simpl_result. repeat split; trivial.
    + now apply Hd.
    + exists ts. split; trivial. rewrite Em. cbn [calls app]. f_equal.
      now apply Hd.
  - destruct (Tail w eq_refl eq_refl eq_refl) as (Hp & Hl & Hd & Hn).
    repeat split; trivial; [now apply Hd|].
    exists ts. split; trivial. rewrite Em. now apply Hd.
Qed.

(** ** Asking for the players again *)

(** What [refreshAnimationPlayers] leaves behind. *)
Lemma refreshAnimationPlayers_result nodeFront w :
  let r := refreshAnimationPlayers nodeFront w in
  panel (world r) = panel w
  /\ (outcome r = Done tt ->
      exists a ts,
        traits (this w) = Some ts /\ rejection a = None
        /\ trace r
           = trace (destroyAnimationPlayers w)
             ++ [EvCall (animationsFront_getAnimationPlayersForNode nodeFront);
                 EvSettled a]
        /\ this (world r)
           = set_isListeningToMutations
               (isListeningToMutations (this w)
                || trait_of ts "hasMutationEvents")
               (set_animationPlayers (players a) (this w))
        /\ listeners (world r)
           = listeners w
             ++ (if negb (isListeningToMutations (this w))
                    && trait_of ts "hasMutationEvents"
                 then [mutations_listener] else []))
  /\ (outcome r <> Done tt ->
      listeners (world r) = listeners w
      /\ (this (world r) = this w
          \/ this (world r) = set_animationPlayers [] (this w))).
Proof.
  cbv zeta. unfold refreshAnimationPlayers.
  pose proof (destroyAnimationPlayers_result w) as H. cbv zeta in H.
  destruct (destroyAnimationPlayers w) as [o tr w1] eqn:E1.
  rewrite (bind_run _ _ _ _ _ _ E1). simpl_result.
  destruct H as (Hp & Hl & Hd & Hn).
  destruct o as [[]|x| |];
    try (split; [trivial|]; split; [discriminate|]; intros _;
         split; [trivial|]; left; apply Hn; discriminate).
  clear Hn. destruct (Hd eq_refl) as (Ht & ts & Ets & _). clear Hd.
  destruct w1 as [c1 p1 l1 a1]. simpl_result. subst c1 p1 l1.
  rewrite bind_on_front. simpl_result. cbn [set_animationPlayers animationsFront].
  destruct (animationsFront (this w)) eqn:Ef; simpl_result;
    [|split; [trivial|]; split; [discriminate|]; intros _;
      split; [trivial|]; now right].
  rewrite bind_await. simpl_result.
  destruct a1 as [|a rest]; simpl_result;
    [split; [trivial|]; split; [discriminate|]; intros _;
     split; [trivial|]; now right|].
  destruct (rejection a) eqn:Er; simpl_result;
    [split; [trivial|]; split; [discriminate|]; intros _;
     split; [trivial|]; now right|].
  rewrite bind_update, bind_self, bind_trait. simpl_result.
  cbn [set_animationPlayers traits isListeningToMutations]. rewrite Ets.
  assert (Fin : forall (l : list Listener) (b : bool) (c : Controller),
    b = isListeningToMutations (this w) || trait_of ts "hasMutationEvents" ->
    l = listeners w
        ++ (if negb (isListeningToMutations (this w))
               && trait_of ts "hasMutationEvents"
            then [mutations_listener] else []) ->
    c = set_isListeningToMutations b
          (set_animationPlayers (players a) (this w)) ->
    exists a0 ts0,
      Some ts = Some ts0 /\ rejection a0 = None
      /\ tr ++ [EvCall (animationsFront_getAnimationPlayersForNode nodeFront);
                EvSettled a]
         = tr ++ [EvCall (animationsFront_getAnimationPlayersForNode nodeFront);
                  EvSettled a0]
      /\ c = set_isListeningToMutations
               (isListeningToMutations (this w)
                || trait_of ts0 "hasMutationEvents")
               (set_animationPlayers (players a0) (this w))
      /\ l = listeners w
             ++ (if negb (isListeningToMutations (this w))
                    && trait_of ts0 "hasMutationEvents"
                 then [mutations_listener] else [])).
  { intros l b c -> -> ->. exists a, ts. now repeat split. }
  revert Fin.
  destruct (isListeningToMutations (this w)) eqn:El;
    destruct (trait_of ts "hasMutationEvents") eqn:Em;
    intros Fin; cbn [negb andb orb when] in Fin |- *.
  1,2,4: simpl_result; (split; [trivial|]);
         (split; [|intros N; now elim N]); intros _;
         (eapply Fin; [reflexivity | now rewrite app_nil_r |]);
         unfold set_isListeningToMutations, set_animationPlayers; cbn;
         now rewrite El.
  rewrite bind_on_front. simpl_result. cbn [set_animationPlayers animationsFront].
  rewrite Ef, bind_on, update_eq. simpl_result.
  split; trivial. split; [|intros N; now elim N]. intros _.
  eapply Fin; reflexivity.
Qed.

(** [destroyAnimationPlayers] tells the server to stop the updates when it
    can, releases the players in the order of the list, and only then
    empties the list.  When a call fails on the way, the controller is left
    as it was: the list still holds every player, those already released
    included.  The listeners are never touched. *)
Theorem destroyAnimationPlayers_releases_then_empties (w : World) :
  let r := destroyAnimationPlayers w in
  (outcome r = Done tt ->
     this (world r) = set_animationPlayers [] (this w)
     /\ exists ts,
          traits (this w) = Some ts
          /\ calls (trace r)
             = (if trait_of ts "hasMutationEvents"
                then [animationsFront_stopAnimationPlayerUpdates] else [])
               ++ map player_release (animationPlayers (this w)))
  /\ (outcome r <> Done tt -> this (world r) = this w)
  /\ listeners (world r) = listeners w.
Proof.
  cbv zeta. destruct (destroyAnimationPlayers_result w) as (_ & Hl & Hd & Hn).
  auto.
Qed.

(** [refreshAnimationPlayers] first destroys the players it has, then asks
    for those of the node, and its list becomes the answer to that very
    call, as it is: its trace is that of [destroyAnimationPlayers], then
    the call and its answer, and the list holds the players of this answer.
    It listens to the mutations from then on when the server sends them.
    When it fails, the list is the old one or empty, never a mix, and the
    node of the controller is not its business. *)
Theorem refreshAnimationPlayers_replaces_the_list (w : World)
    (node : JsRef) :
  let r := refreshAnimationPlayers node w in
  (outcome r = Done tt ->
     exists a ts,
       traits (this w) = Some ts
       /\ rejection a = None
       /\ trace r
          = trace (destroyAnimationPlayers w)
            ++ [EvCall (animationsFront_getAnimationPlayersForNode node);
                EvSettled a]
       /\ animationPlayers (this (world r)) = players a
       /\ isListeningToMutations (this (world r))
          = isListeningToMutations (this w)
            || trait_of ts "hasMutationEvents"
       /\ this (world r)
          = set_isListeningToMutations
              (isListeningToMutations (this w)
               || trait_of ts "hasMutationEvents")
              (set_animationPlayers (players a) (this w)))
  /\ (outcome r <> Done tt ->
      animationPlayers (this (world r)) = animationPlayers (this w)
      \/ animationPlayers (this (world r)) = [])
  /\ nodeFront (this (world r)) = nodeFront (this w).
Proof.
  cbv zeta.
  destruct (refreshAnimationPlayers_result node w) as (_ & Hd & Hn).
  split; [|split].
  - intros Ho. destruct (Hd Ho) as (a & ts & Et & Er & Etr & Ec & _).
    exists a, ts. rewrite Etr, Ec. now repeat split.
  - intros Ho. destruct (Hn Ho) as (_ & [-> | ->]); [now left | now right].
  - destruct (outcome (refreshAnimationPlayers node w)) as [[]| | |] eqn:Eo.
    + destruct (Hd eq_refl) as (a & ts & _ & _ & _ & -> & _). reflexivity.
    + destruct Hn as (_ & [-> | ->]); [discriminate | reflexivity..].
    + destruct Hn as (_ & [-> | ->]); [discriminate | reflexivity..].
    + destruct Hn as (_ & [-> | ->]); [discriminate | reflexivity..].
Qed.

(** ** The listener of the mutations *)

Lemma once_await c : preserves listening_once (await c).
Proof.
  intros w H. unfold await. destruct (answers w) as [|a rest]; trivial.
  now destruct (rejection a).
Qed.

Lemma once_update f :
  (forall c, isListeningToMutations (f c) = isListeningToMutations c) ->
  preserves listening_once (update f).
Proof.
  intros Hf w H. unfold listening_once, times_added in *. cbn.
  now rewrite Hf.
Qed.

Lemma once_on src name h :
  listener_eqb {| source := src; event := name; handler := h |}
    mutations_listener = false ->
  preserves listening_once (on src name h).
Proof.
  intros Hd w H. unfold listening_once, times_added in *. cbn.
  rewrite filter_app, length_app. cbn. rewrite Hd. cbn. now rewrite Nat.add_0_r.
Qed.

#[local] Hint Resolve once_await : kept.
#[local] Hint Extern 1 (preserves listening_once (update _)) =>
  apply once_update; intros ?; reflexivity : kept.
#[local] Hint Extern 1 (preserves listening_once (on _ _ _)) =>
  apply once_on; reflexivity : kept.

Lemma once_destroyAnimationPlayers :
  preserves listening_once destroyAnimationPlayers.
Proof. unfold destroyAnimationPlayers. unfold self, trait, on_front. kept. Qed.

Lemma once_refreshAnimationPlayers node :
  preserves listening_once (refreshAnimationPlayers node).
Proof.
  intros w H.
  destruct (refreshAnimationPlayers_result node w) as (_ & Hd & Hn).
  unfold listening_once, times_added in *.
  destruct (outcome (refreshAnimationPlayers node w)) as [[]| | |] eqn:Eo;
    try (destruct Hn as (-> & [-> | ->]); [discriminate | exact H..]).
  destruct (Hd eq_refl) as (a & ts & _ & _ & _ & -> & ->).
  rewrite filter_app, length_app, H. cbn.
  destruct (isListeningToMutations (this w)); cbn; trivial.
  now destruct (trait_of ts "hasMutationEvents").
Qed.

#[local] Hint Resolve once_destroyAnimationPlayers
  once_refreshAnimationPlayers : kept.

Lemma once_onNewNodeFront : preserves listening_once onNewNodeFront.
Proof. unfold onNewNodeFront. unfold self. kept. Qed.

#[local] Hint Resolve once_onNewNodeFront : kept.

Lemma once_fire src name changes :
  preserves listening_once (fire src name changes).
Proof.
  unfold fire, call_handler, onPanelVisibilityChange, onAnimationMutations.
  unfold self. kept.
Qed.

Lemma once_initialize : preserves listening_once initialize.
Proof.
  unfold initialize, getServerTraits, startListeners, on_sidebar, self. kept.
Qed.

(** The flag [isListeningToMutations] does its job: from a new controller
    on, whatever is selected, shown, hidden or mutated, and however often
    the players are asked for again, the listener of "mutations" is added
    once at most, and is there exactly when the flag says so. *)
Theorem mutations_listener_is_added_once (node : JsRef) (src : Source)
    (name : string) (changes : list Change) :
  (forall p a,
      listening_once {| this := AnimationsController; panel := p;
                        listeners := []; answers := a |})
  /\ preserves listening_once initialize
  /\ preserves listening_once (refreshAnimationPlayers node)
  /\ preserves listening_once destroyAnimationPlayers
  /\ preserves listening_once onNewNodeFront
  /\ preserves listening_once (fire src name changes).
Proof.
  split; [reflexivity|].
  auto using once_initialize, once_refreshAnimationPlayers,
    once_destroyAnimationPlayers, once_onNewNodeFront, once_fire.
Qed.

(** ** A new node is selected *)

Lemma remote_await c : emits is_remote (await c).
Proof. apply emits_await; cbn; trivial. Qed.

#[local] Hint Resolve remote_await : events.

Lemma remote_destroyAnimationPlayers : emits is_remote destroyAnimationPlayers.
Proof. unfold destroyAnimationPlayers. unfold_steps. events. Qed.

#[local] Hint Resolve remote_destroyAnimationPlayers : events.

Lemma remote_refreshAnimationPlayers node :
  emits is_remote (refreshAnimationPlayers node).
Proof. unfold refreshAnimationPlayers. unfold_steps. events. Qed.

Lemma ref_eqb_refl (a : JsRef) : ref_eqb a a = true.
Proof. destruct a; cbn; trivial. apply Nat.eqb_refl. Qed.

Lemma remote_not_local (tr : list Event) :
  (forall e, In e tr -> is_remote e) ->
  ~ In EvUpdated tr /\ forall name l, ~ In (EvEmit name l) tr.
Proof.
  intros H. split; [|intros name l]; intros Hin; exact (H _ Hin).
Qed.

(** When the panel is shown and another node is selected, [onNewNodeFront]
    tells the inspector that it is updating, and says that it is done, after
    the players-updated event, exactly when it returns: a failure on the
    way leaves the inspector waiting, and announces no player.  For a
    connected element the node is recorded before the players are asked
    for, so that asking again for the same node does nothing, even after a
    failure.  For another selection the players are destroyed, none is
    announced, and the node of the controller stays the one before. *)
Theorem onNewNodeFront_says_when_it_is_done (w : World) :
  isPanelVisible (panel w) = true ->
  ref_eqb (nodeFront (this w)) (selection_nodeFront (panel w)) = false ->
  let r := onNewNodeFront w in
  let element :=
    selection_isConnected (panel w) && selection_isElementNode (panel w) in
  (exists rest, trace r = EvUpdating "animationscontroller" :: rest)
  /\ (outcome r = Done tt ->
      exists pre,
        trace r
        = pre ++ [EvEmit PLAYERS_UPDATED_EVENT
                    (if element
                     then Some (animationPlayers (this (world r)))
                     else None);
                  EvUpdated]
        /\ (element = false -> animationPlayers (this (world r)) = []))
  /\ (outcome r <> Done tt ->
      ~ In EvUpdated (trace r)
      /\ forall name l, ~ In (EvEmit name l) (trace r))
  /\ nodeFront (this (world r))
     = (if element then selection_nodeFront (panel w)
        else nodeFront (this w))
  /\ (element = true -> onNewNodeFront (world r) = idle (world r)).
Proof.
  intros Hv Hn. cbv zeta.
  assert (Eq : onNewNodeFront w =
    prefixed [EvUpdating "animationscontroller"]
      (if negb (selection_isConnected (panel w))
          || negb (selection_isElementNode (panel w))
       then (destroyAnimationPlayers ;;
             emit (EvEmit PLAYERS_UPDATED_EVENT None) ;;
             emit EvUpdated) w
       else (update (set_nodeFront (selection_nodeFront (panel w))) ;;
             c <- self ;;
             refreshAnimationPlayers (nodeFront c) ;;
             c <- self ;;
             emit (EvEmit PLAYERS_UPDATED_EVENT (Some (animationPlayers c))) ;;
             emit EvUpdated) w)).
  { unfold onNewNodeFront. rewrite bind_get, Hv, Hn. cbn [negb orb].
    rewrite bind_emit. now destruct (negb _ || negb _). }
  rewrite Eq. clear Eq.
  assert (Other :
    let r := prefixed [EvUpdating "animationscontroller"]
               ((destroyAnimationPlayers ;;
                 emit (EvEmit PLAYERS_UPDATED_EVENT None) ;;
                 emit EvUpdated) w) in
    (exists rest, trace r = EvUpdating "animationscontroller" :: rest)
    /\ (outcome r = Done tt ->
        exists pre,
          trace r = pre ++ [EvEmit PLAYERS_UPDATED_EVENT None; EvUpdated]
          /\ (false = false -> animationPlayers (this (world r)) = []))
    /\ (outcome r <> Done tt ->
        ~ In EvUpdated (trace r)
        /\ forall name l, ~ In (EvEmit name l) (trace r))
    /\ nodeFront (this (world r)) = nodeFront (this w)
    /\ (false = true -> onNewNodeFront (world r) = idle (world r))).
  { cbv zeta.
    pose proof (destroyAnimationPlayers_result w) as H. cbv zeta in H.
    pose proof (remote_destroyAnimationPlayers w) as He.
    destruct (destroyAnimationPlayers w) as [o tr w1] eqn:E1.
    rewrite (bind_run _ _ _ _ _ _ E1). simpl_result.
    destruct H as (_ & _ & Hd & Hk).
    assert (Hu : ~ In EvUpdated (EvUpdating "animationscontroller" :: tr)
                 /\ forall name l,
                      ~ In (EvEmit name l)
                           (EvUpdating "animationscontroller" :: tr)).
    { apply remote_not_local in He. destruct He as (H1 & H2).
      split; [|intros name l]; intros [Hin | Hin];
        try discriminate Hin; [now apply H1 | now apply (H2 name l)]. }
    destruct o as [[]|x| |]; simpl_result;
      try (split; [now eexists|]; split; [discriminate|];
           split; [intros _; exact Hu|]; split; [|discriminate];
           now rewrite Hk by discriminate).
    destruct (Hd eq_refl) as (Ht & _). rewrite bind_emit. simpl_result.
    rewrite Ht.
    split; [now eexists|]. split; [|split; [intros N; now elim N|]].
    - intros _. exists (EvUpdating "animationscontroller" :: tr).
      split; [reflexivity | intros _; reflexivity].
    - split; [reflexivity | discriminate]. }
  destruct (selection_isConnected (panel w));
    destruct (selection_isElementNode (panel w));
    cbn [negb orb andb]; try exact Other.
  clear Other. rewrite bind_update, bind_self. simpl_result.
  match goal with
  | |- context [bind (refreshAnimationPlayers ?n) ?k ?w'] =>
      pose proof (refreshAnimationPlayers_result n w') as H;
      pose proof (remote_refreshAnimationPlayers n w') as He;
      destruct (refreshAnimationPlayers n w') as [o tr w1] eqn:E1;
      rewrite (bind_run _ _ _ _ _ _ E1)
  end.
  cbv zeta in H. simpl_result. destruct H as (Hp & Hd & Hk).
  assert (Hu : ~ In EvUpdated (EvUpdating "animationscontroller" :: tr)
               /\ forall name l,
                    ~ In (EvEmit name l)
                         (EvUpdating "animationscontroller" :: tr)).
  { apply remote_not_local in He. destruct He as (H1 & H2).
    split; [|intros name l]; intros [Hin | Hin];
      try discriminate Hin; [now apply H1 | now apply (H2 name l)]. }
  assert (Again : forall w',
    panel w' = panel w ->
    nodeFront (this w') = selection_nodeFront (panel w) ->
    onNewNodeFront w' = idle w').
  { intros w' Ep En. unfold onNewNodeFront.
    rewrite bind_get, Ep, En, ref_eqb_refl, orb_true_r. reflexivity. }
  destruct o as [[]|x| |]; simpl_result.
  2,3,4:
    (split; [now eexists|]; split; [discriminate|];
     split; [intros _; exact Hu|];
     destruct (Hk ltac:(discriminate)) as (_ & [E | E]);
     rewrite E; (split; [reflexivity|]); intros _;
     (apply Again; [exact Hp | now rewrite E])).
  destruct (Hd eq_refl) as (a & ts & _ & _ & _ & Et & _).
  rewrite bind_self, bind_emit. simpl_result.
  split; [now eexists|]. split; [|split; [intros N; now elim N|]].
  - intros _. exists (EvUpdating "animationscontroller" :: tr).
    split; [reflexivity | discriminate].
  - rewrite Et. split; [reflexivity|]. intros _.
    apply Again; [exact Hp | now rewrite Et].
Qed.

(** ** The panel is hidden *)

Lemma prefixed_nil {A} (r : Result World Event string A) : prefixed [] r = r.
Proof. now destruct r. Qed.

Lemma for_of_idle {A} (l : list A) (body : A -> Method unit) w :
  (forall x, In x l -> body x w = idle w) -> for_of l body w = idle w.
Proof.
  induction l as [|x l IH]; intros H; cbn [for_of]; [reflexivity|].
  rewrite (bind_run _ _ _ _ _ _ (H x (or_introl eq_refl))), prefixed_nil.
  apply IH. intros y Hy. apply H. now right.
Qed.

(** While the panel is hidden, what the selection, the sidebar and the
    toolbox fire goes unanswered: no remote call, no event, nothing
    changed.  Only the mutations of the front are still followed. *)
Theorem hidden_panel_ignores_the_inspector (w : World) (src : Source)
    (name : string) (changes : list Change) :
  only_controller_listeners w ->
  isPanelVisible (panel w) = false ->
  src <> front_events ->
  fire src name changes w = idle w.
Proof.
  intros Hw Hv Hs. unfold fire. rewrite bind_get. apply for_of_idle.
  intros l Hl. apply filter_In in Hl. destruct Hl as (Hl & Hs').
  apply listens_to_eq in Hs'. destruct Hs' as (<- & _).
  apply Hw in Hl. cbn in Hl.
  destruct Hl as [<- | [<- | [<- | [<- | []]]]]; cbn [handler call_handler];
    try (now elim Hs);
    unfold detach, onPanelVisibilityChange, onNewNodeFront;
    rewrite bind_get, Hv; reflexivity.
Qed.

(** ** Starting and stopping the listeners *)

Lemma handler_eqb_eq (a b : Handler) : handler_eqb a b = true <-> a = b.
Proof. destruct a, b; cbn; split; congruence. Qed.

Lemma listener_eqb_eq (a b : Listener) : listener_eqb a b = true <-> a = b.
Proof.
  unfold listener_eqb.
  rewrite andb_true_iff, listens_to_eq, handler_eqb_eq.
  destruct a, b; cbn. split; [intros ((-> & ->) & ->) | intros [= -> -> ->]];
    auto.
Qed.

Lemma In_without (x l : Listener) (ls : list Listener) :
  In x (without l ls) <-> In x ls /\ x <> l.
Proof.
  unfold without. rewrite filter_In, negb_true_iff.
  rewrite <- (listener_eqb_eq x l). now destruct (listener_eqb x l).
Qed.

Lemma without_absent (l : Listener) (ls : list Listener) :
  ~ In l ls -> without l ls = ls.
Proof.
  intros H. unfold without. induction ls as [|x ls IH]; cbn; trivial.
  destruct (listener_eqb x l) eqn:E.
  - apply listener_eqb_eq in E. subst x. elim H. now left.
  - cbn. f_equal. apply IH. intros Hin. apply H. now right.
Qed.

Lemma without_app (l : Listener) (ls ls' : list Listener) :
  without l (ls ++ ls') = without l ls ++ without l ls'.
Proof. apply filter_app. Qed.

Lemma stopListeners_eq w :
  currentTabID (panel w) <> None ->
  (isListeningToMutations (this w) = true -> animationsFront (this w) = true) ->
  stopListeners w =
  Build_Result (Done tt) []
    {| this := this w; panel := panel w; listeners := stopped w;
       answers := answers w |}.
Proof.
  intros Hs Hf. unfold stopListeners, stopped.
  rewrite bind_off, bind_on_sidebar. simpl_result.
  destruct (currentTabID (panel w)); [clear Hs | now elim Hs].
  rewrite bind_off, bind_off, bind_self. simpl_result. cbn [fold_left started_listeners].
  destruct (isListeningToMutations (this w)); cbn [when]; [|reflexivity].
  rewrite on_front_eq. simpl_result. rewrite (Hf eq_refl). reflexivity.
Qed.

(** With a sidebar, [stopListeners] returns at once and removes from the
    table the three listeners of [startListeners], and the listener of the
    mutations when the controller has one; the other listeners stay, and the
    controller is not touched, its flag included.  On a controller that
    does not yet listen to mutations, it undoes [startListeners]. *)
Theorem stopListeners_removes_the_listeners (w : World) :
  currentTabID (panel w) <> None ->
  (isListeningToMutations (this w) = true -> animationsFront (this w) = true) ->
  let r := stopListeners w in
  outcome r = Done tt /\ trace r = [] /\ this (world r) = this w
  /\ (forall l,
        In l (listeners (world r))
        <-> In l (listeners w) /\ ~ In l started_listeners
            /\ (isListeningToMutations (this w) = true ->
                l <> mutations_listener))
  /\ (isListeningToMutations (this w) = false ->
      (forall l, In l (listeners w) -> ~ In l started_listeners) ->
      outcome (startListeners w) = Done tt
      /\ world (stopListeners (world (startListeners w))) = w).
Proof.
  intros Hs Hf. cbv zeta. rewrite (stopListeners_eq w Hs Hf). simpl_result.
  split; [reflexivity|]. split; [reflexivity|]. split; [reflexivity|].
  split.
  - intros l. unfold stopped. cbn [fold_left started_listeners].
    destruct (isListeningToMutations (this w)); rewrite !In_without;
      cbn [In].
    + split.
      * intros ((((H1 & H2) & H3) & H4) & H5).
        repeat split; trivial.
        intros [E | [E | [E | []]]]; symmetry in E; contradiction.
      * intros (H1 & H2 & H3). repeat split; auto;
          intros E; apply H2; subst l; cbn; auto 6.
    + split.
      * intros (((H1 & H2) & H3) & H4).
        repeat split; trivial; [|discriminate].
        intros [E | [E | [E | []]]]; symmetry in E; contradiction.
      * intros (H1 & H2 & H3). repeat split; auto;
          intros E; apply H2; subst l; cbn; auto 6.
  - intros El Hnew.
    assert (Es : startListeners w =
      Build_Result (Done tt) []
        {| this := this w; panel := panel w;
           listeners := listeners w ++ started_listeners;
           answers := answers w |}).
    { unfold startListeners. rewrite bind_on, bind_on_sidebar. simpl_result.
      destruct (currentTabID (panel w)); [|now elim Hs].
      rewrite bind_on. unfold on. rewrite bind_get. cbn.
      now rewrite <- !app_assoc. }
    rewrite Es. simpl_result. split; [reflexivity|].
    rewrite stopListeners_eq
      by (simpl_result; trivial; rewrite El; discriminate).
    unfold stopped. simpl_result. rewrite El.
    cbn [fold_left started_listeners].
    rewrite !without_app.
    rewrite !(without_absent _ (listeners w));
      try (intros Hin; apply (Hnew _ Hin); cbn; tauto).
    cbn. rewrite app_nil_r. now destruct w.
Qed.

(** ** A life of the controller *)

Section UntilDone.
Context {W E X : Type}.

Lemma keeps_bind {A B} (P : W -> Prop) (m : t W E X A)
    (k : A -> t W E X B) :
  preserves P m -> (forall a, keeps_until_done P (k a)) ->
  keeps_until_done P (bind m k).
Proof.
  intros Hm Hk w H. rewrite world_bind, outcome_bind.
  specialize (Hm w H).
  destruct (outcome (m w)) as [a| | |]; [now apply Hk | now left..].
Qed.

Lemma keeps_preserves {A} (P : W -> Prop) (m : t W E X A) :
  preserves P m -> keeps_until_done P m.
Proof. intros Hm w H. left. now apply Hm. Qed.

Lemma keeps_done {A} (P : W -> Prop) (m : t W E X A) :
  (forall w, exists a, outcome (m w) = Done a) -> keeps_until_done P m.
Proof. intros Hm w _. right. apply Hm. Qed.

End UntilDone.

Lemma initializing_await c : preserves initializing (await c).
Proof.
  intros w H. unfold await. destruct (answers w) as [|a rest]; trivial.
  now destruct (rejection a).
Qed.

Lemma initializing_update f :
  (forall c, initialized (f c) = initialized c) ->
  preserves initializing (update f).
Proof. intros Hf w H. unfold initializing in *. cbn. now rewrite Hf. Qed.

Lemma initializing_on src name h : preserves initializing (on src name h).
Proof. intros w H. exact H. Qed.

#[local] Hint Resolve initializing_await initializing_on : kept.
#[local] Hint Extern 1 (preserves initializing (update _)) =>
  apply initializing_update; intros ?; reflexivity : kept.

Lemma initializing_getServerTraits : preserves initializing getServerTraits.
Proof. unfold getServerTraits. kept. Qed.

Lemma initializing_startListeners : preserves initializing startListeners.
Proof. unfold startListeners, on_sidebar. kept. Qed.

Lemma initializing_onNewNodeFront : preserves initializing onNewNodeFront.
Proof.
  unfold onNewNodeFront, refreshAnimationPlayers, destroyAnimationPlayers.
  unfold self, trait, on_front. kept.
Qed.

#[local] Hint Resolve initializing_getServerTraits
  initializing_startListeners initializing_onNewNodeFront : kept.

(** An initialization that throws is never over.  What [initialize]
    throws - a capability that cannot be asked for, a missing sidebar, the
    players that cannot be had - leaves its deferred pending, neither
    resolved nor rejected; so every later [initialize] waits for ever, with
    no remote call and no other try. *)
Theorem failed_initialize_is_never_retried (w : World) (x : string) :
  initialized (this w) = None ->
  outcome (initialize w) = Threw x ->
  let w' := world (initialize w) in
  initializing w' /\ initialize w' = Build_Result Waiting [] w'.
Proof.
  intros Hi Ho. cbv zeta.
  assert (Hp : initializing (world (initialize w))).
  { revert Ho. unfold initialize. rewrite bind_self, Hi, bind_update.
    match goal with
    | |- outcome (?m ?w1) = _ -> _ =>
        assert (K : keeps_until_done initializing m)
    end.
    { apply keeps_bind; [kept | intros _].
      apply keeps_bind; [kept | intros traits].
      apply keeps_bind; [kept | intros _].
      apply keeps_bind; [unfold self; kept | intros c].
      destruct (destroyed c).
      - apply keeps_preserves. kept.
      - apply keeps_bind; [kept | intros _].
        apply keeps_bind; [kept | intros _].
        apply keeps_done. intros w1. now exists tt. }
    intros Ho. destruct (K _ (eq_refl : initializing
      {| this := set_initialized (Some false) (this w); panel := panel w;
         listeners := listeners w; answers := answers w |}))
      as [H | (a & Ha)]; [exact H | congruence]. }
  split; [exact Hp|].
  unfold initialize at 1. rewrite bind_self. unfold initializing in Hp.
  now rewrite Hp.
Qed.

Lemma destroying_await b c : preserves (destroying b) (await c).
Proof.
  intros w H. unfold await. destruct (answers w) as [|a rest]; trivial.
  now destruct (rejection a).
Qed.

Lemma destroying_update b f :
  (forall c, destroyed (f c) = destroyed c) ->
  (forall c, animationsFront (f c) = animationsFront c) ->
  preserves (destroying b) (update f).
Proof.
  intros Hf Hg w H. unfold destroying in *. cbn. now rewrite Hf, Hg.
Qed.

Lemma destroying_off b src name h : preserves (destroying b) (off src name h).
Proof. intros w H. exact H. Qed.

#[local] Hint Resolve destroying_await destroying_off : kept.
#[local] Hint Extern 1 (preserves (destroying _) (update _)) =>
  apply destroying_update; intros ?; reflexivity : kept.

Lemma destroying_stopListeners b : preserves (destroying b) stopListeners.
Proof. unfold stopListeners, on_sidebar, on_front, self. kept. Qed.

Lemma destroying_destroyAnimationPlayers b :
  preserves (destroying b) destroyAnimationPlayers.
Proof. unfold destroyAnimationPlayers, trait, on_front, self. kept. Qed.

#[local] Hint Resolve destroying_stopListeners
  destroying_destroyAnimationPlayers : kept.

Lemma begun_await c :
  preserves (fun w => initialized (this w) <> None) (await c).
Proof.
  intros w H. unfold await. destruct (answers w) as [|a rest]; trivial.
  now destruct (rejection a).
Qed.

Lemma begun_update f :
  (forall c, initialized (f c) = initialized c) ->
  preserves (fun w => initialized (this w) <> None) (update f).
Proof. intros Hf w H. cbn. now rewrite Hf. Qed.

Lemma begun_off src name h :
  preserves (fun w => initialized (this w) <> None) (off src name h).
Proof. intros w H. exact H. Qed.

#[local] Hint Resolve begun_await begun_off : kept.
#[local] Hint Extern 1 (preserves _ (update _)) =>
  apply begun_update; intros ?; reflexivity : kept.

(** A destruction that throws is never over either.  When [destroy]
    throws - on a player that cannot be released, say - its deferred
    stays pending, the controller keeps its front, which is not destroyed,
    and every later [destroy] waits for ever. *)
Theorem failed_destroy_is_never_retried (w : World) (x : string) :
  initialized (this w) <> None ->
  destroyed (this w) = None ->
  outcome (destroy w) = Threw x ->
  let w' := world (destroy w) in
  destroying (animationsFront (this w)) w'
  /\ ~ In EvFrontDestroyed (trace (destroy w))
  /\ destroy w' = Build_Result Waiting [] w'.
Proof.
  intros Hi Hd Ho. cbv zeta.
  assert (Eq : destroy w =
    (stopListeners ;;
     destroyAnimationPlayers ;;
     update (set_nodeFront Null) ;;
     c <- self ;;
     when (animationsFront c)
       (emit EvFrontDestroyed ;; update (set_animationsFront false)) ;;
     update (set_destroyed (Some true)))
      {| this := set_destroyed (Some false) (this w); panel := panel w;
         listeners := listeners w; answers := answers w |}).
  { unfold destroy. rewrite bind_self.
    destruct (initialized (this w)); [|now elim Hi].
    now rewrite Hd, bind_update. }
  assert (Hp : destroying (animationsFront (this w)) (world (destroy w))).
  { revert Ho. rewrite Eq.
    match goal with
    | |- outcome (?m ?w1) = _ -> _ =>
        assert (K : keeps_until_done (destroying (animationsFront (this w))) m)
    end.
    { apply keeps_bind; [kept | intros _].
      apply keeps_bind; [kept | intros _].
      apply keeps_bind; [kept | intros _].
      apply keeps_bind; [unfold self; kept | intros c].
      apply keeps_done. intros w1. exists tt.
      now destruct (animationsFront c). }
    intros Ho. destruct (K _ (conj eq_refl eq_refl : destroying _
      {| this := set_destroyed (Some false) (this w); panel := panel w;
         listeners := listeners w; answers := answers w |}))
      as [H | (a & Ha)]; [exact H | congruence]. }
  split; [exact Hp|]. split.
  - revert Ho. rewrite Eq.
    match goal with |- outcome (_ ?w1) = _ -> _ => generalize w1 end.
    intros w1. rewrite outcome_bind, trace_bind.
    pose proof (ltac:(unfold stopListeners; unfold_steps; events)
                : emits (fun e => e <> EvFrontDestroyed) stopListeners) as Hs.
    pose proof (ltac:(unfold destroyAnimationPlayers; unfold_steps; events;
                      apply emits_await; intros; discriminate)
                : emits (fun e => e <> EvFrontDestroyed)
                    destroyAnimationPlayers) as Hd'.
    intros Ho Hin. apply in_app_or in Hin.
    destruct Hin as [Hin | Hin]; [now apply (Hs _ _ Hin)|].
    destruct (outcome (stopListeners w1)) as [[]| | |]; try contradiction.
    revert Ho Hin. generalize (world (stopListeners w1)). intros w2.
    rewrite outcome_bind, trace_bind. intros Ho Hin.
    apply in_app_or in Hin.
    destruct Hin as [Hin | Hin]; [now apply (Hd' _ _ Hin)|].
    destruct (outcome (destroyAnimationPlayers w2)) as [[]| | |];
      try contradiction.
    revert Ho. rewrite bind_update, bind_self, bind_when.
    cbn.
    destruct (animationsFront (this (world (destroyAnimationPlayers w2))));
      discriminate.
  - unfold destroy at 1. rewrite bind_self.
    destruct Hp as (Hp & _). rewrite Hp.
    assert (Hi' : initialized (this (world (destroy w))) <> None).
    { rewrite Eq.
      assert (K : preserves (fun w => initialized (this w) <> None)
        (stopListeners ;;
         destroyAnimationPlayers ;;
         update (set_nodeFront Null) ;;
         c <- self ;;
         when (animationsFront c)
           (emit EvFrontDestroyed ;; update (set_animationsFront false)) ;;
         update (set_destroyed (Some true)))).
      { unfold stopListeners, destroyAnimationPlayers.
        unfold self, trait, on_front, on_sidebar. kept. }
      now apply K. }
    now destruct (initialized (this (world (destroy w)))).
Qed.

Lemma stopListeners_done w :
  outcome (stopListeners w) = Done tt ->
  currentTabID (panel w) <> None
  /\ (isListeningToMutations (this w) = true ->
      animationsFront (this w) = true).
Proof.
  unfold stopListeners. rewrite bind_off, bind_on_sidebar. simpl_result.
  destruct (currentTabID (panel w)); [|discriminate].
  rewrite bind_off, bind_off, bind_self. simpl_result.
  destruct (isListeningToMutations (this w)); cbn [when].
  - rewrite on_front_eq. simpl_result.
    destruct (animationsFront (this w)); [|discriminate].
    intros _. split; [discriminate | trivial].
  - intros _. split; discriminate.
Qed.

(** A destruction that succeeds leaves nothing behind: the listeners of the
    controller are removed, the server is told to stop the updates when it
    can, every player is released, in the order of the list, the list is
    emptied, the node is forgotten, the front is destroyed when there is
    one, and a second [destroy] does nothing. *)
Theorem destroy_leaves_nothing_behind (w : World) :
  initialized (this w) <> None ->
  destroyed (this w) = None ->
  outcome (destroy w) = Done tt ->
  let r := destroy w in
  this (world r) = destroyed_controller (this w)
  /\ listeners (world r) = stopped w
  /\ (exists ts,
        traits (this w) = Some ts
        /\ calls (trace r)
           = (if trait_of ts "hasMutationEvents"
              then [animationsFront_stopAnimationPlayerUpdates] else [])
             ++ map player_release (animationPlayers (this w)))
  /\ (In EvFrontDestroyed (trace r) <-> animationsFront (this w) = true)
  /\ destroy (world r) = idle (world r).
Proof.
  intros Hi Hd Ho. cbv zeta.
  assert (Eq : destroy w =
    (stopListeners ;;
     destroyAnimationPlayers ;;
     update (set_nodeFront Null) ;;
     c <- self ;;
     when (animationsFront c)
       (emit EvFrontDestroyed ;; update (set_animationsFront false)) ;;
     update (set_destroyed (Some true)))
      {| this := set_destroyed (Some false) (this w); panel := panel w;
         listeners := listeners w; answers := answers w |}).
  { unfold destroy. rewrite bind_self.
    destruct (initialized (this w)); [|now elim Hi].
    now rewrite Hd, bind_update. }
  assert (Again : forall w',
    this w' = destroyed_controller (this w) -> destroy w' = idle w').
  { intros w' E. unfold destroy. rewrite bind_self, E. cbn.
    now destruct (initialized (this w)). }
  rewrite Eq in Ho |- *. clear Eq.
  set (w1 := {| this := set_destroyed (Some false) (this w);
                panel := panel w; listeners := listeners w;
                answers := answers w |}) in *.
  destruct (stopListeners w1) as [o tr w2] eqn:Es.
  rewrite (bind_run _ _ _ _ _ _ Es) in Ho |- *.
  destruct o as [[]|x| |]; try discriminate Ho.
  destruct (stopListeners_done w1) as (Hs & Hf); [now rewrite Es|].
  rewrite (stopListeners_eq w1 Hs Hf) in Es. injection Es as <- <-.
  rewrite prefixed_nil in Ho |- *.
  match goal with
  | |- context [bind destroyAnimationPlayers ?k ?w2] =>
      pose proof (destroyAnimationPlayers_result w2) as H;
      pose proof (remote_destroyAnimationPlayers w2) as He;
      destruct (destroyAnimationPlayers w2) as [o tr w3] eqn:Ed;
      rewrite (bind_run _ _ _ _ _ _ Ed) in Ho |- *
  end.
  cbv zeta in H. simpl_result. destruct H as (_ & Hl & Hdone & _).
  destruct o as [[]|x| |]; try discriminate Ho.
  destruct (Hdone eq_refl) as (Ht & ts & Ets & Ec). clear Hdone Ho.
  assert (Hno : ~ In EvFrontDestroyed tr)
    by (intros Hin; exact (He _ Hin)).
  rewrite bind_update, bind_self, bind_when. simpl_result.
  cbn [set_nodeFront animationsFront]. rewrite Ht.
  cbn [set_animationPlayers set_destroyed animationsFront].
  subst w1. cbn [this set_destroyed traits animationPlayers] in Ets, Ec.
  destruct (animationsFront (this w)) eqn:Ef.
  - rewrite bind_bind, bind_emit, bind_update, update_eq. simpl_result.
    split; [reflexivity|]. split; [exact Hl|]. split; [|split].
    + exists ts. split; trivial. rewrite calls_app, Ec. cbn.
      apply app_nil_r.
    + split; trivial. intros _. apply in_or_app. right. now left.
    + now apply Again.
  - rewrite update_eq. simpl_result.
    split; [|split; [exact Hl|split; [|split]]].
    + unfold destroyed_controller, set_destroyed, set_nodeFront,
        set_animationPlayers. cbn. now rewrite Ef.
    + exists ts. split; trivial. rewrite app_nil_r. exact Ec.
    + rewrite app_nil_r. split; [intros Hin; now elim Hno | discriminate].
    + apply Again.
      unfold destroyed_controller, set_destroyed, set_nodeFront,
        set_animationPlayers. cbn. now rewrite Ef.
Qed.

(** ** As far as the answers let it *)

Lemma awaited_cons (n : nat) (a : Answer) (rest : list Answer) :
  rejection a = None -> awaited (S n) (a :: rest) = awaited n rest.
Proof. intros E. unfold awaited. cbn [accepted]. rewrite E. reflexivity. Qed.

Lemma awaited_rejected (n : nat) (a : Answer) (rest : list Answer) e :
  rejection a = Some e -> awaited (S n) (a :: rest) = Threw e.
Proof.
  intros E. unfold awaited. cbn [accepted]. rewrite E. cbn. now rewrite E.
Qed.

Lemma awaited_done (n : nat) (l : list Answer) :
  awaited n l = Done tt <-> (n <= accepted l)%nat.
Proof.
  unfold awaited. destruct (Nat.leb n (accepted l)) eqn:E.
  - apply Nat.leb_le in E. tauto.
  - apply Nat.leb_gt in E. split; [|lia].
    destruct (nth_error l (accepted l)) as [a|]; [|discriminate].
    destruct (rejection a); discriminate.
Qed.

(** One call that is awaited. *)
Lemma one_call (c : RemoteCall) w :
  let r := (await c ;; ret tt) w in
  trace r = EvCall c :: match answers w with
                        | [] => []
                        | a :: _ => [EvSettled a]
                        end
  /\ outcome r = awaited 1 (answers w)
  /\ this (world r) = this w.
Proof.
  cbv zeta. rewrite bind_await.
  destruct (answers w) as [|a rest]; [now repeat split|].
  destruct (rejection a) as [e|] eqn:Er; simpl_result.
  - rewrite (awaited_rejected _ _ _ _ Er). now repeat split.
  - rewrite (awaited_cons _ _ _ Er). now repeat split.
Qed.

(** ** The capabilities of the server *)

Lemma find_filter_other (ts : Traits) (n m : string) :
  String.eqb n m = false ->
  find (fun kv => String.eqb (fst kv) m)
       (List.filter (fun kv => negb (String.eqb (fst kv) n)) ts)
  = find (fun kv => String.eqb (fst kv) m) ts.
Proof.
  intros Hnm. induction ts as [|kv ts IH]; cbn; trivial.
  destruct (String.eqb (fst kv) n) eqn:En; cbn.
  - apply String.eqb_eq in En. rewrite En, Hnm. exact IH.
  - destruct (String.eqb (fst kv) m); trivial.
Qed.

(** [traits[n] = b] then [traits[m]]. *)
Lemma trait_of_set_trait (ts : Traits) (n m : string) (b : bool) :
  trait_of (set_trait ts n b) m
  = if String.eqb n m then b else trait_of ts m.
Proof.
  unfold trait_of, set_trait. cbn [find fst].
  destruct (String.eqb n m) eqn:Hnm; trivial.
  now rewrite find_filter_other.
Qed.

(** The call that asks for one entry of the table. *)
Lemma getServerTraits_loop_done (cfg : list (string * (string * string))) :
  forall acc w ts,
    NoDup (map fst cfg) ->
    outcome (getServerTraits_loop cfg acc w) = Done ts ->
    calls (trace (getServerTraits_loop cfg acc w))
      = map (fun entry =>
               target_actorHasMethod (fst (snd entry)) (snd (snd entry))) cfg
    /\ (forall k name am,
          nth_error cfg k = Some (name, am) ->
          exists a,
            nth_error (answers w) k = Some a /\ rejection a = None
            /\ trait_of ts name = flag a)
    /\ (forall name, ~ In name (map fst cfg) ->
                     trait_of ts name = trait_of acc name)
    /\ this (world (getServerTraits_loop cfg acc w)) = this w.
Proof.
  induction cfg as [|[name [actor method]] cfg IH]; intros acc w ts Hn;
    cbn [getServerTraits_loop].
  - intros [= <-]. repeat split; trivial.
    intros [|k] name am E; discriminate E.
  - rewrite bind_await.
    destruct (answers w) as [|a rest]; [discriminate|].
    destruct (rejection a) eqn:Er; [discriminate|].
    cbv zeta. simpl_result. intros Ho.
    inversion Hn as [|? ? Hnotin Hn']; subst.
    match goal with
    | |- context [getServerTraits_loop cfg ?acc' ?w'] =>
        destruct (IH acc' w' ts Hn' Ho) as (Hc & Hk & Hrest & Ht)
    end.
    cbn [calls map fst snd]. rewrite Hc.
    split; [reflexivity|]. split; [|split].
    + intros [|k] name' am E; cbn [nth_error] in E |- *.
      * injection E as <- <-. exists a. repeat split; trivial.
        rewrite (Hrest name Hnotin), trait_of_set_trait.
        now rewrite String.eqb_refl.
      * exact (Hk k name' am E).
    + intros name' Hnot. cbn [map fst In] in Hnot.
      rewrite Hrest by tauto. rewrite trait_of_set_trait.
      destruct (String.eqb name name') eqn:E; trivial.
      apply String.eqb_eq in E. tauto.
    + exact Ht.
Qed.

Lemma getServerTraits_loop_threw (cfg : list (string * (string * string))) :
  forall acc w x,
    outcome (getServerTraits_loop cfg acc w) = Threw x ->
    exists pre a,
      trace (getServerTraits_loop cfg acc w) = pre ++ [EvSettled a]
      /\ rejection a = Some x.
Proof.
  induction cfg as [|[name [actor method]] cfg IH]; intros acc w x;
    cbn [getServerTraits_loop]; [discriminate|].
  rewrite bind_await.
  destruct (answers w) as [|a rest]; [discriminate|].
  destruct (rejection a) eqn:Er.
  - intros [= <-]. now exists [EvCall (target_actorHasMethod actor method)], a.
  - cbv zeta. simpl_result. intros Ho.
    destruct (IH _ _ _ Ho) as (pre & a' & -> & Ea).
    now exists (EvCall (target_actorHasMethod actor method)
                :: EvSettled a :: pre), a'.
Qed.

Lemma getServerTraits_loop_run (cfg : list (string * (string * string))) :
  forall acc w,
    let r := getServerTraits_loop cfg acc w in
    let k := accepted (answers w) in
    calls (trace r) = firstn (S k) (map question cfg)
    /\ ((List.length cfg <= k)%nat -> exists ts, outcome r = Done ts)
    /\ ((k < List.length cfg)%nat ->
        match nth_error (answers w) k with
        | Some a => exists e, rejection a = Some e /\ outcome r = Threw e
        | None => outcome r = Waiting
        end).
Proof.
  induction cfg as [|[name [actor method]] cfg IH]; intros acc w; cbv zeta;
    cbn [getServerTraits_loop].
  - cbn. split; [reflexivity|]. split; [now eexists | lia].
  - rewrite bind_await. cbn [map List.length].
    destruct (answers w) as [|a rest]; cbn [accepted].
    + split; [reflexivity|]. split; [lia | reflexivity].
    + destruct (rejection a) as [e|] eqn:Er.
      * split; [reflexivity|]. split; [lia|]. intros _. cbn.
        now exists e.
      * cbv zeta. simpl_result.
        match goal with
        | |- context [getServerTraits_loop cfg ?acc' ?w'] =>
            destruct (IH acc' w') as (Hc & Hd & Hf)
        end.
        simpl_result. cbn [calls firstn]. rewrite Hc.
        split; [reflexivity|]. split.
        -- intros Hl. apply Hd. lia.
        -- intros Hl. cbn [nth_error]. apply Hf. lia.
Qed.

(** [getServerTraits] asks the target for the nine methods of its table, in
    the order of the table, as far as the answers let it: it goes on while
    the answers are accepted.  With nine accepted answers it returns, and
    each capability is what the target answered for its method; a
    capability that is not in the table reads as false.  When an answer is
    rejected it throws that error right away and asks nothing more; when
    the answers run out it stays suspended on its last question.  It does
    not touch the controller. *)
Theorem getServerTraits_reads_each_capability (w : World) :
  let r := getServerTraits w in
  let k := accepted (answers w) in
  calls (trace r) = firstn (S k) (map question config)
  /\ ((List.length config <= k)%nat ->
      exists ts,
        outcome r = Done ts
        /\ (forall i name am,
              nth_error config i = Some (name, am) ->
              exists a,
                nth_error (answers w) i = Some a /\ rejection a = None
                /\ trait_of ts name = flag a)
        /\ (forall name, ~ In name (map fst config) ->
                         trait_of ts name = false))
  /\ ((k < List.length config)%nat ->
      match nth_error (answers w) k with
      | Some a => exists e, rejection a = Some e /\ outcome r = Threw e
      | None => outcome r = Waiting
      end)
  /\ (forall ts,
        outcome r = Done ts ->
        calls (trace r) = map question config
        /\ (forall i name am,
              nth_error config i = Some (name, am) ->
              exists a,
                nth_error (answers w) i = Some a /\ rejection a = None
                /\ trait_of ts name = flag a)
        /\ (forall name, ~ In name (map fst config) ->
                         trait_of ts name = false))
  /\ (forall x,
        outcome r = Threw x ->
        exists pre a,
          trace r = pre ++ [EvSettled a] /\ rejection a = Some x)
  /\ this (world r) = this w.
Proof.
  cbv zeta.
  assert (Hn : NoDup (map fst config)).
  { cbn. repeat constructor; cbn; intuition discriminate. }
  assert (Hdone : forall ts,
    outcome (getServerTraits w) = Done ts ->
    calls (trace (getServerTraits w)) = map question config
    /\ (forall i name am,
          nth_error config i = Some (name, am) ->
          exists a,
            nth_error (answers w) i = Some a /\ rejection a = None
            /\ trait_of ts name = flag a)
    /\ (forall name, ~ In name (map fst config) ->
                     trait_of ts name = false)).
  { intros ts Ho.
    destruct (getServerTraits_loop_done config [] w ts Hn Ho)
      as (Hc & Hk & Hrest & _).
    split; [exact Hc|]. split; [exact Hk|].
    intros name Hnot. now rewrite (Hrest name Hnot). }
  destruct (getServerTraits_loop_run config [] w) as (Hc & Hall & Hfail).
  split; [exact Hc|]. split; [|split; [exact Hfail|split; [exact Hdone|split]]].
  - intros Hl. destruct (Hall Hl) as (ts & Ho). exists ts.
    split; [exact Ho|]. now apply Hdone.
  - intros x. apply getServerTraits_loop_threw.
  - unfold getServerTraits.
    assert (K : preserves (fun w' => this w' = this w)
                  (getServerTraits_loop config [])).
    { kept; intros w' E; unfold await;
        destruct (answers w') as [|answer others]; trivial;
        now destruct (rejection answer). }
    now apply K.
Qed.

(** ** Playing and pausing *)

(** [toggleAll] never throws what the server rejects: without the
    capability it does nothing at all; with it, it makes the one call, and a
    rejection goes to the console, after which the method returns as if all
    were well. *)
Theorem toggleAll_logs_what_fails (w : World) (ts : Traits) :
  traits (this w) = Some ts ->
  animationsFront (this w) = true ->
  let r := toggleAll w in
  (trait_of ts "hasToggleAll" = false -> r = idle w)
  /\ (trait_of ts "hasToggleAll" = true ->
      calls (trace r) = [animationsFront_toggleAll]
      /\ (forall x, outcome r <> Threw x)
      /\ (forall a e,
            In (EvSettled a) (trace r) -> rejection a = Some e ->
            outcome r = Done tt /\ In (EvError e) (trace r)))
  /\ this (world r) = this w.
Proof.
  intros Et Ef. cbv zeta. unfold toggleAll. rewrite bind_trait, Et.
  destruct (trait_of ts "hasToggleAll"); cbn [negb].
  2:{ split; [reflexivity|]. split; [discriminate | reflexivity]. }
  rewrite on_front_eq, Ef.
  split; [discriminate|]. split; [intros _|].
  - unfold try_catch. rewrite bind_await.
    destruct (answers w) as [|a rest]; simpl_result.
    + split; [reflexivity|]. split; [discriminate|].
      intros a e [Hin | []]. discriminate Hin.
    + destruct (rejection a) as [e|] eqn:Er; simpl_result.
      * split; [reflexivity|]. split; [discriminate|].
        intros a' e' [Hin | [Hin | [Hin | []]]] Er'; try discriminate Hin.
        injection Hin as <-. split; [reflexivity|].
        right; right; left. congruence.
      * split; [reflexivity|]. split; [discriminate|].
        intros a' e' [Hin | [Hin | []]] Er'; try discriminate Hin.
        injection Hin as <-. congruence.
  - unfold try_catch. rewrite bind_await.
    destruct (answers w) as [|a rest]; simpl_result; trivial.
    now destruct (rejection a).
Qed.

Lemma playbackRate_fallback_run (rate : Z) (l : list Player) :
  forall w,
    let r := for_of l (fun animation =>
               await (player_setPlaybackRate animation rate) ;; ret tt) w in
    calls (trace r)
      = firstn (S (accepted (answers w))) (map (setPlaybackRate_call rate) l)
    /\ outcome r = awaited (List.length l) (answers w)
    /\ this (world r) = this w.
Proof.
  induction l as [|p l IH]; intros w; cbv zeta; cbn [for_of].
  - now repeat split.
  - rewrite bind_bind, bind_await. cbn [map List.length].
    destruct (answers w) as [|a rest]; [now repeat split|].
    destruct (rejection a) as [e|] eqn:Er.
    + rewrite (awaited_rejected _ _ _ _ Er). cbn [accepted]. rewrite Er.
      now repeat split.
    + rewrite (awaited_cons _ _ _ Er). cbn [accepted]. rewrite Er.
      cbv zeta. rewrite bind_ret.
      match goal with
      | |- context [for_of l ?body ?w'] =>
          destruct (IH w') as (Hc & Ho & Ht)
      end.
      simpl_result. cbn [calls firstn]. rewrite Hc, Ho. now repeat split.
Qed.

(** When the server can act on several players at once, the controller
    asks it once, with its whole list: [toggleCurrentAnimations],
    [setCurrentTimeAll] and [setPlaybackRateAll] each make the one call,
    return when it is accepted, throw what it is rejected with, and stay
    suspended when no answer comes.  [setPlaybackRateAll] otherwise sets
    the rate player by player, in the order of the list and as far as the
    answers let it, when the players can do that: it goes on while the
    answers are accepted, throws at the first rejected one, and returns
    after the last player; it does nothing when they cannot.  None of
    these changes the controller. *)
Theorem batch_methods_ask_the_server_once (w : World) (ts : Traits)
    (shouldPause : bool) (time rate : Z) :
  traits (this w) = Some ts ->
  animationsFront (this w) = true ->
  let l := animationPlayers (this w) in
  let answered :=
    match answers w with
    | [] => []
    | a :: _ => [EvSettled a]
    end in
  (trait_of ts "hasToggleSeveral" = true ->
     let r := toggleCurrentAnimations shouldPause w in
     trace r = EvCall (animationsFront_toggleSeveral l shouldPause) :: answered
     /\ outcome r = awaited 1 (answers w)
     /\ this (world r) = this w)
  /\ (trait_of ts "hasSetCurrentTimes" = true ->
      let r := setCurrentTimeAll time shouldPause w in
      trace r
      = EvCall (animationsFront_setCurrentTimes l time shouldPause)
          :: answered
      /\ outcome r = awaited 1 (answers w)
      /\ this (world r) = this w)
  /\ (trait_of ts "hasSetPlaybackRates" = true ->
      let r := setPlaybackRateAll rate w in
      trace r = EvCall (animationsFront_setPlaybackRates l rate) :: answered
      /\ outcome r = awaited 1 (answers w)
      /\ this (world r) = this w)
  /\ (trait_of ts "hasSetPlaybackRates" = false ->
      let r := setPlaybackRateAll rate w in
      (trait_of ts "hasSetPlaybackRate" = false -> r = idle w)
      /\ (trait_of ts "hasSetPlaybackRate" = true ->
          calls (trace r)
          = firstn (S (accepted (answers w)))
              (map (setPlaybackRate_call rate) l)
          /\ outcome r = awaited (List.length l) (answers w)
          /\ this (world r) = this w)).
Proof.
  intros Et Ef. cbv zeta.
  split; [|split; [|split]].
  - intros E. unfold toggleCurrentAnimations.
    rewrite bind_trait, Et, E, bind_self, on_front_eq, Ef. apply one_call.
  - intros E. unfold setCurrentTimeAll.
    rewrite bind_trait, Et, E, bind_self, on_front_eq, Ef. apply one_call.
  - intros E. unfold setPlaybackRateAll.
    rewrite bind_trait, Et, E, bind_self, on_front_eq, Ef. apply one_call.
  - intros E. unfold setPlaybackRateAll.
    rewrite bind_trait, Et, E, bind_self, bind_trait, Et.
    split; intros E'; rewrite E'; cbn [when]; [reflexivity|].
    apply playbackRate_fallback_run.
Qed.

(** ** Following the mutations *)

Lemma indexOf_bounds (l : list Player) (p : Player) :
  -1 <= indexOf l p < Z.of_nat (List.length l).
Proof.
  induction l as [|x l IH]; cbn [indexOf List.length]; [lia|].
  destruct (same_player x p); [lia|].
  destruct (indexOf l p <? 0) eqn:E; [lia|].
  apply Z.ltb_ge in E. lia.
Qed.

Lemma indexOf_present (l : list Player) (p : Player) :
  (exists x, In x l /\ same_player x p = true) -> 0 <= indexOf l p.
Proof.
  induction l as [|x l IH]; intros (y & Hin & Hy); [contradiction|].
  cbn [indexOf]. destruct (same_player x p) eqn:Ex; [lia|].
  destruct Hin as [-> | Hin]; [congruence|].
  assert (0 <= indexOf l p) as H by (apply IH; eauto).
  destruct (indexOf l p <? 0) eqn:E; [apply Z.ltb_lt in E|]; lia.
Qed.

Lemma splice_first {A} (x : A) (l : list A) : splice (x :: l) 0 1 = l.
Proof.
  unfold splice. cbn [List.length Z.ltb Z.compare].
  replace (Z.min 0 (Z.of_nat (S (List.length l)))) with 0 by lia.
  replace (Z.min (Z.max 1 0) (Z.of_nat (S (List.length l)) - 0)) with 1
    by lia.
  reflexivity.
Qed.

Lemma splice_next {A} (x : A) (l : list A) (i : Z) :
  0 <= i -> splice (x :: l) (i + 1) 1 = x :: splice l i 1.
Proof.
  intros Hi. unfold splice. cbn [List.length].
  set (len := Z.of_nat (List.length l)).
  replace (Z.of_nat (S (List.length l))) with (len + 1) by lia.
  assert (0 <= len) by (subst len; lia).
  replace (i + 1 <? 0) with false by (symmetry; apply Z.ltb_ge; lia).
  replace (i <? 0) with false by (symmetry; apply Z.ltb_ge; lia).
  replace (Z.min (i + 1) (len + 1)) with (Z.min i len + 1) by lia.
  replace (len + 1 - (Z.min i len + 1)) with (len - Z.min i len) by lia.
  set (s := Z.min i len). set (d := Z.min (Z.max 1 0) (len - s)).
  assert (0 <= s) by (subst s; lia). assert (0 <= d) by (subst d s; lia).
  replace (Z.to_nat (s + 1)) with (S (Z.to_nat s)) by lia.
  replace (Z.to_nat (s + 1 + d)) with (S (Z.to_nat (s + d))) by lia.
  reflexivity.
Qed.

(** [indexOf] then [splice(index, 1)] for a player that is there: its
    first occurrence goes. *)
Lemma splice_indexOf (l : list Player) (p : Player) :
  (exists x, In x l /\ same_player x p = true) ->
  splice l (indexOf l p) 1 = remove_first p l.
Proof.
  induction l as [|x l IH]; intros (y & Hin & Hy); [contradiction|].
  cbn [indexOf remove_first]. destruct (same_player x p) eqn:Ex.
  - apply splice_first.
  - destruct Hin as [-> | Hin]; [congruence|].
    assert (Hex : exists x, In x l /\ same_player x p = true) by eauto.
    pose proof (indexOf_present l p Hex) as Hi.
    destruct (indexOf l p <? 0) eqn:E; [apply Z.ltb_lt in E; lia|].
    rewrite splice_next by exact Hi. now rewrite IH.
Qed.

Lemma before_removal_all (k : nat) (changes : list Change) :
  (List.length (List.filter is_removal changes) <= k)%nat ->
  before_removal k changes = changes.
Proof.
  revert k. induction changes as [|c changes IH]; intros k; cbn; trivial.
  destruct (is_removal c); cbn [List.length].
  - destruct k as [|k]; [lia|]. intros H. f_equal. apply IH. lia.
  - intros H. f_equal. now apply IH.
Qed.

Lemma not_added_and_removed (c : Change) :
  String.eqb (type c) "removed" = true ->
  String.eqb (type c) "added" = false.
Proof. intros E. apply String.eqb_eq in E. now rewrite E. Qed.

(** The loop of [onAnimationMutations]: the removed players are released
    in order, as far as the answers let it, and the list is what the
    changes make of it, up to the removal that did not go through. *)
Lemma mutations_loop_run (changes : list Change) :
  forall w,
    let r := for_of changes (fun change =>
      when (String.eqb (type change) "added")
        (c <- self ;;
         update (set_animationPlayers
                   (animationPlayers c ++ [player change]))) ;;
      when (String.eqb (type change) "removed")
        (await (player_release (player change)) ;;
         c <- self ;;
         let index := indexOf (animationPlayers c) (player change) in
         update (set_animationPlayers
                   (splice (animationPlayers c) index 1)))) w in
    let k := accepted (answers w) in
    let removed := List.filter is_removal changes in
    calls (trace r)
      = firstn (S k) (map (fun c => player_release (player c)) removed)
    /\ (forall e, In e (trace r) -> is_remote e)
    /\ outcome r = awaited (List.length removed) (answers w)
    /\ animationPlayers (this (world r))
       = fold_left apply_change (before_removal k changes)
           (animationPlayers (this w)).
Proof.
  induction changes as [|c changes IH]; intros w; cbv zeta in *;
    cbn [for_of].
  - cbn. split; [|split; [|split]]; trivial. intros e [].
  - cbn [List.filter before_removal].
    destruct (is_removal c) eqn:Ei; pose proof Ei as Er;
      unfold is_removal in Er; rewrite Er.
    + rewrite (not_added_and_removed c Er). cbn [when].
      rewrite !bind_bind, bind_ret, !bind_bind, bind_await.
      cbn [map List.length].
      destruct (answers w) as [|a rest]; cbn [accepted].
      * cbn. split; [|split; [|split]]; trivial.
        intros e [<- | []]. exact I.
      * destruct (rejection a) as [x|] eqn:Ea.
        -- rewrite (awaited_rejected _ _ _ _ Ea). cbn.
           split; [|split; [|split]]; trivial.
           intros e [<- | [<- | []]]; exact I.
        -- rewrite (awaited_cons _ _ _ Ea). cbv zeta.
           rewrite ?bind_bind, bind_self, bind_update. simpl_result.
           match goal with
           | |- context [for_of changes ?body ?w'] =>
               destruct (IH w') as (Hc & He & Ho & Hl)
           end.
           simpl_result. cbn [calls firstn fold_left]. rewrite Hc, Ho, Hl.
           cbn [set_animationPlayers animationPlayers].
           assert (Es : apply_change (animationPlayers (this w)) c
                        = splice (animationPlayers (this w))
                            (indexOf (animationPlayers (this w)) (player c))
                            1).
           { unfold apply_change.
             now rewrite Er, (not_added_and_removed c Er). }
           rewrite Es.
           split; [|split; [|split]]; trivial.
           intros e [<- | [<- | Hin]]; try exact I. now apply He.
    + cbn [when]. rewrite !bind_bind.
      assert (Step : forall (B : Type) (k : unit -> Method B),
        bind (when (String.eqb (type c) "added")
                (c0 <- self ;;
                 update (set_animationPlayers
                           (animationPlayers c0 ++ [player c])))) k w
        = k tt {| this := set_animationPlayers
                            (apply_change (animationPlayers (this w)) c)
                            (this w);
                  panel := panel w; listeners := listeners w;
                  answers := answers w |}
          \/ (apply_change (animationPlayers (this w)) c
              = animationPlayers (this w)
              /\ bind (when (String.eqb (type c) "added")
                        (c0 <- self ;;
                         update (set_animationPlayers
                                   (animationPlayers c0 ++ [player c]))))
                   k w = k tt w)).
      { intros B k. unfold apply_change. rewrite Er.
        destruct (String.eqb (type c) "added"); cbn [when].
        - left. now rewrite bind_bind, bind_self, bind_update.
        - right. split; trivial. apply bind_ret. }
      destruct (Step _ (fun _ =>
        ret tt ;; for_of changes (fun change =>
          when (String.eqb (type change) "added")
            (c0 <- self ;;
             update (set_animationPlayers
                       (animationPlayers c0 ++ [player change]))) ;;
          when (String.eqb (type change) "removed")
            (await (player_release (player change)) ;;
             c0 <- self ;;
             update (set_animationPlayers
                       (splice (animationPlayers c0)
                          (indexOf (animationPlayers c0) (player change))
                          1)))))) as [-> | (Ea & ->)];
        rewrite bind_ret; cbn [fold_left].
      * match goal with
        | |- context [for_of changes ?body ?w'] =>
            destruct (IH w') as (Hc & He & Ho & Hl)
        end.
        simpl_result. rewrite Hc, Ho, Hl.
        split; [|split; [|split]]; trivial.
      * destruct (IH w) as (Hc & He & Ho & Hl).
        rewrite Hc, Ho, Hl, Ea.
        split; [|split; [|split]]; trivial.
Qed.

(** [onAnimationMutations] follows the changes in order, whatever their
    number.  It releases the "removed" players, in order and as far as the
    answers let it: it goes on while the releases are accepted, throws at
    the first rejected one, and returns after the last change.  The list
    is what the changes have made of it, one after the other, up to the
    removal that did not go through: the changes before a rejected release
    stay done.  An "added" player goes to the end of the list, already
    there or not; a "removed" player that the list holds loses its first
    occurrence; a change of any other type is ignored.  The players-updated
    event, with the new list, comes last and only when the method
    returns. *)
Theorem onAnimationMutations_follows_the_changes (w : World)
    (changes : list Change) :
  let r := onAnimationMutations changes w in
  let k := accepted (answers w) in
  let removed := List.filter is_removal changes in
  calls (trace r)
    = firstn (S k) (map (fun c => player_release (player c)) removed)
  /\ outcome r = awaited (List.length removed) (answers w)
  /\ animationPlayers (this (world r))
     = fold_left apply_change (before_removal k changes)
         (animationPlayers (this w))
  /\ (outcome r = Done tt ->
      before_removal k changes = changes
      /\ exists pre,
           trace r
           = pre ++ [EvEmit PLAYERS_UPDATED_EVENT
                       (Some (animationPlayers (this (world r))))]
           /\ forall e, In e pre -> is_remote e)
  /\ (outcome r <> Done tt -> forall e, In e (trace r) -> is_remote e)
  /\ (forall l c, type c = "added" -> apply_change l c = l ++ [player c])
  /\ (forall l c,
        type c = "removed" ->
        (exists x, In x l /\ same_player x (player c) = true) ->
        apply_change l c = remove_first (player c) l)
  /\ (forall l c,
        type c <> "added" -> type c <> "removed" -> apply_change l c = l).
Proof.
  cbv zeta. unfold onAnimationMutations.
  destruct (mutations_loop_run changes w) as (Hc & He & Ho & Hl).
  cbv zeta in Hc, He, Ho, Hl.
  rewrite outcome_bind, world_bind, trace_bind, calls_app, Hc, Ho.
  split; [|split; [|split; [|split; [|split; [|split; [|split]]]]]].
  - destruct (awaited _ _) as [[]| | |]; rewrite ?bind_self; cbn;
      now rewrite app_nil_r.
  - destruct (awaited _ _) as [[]| | |]; rewrite ?bind_self; reflexivity.
  - destruct (awaited _ _) as [[]| | |]; rewrite ?bind_self; exact Hl.
  - destruct (awaited _ _) as [[]| | |] eqn:Ea; try discriminate.
    intros _. apply awaited_done in Ea. rewrite bind_self.
    split; [now apply before_removal_all|].
    eexists. split; [reflexivity | exact He].
  - destruct (awaited _ _) as [[]| | |];
      [intros N; now elim N | intros _; now rewrite app_nil_r..].
  - intros l c E. unfold apply_change. now rewrite E.
  - intros l c E Hp. unfold apply_change. rewrite E. cbn.
    now apply splice_indexOf.
  - intros l c Ea Er. unfold apply_change.
    apply String.eqb_neq in Ea, Er. now rewrite Ea, Er.
Qed.

(** ** An initialization that succeeds *)

Lemma startListeners_done w :
  outcome (startListeners w) = Done tt ->
  world (startListeners w)
  = {| this := this w; panel := panel w;
       listeners := listeners w ++ started_listeners;
       answers := answers w |}.
Proof.
  unfold startListeners. rewrite bind_on, bind_on_sidebar. simpl_result.
  destruct (currentTabID (panel w)); [|discriminate].
  intros _. rewrite bind_on. unfold on. rewrite bind_get. cbn.
  now rewrite <- !app_assoc.
Qed.

Lemma ready_await ts c :
  preserves (fun w => animationsFront (this w) = true
                      /\ traits (this w) = Some ts) (await c).
Proof.
  intros w H. unfold await. destruct (answers w) as [|a rest]; trivial.
  now destruct (rejection a).
Qed.

Lemma ready_update ts f :
  (forall c, animationsFront (f c) = animationsFront c) ->
  (forall c, traits (f c) = traits c) ->
  preserves (fun w => animationsFront (this w) = true
                      /\ traits (this w) = Some ts) (update f).
Proof. intros Hf Hg w H. cbn. now rewrite Hf, Hg. Qed.

Lemma ready_on ts src name h :
  preserves (fun w => animationsFront (this w) = true
                      /\ traits (this w) = Some ts) (on src name h).
Proof. intros w H. exact H. Qed.

Lemma heard_await l c : preserves (fun w => In l (listeners w)) (await c).
Proof.
  intros w H. unfold await. destruct (answers w) as [|a rest]; trivial.
  now destruct (rejection a).
Qed.

Lemma heard_update l f : preserves (fun w => In l (listeners w)) (update f).
Proof. intros w H. exact H. Qed.

Lemma heard_on l src name h :
  preserves (fun w => In l (listeners w)) (on src name h).
Proof. intros w H. cbn. apply in_or_app. now left. Qed.

#[local] Hint Resolve ready_await ready_on heard_await heard_update
  heard_on : kept.
#[local] Hint Extern 1 (preserves _ (update _)) =>
  apply ready_update; intros ?; reflexivity : kept.

Lemma ready_onNewNodeFront ts :
  preserves (fun w => animationsFront (this w) = true
                      /\ traits (this w) = Some ts) onNewNodeFront.
Proof.
  unfold onNewNodeFront, refreshAnimationPlayers, destroyAnimationPlayers.
  unfold self, trait, on_front. kept.
Qed.

Lemma heard_onNewNodeFront l :
  preserves (fun w => In l (listeners w)) onNewNodeFront.
Proof.
  unfold onNewNodeFront, refreshAnimationPlayers, destroyAnimationPlayers.
  unfold self, trait, on_front. kept.
Qed.

(** An initialization that returns, on a controller that is new and is not
    being destroyed, has set everything up: the deferred is resolved, the
    controller holds a front and the capabilities that the target answered
    for, question by question, and the three listeners of [startListeners]
    are in the table.  Another [initialize] then does nothing. *)
Theorem initialize_sets_the_controller_up (w : World) :
  initialized (this w) = None ->
  destroyed (this w) = None ->
  outcome (initialize w) = Done tt ->
  let w' := world (initialize w) in
  initialized (this w') = Some true
  /\ animationsFront (this w') = true
  /\ (exists ts,
        traits (this w') = Some ts
        /\ forall k name am,
             nth_error config k = Some (name, am) ->
             exists a,
               nth_error (answers w) k = Some a
               /\ trait_of ts name = flag a)
  /\ (forall l, In l started_listeners -> In l (listeners w'))
  /\ initialize w' = idle w'.
Proof.
  intros Hi Hd Ho. cbv zeta.
  assert (Again : forall w',
    initialized (this w') = Some true -> initialize w' = idle w').
  { intros w' E. unfold initialize. now rewrite bind_self, E. }
  assert (Eq : initialize w =
    (traits <- getServerTraits ;;
     update (set_traits (Some traits)) ;;
     c <- self ;;
     match destroyed c with
     | Some _ =>
         emit (EvWarn "Could not fully initialize the AnimationsController")
     | None =>
         startListeners ;;
         onNewNodeFront ;;
         update (set_initialized (Some true))
     end)
      {| this := set_animationsFront true
                   (set_initialized (Some false) (this w));
         panel := panel w; listeners := listeners w;
         answers := answers w |}).
  { unfold initialize. now rewrite bind_self, Hi, !bind_update. }
  revert Ho. rewrite Eq. clear Eq.
  match goal with
  | |- context [bind getServerTraits ?k ?w2] =>
      pose proof (getServerTraits_loop_done config [] w2) as Hg;
      destruct (getServerTraits w2) as [o tr w3] eqn:Eg;
      rewrite (bind_run _ _ _ _ _ _ Eg)
  end.
  destruct o as [ts|x| |]; try discriminate.
  unfold getServerTraits in Eg. rewrite Eg in Hg. simpl_result.
  destruct (Hg ts) as (_ & Hk & _ & Ht); trivial.
  { cbn. repeat constructor; cbn; intuition discriminate. }
  clear Hg Eg. rewrite bind_update, bind_self. simpl_result.
  cbn [set_traits destroyed]. rewrite Ht. cbn [set_animationsFront
    set_initialized destroyed]. rewrite Hd.
  match goal with
  | |- context [bind startListeners ?k ?w4] =>
      pose proof (startListeners_done w4) as Hs;
      destruct (startListeners w4) as [o tr' w5] eqn:Es;
      rewrite (bind_run _ _ _ _ _ _ Es)
  end.
  destruct o as [[]|x| |]; try discriminate.
  simpl_result. specialize (Hs eq_refl). subst w5.
  match goal with
  | |- context [bind onNewNodeFront ?k ?w5] =>
      pose proof (ready_onNewNodeFront ts w5) as Hr;
      pose proof (fun l => heard_onNewNodeFront l w5) as Hh;
      destruct (onNewNodeFront w5) as [o tr'' w6] eqn:En;
      rewrite (bind_run _ _ _ _ _ _ En)
  end.
  destruct o as [[]|x| |]; try discriminate.
  simpl_result. intros _. rewrite update_eq. simpl_result.
  destruct Hr as (Hf & Hts).
  { cbn. now split. }
  split; [reflexivity|]. split; [exact Hf|]. split; [|split].
  - exists ts. split; [exact Hts|].
    intros k name am E. destruct (Hk k name am E) as (a & Ha & _ & Hfl).
    exists a. split; [exact Ha | exact Hfl].
  - intros l Hl. apply Hh. apply in_or_app. now right.
  - apply Again. reflexivity.
Qed.

(** ** On the sample page *)

Import Sample.

Lemma onNewNodeFront_says_when_it_is_done_witness :
  isPanelVisible (panel inspecting) = true
  /\ ref_eqb (nodeFront (this inspecting))
             (selection_nodeFront (panel inspecting)) = false
  /\ nodeFront (this (world (onNewNodeFront inspecting))) = NodeFront 2
  /\ onNewNodeFront (world (onNewNodeFront inspecting))
     = idle (world (onNewNodeFront inspecting)).
Proof.
  split; [reflexivity|]. split; [reflexivity|].
  destruct (onNewNodeFront_says_when_it_is_done inspecting eq_refl eq_refl)
    as (_ & _ & _ & Hn & Ha).
  split; [exact Hn | exact (Ha eq_refl)].
Defined.

Lemma hidden_panel_ignores_the_inspector_witness :
  only_controller_listeners hidden
  /\ isPanelVisible (panel hidden) = false
  /\ selection <> front_events
  /\ fire selection "new-node-front" [] hidden = idle hidden.
Proof.
  assert (Hl : only_controller_listeners hidden) by (intros l Hl; exact Hl).
  assert (Hs : selection <> front_events) by discriminate.
  split; [exact Hl|]. split; [reflexivity|]. split; [exact Hs|].
  exact (hidden_panel_ignores_the_inspector hidden selection
           "new-node-front" [] Hl eq_refl Hs).
Defined.

Lemma stopListeners_removes_the_listeners_witness :
  currentTabID (panel inspecting) <> None
  /\ (isListeningToMutations (this inspecting) = true ->
      animationsFront (this inspecting) = true)
  /\ outcome (stopListeners inspecting) = Done tt
  /\ this (world (stopListeners inspecting)) = this inspecting.
Proof.
  assert (Hs : currentTabID (panel inspecting) <> None) by discriminate.
  assert (Hf : isListeningToMutations (this inspecting) = true ->
               animationsFront (this inspecting) = true) by discriminate.
  split; [exact Hs|]. split; [exact Hf|].
  destruct (stopListeners_removes_the_listeners inspecting Hs Hf)
    as (Ho & _ & Ht & _).
  split; [exact Ho | exact Ht].
Defined.

Lemma failed_initialize_is_never_retried_witness :
  initialized (this (answering [broken "no such actor"] opening)) = None
  /\ outcome (initialize (answering [broken "no such actor"] opening))
     = Threw "no such actor"
  /\ initialize
       (world (initialize (answering [broken "no such actor"] opening)))
     = Build_Result Waiting []
         (world (initialize (answering [broken "no such actor"] opening))).
Proof.
  split; [reflexivity|]. split; [reflexivity|].
  exact (proj2 (failed_initialize_is_never_retried
                  (answering [broken "no such actor"] opening)
                  "no such actor" eq_refl eq_refl)).
Defined.

Lemma failed_destroy_is_never_retried_witness :
  initialized (this (answering [broken "gone"] bare)) <> None
  /\ destroyed (this (answering [broken "gone"] bare)) = None
  /\ outcome (destroy (answering [broken "gone"] bare)) = Threw "gone"
  /\ animationsFront
       (this (world (destroy (answering [broken "gone"] bare)))) = true
  /\ destroy (world (destroy (answering [broken "gone"] bare)))
     = Build_Result Waiting []
         (world (destroy (answering [broken "gone"] bare))).
Proof.
  assert (Hi : initialized (this (answering [broken "gone"] bare)) <> None)
    by discriminate.
  split; [exact Hi|]. split; [reflexivity|]. split; [reflexivity|].
  destruct (failed_destroy_is_never_retried
              (answering [broken "gone"] bare) "gone" Hi eq_refl eq_refl)
    as ((_ & Hf) & _ & Hd).
  split; [exact Hf | exact Hd].
Defined.

Lemma destroy_leaves_nothing_behind_witness :
  initialized (this bare) <> None
  /\ destroyed (this bare) = None
  /\ outcome (destroy bare) = Done tt
  /\ this (world (destroy bare)) = destroyed_controller (this bare)
  /\ destroy (world (destroy bare)) = idle (world (destroy bare)).
Proof.
  assert (Hi : initialized (this bare) <> None) by discriminate.
  split; [exact Hi|]. split; [reflexivity|]. split; [reflexivity|].
  destruct (destroy_leaves_nothing_behind bare Hi eq_refl eq_refl)
    as (Ht & _ & _ & _ & Hd).
  split; [exact Ht | exact Hd].
Defined.

Lemma toggleAll_logs_what_fails_witness :
  traits (this (answering [broken "boom"] inspecting)) = Some all_traits
  /\ animationsFront (this (answering [broken "boom"] inspecting)) = true
  /\ outcome (toggleAll (answering [broken "boom"] inspecting)) = Done tt
  /\ In (EvError "boom")
        (trace (toggleAll (answering [broken "boom"] inspecting))).
Proof.
  split; [reflexivity|]. split; [reflexivity|].
  destruct (toggleAll_logs_what_fails
              (answering [broken "boom"] inspecting) all_traits
              eq_refl eq_refl) as (_ & H & _).
  destruct (H eq_refl) as (_ & _ & Hlog).
  exact (Hlog (broken "boom") "boom" (or_intror (or_introl eq_refl)) eq_refl).
Defined.

Lemma initialize_sets_the_controller_up_witness :
  initialized (this opening) = None
  /\ destroyed (this opening) = None
  /\ outcome (initialize opening) = Done tt
  /\ initialized (this (world (initialize opening))) = Some true
  /\ initialize (world (initialize opening))
     = idle (world (initialize opening)).
Proof.
  split; [reflexivity|]. split; [reflexivity|]. split; [reflexivity|].
  destruct (initialize_sets_the_controller_up opening eq_refl eq_refl
              eq_refl) as (Hi & _ & _ & _ & Ha).
  split; [exact Hi | exact Ha].
Defined.

Lemma getServerTraits_reads_each_capability_witness :
  outcome (getServerTraits (answering [fine; broken "no such actor"] opening))
    = Threw "no such actor"
  /\ calls (trace (getServerTraits
                     (answering [fine; broken "no such actor"] opening)))
     = [target_actorHasMethod "animations" "toggleAll";
        target_actorHasMethod "animations" "toggleSeveral"].
Proof.
  destruct (getServerTraits_reads_each_capability
              (answering [fine; broken "no such actor"] opening))
    as (Hc & _ & Hf & _).
  split; [|exact Hc].
  destruct (Hf ltac:(cbn; lia)) as (e & Ee & Ho).
  injection Ee as <-. exact Ho.
Defined.

Lemma onAnimationMutations_follows_the_changes_witness :
  outcome (onAnimationMutations
             [{| type := "added"; player := playing 3 30 |};
              {| type := "removed"; player := playing 1 10 |}]
             (answering [broken "gone"] bare))
    = Threw "gone"
  /\ animationPlayers
       (this (world (onAnimationMutations
                       [{| type := "added"; player := playing 3 30 |};
                        {| type := "removed"; player := playing 1 10 |}]
                       (answering [broken "gone"] bare))))
     = [playing 1 10; playing 2 20; playing 3 30]
  /\ animationPlayers
       (this (world (onAnimationMutations
                       [{| type := "added"; player := playing 3 30 |};
                        {| type := "removed"; player := playing 1 10 |}]
                       (answering [fine] bare))))
     = [playing 2 20; playing 3 30].
Proof.
  destruct (onAnimationMutations_follows_the_changes
              (answering [broken "gone"] bare)
              [{| type := "added"; player := playing 3 30 |};
               {| type := "removed"; player := playing 1 10 |}])
    as (_ & Ho & Hl & _).
  destruct (onAnimationMutations_follows_the_changes
              (answering [fine] bare)
              [{| type := "added"; player := playing 3 30 |};
               {| type := "removed"; player := playing 1 10 |}])
    as (_ & _ & Hl' & _).
  split; [exact Ho|]. split; [exact Hl | exact Hl'].
Defined.

Lemma batch_methods_ask_the_server_once_witness :
  traits (this inspecting) = Some all_traits
  /\ animationsFront (this inspecting) = true
  /\ trace (toggleCurrentAnimations true inspecting)
     = [EvCall (animationsFront_toggleSeveral [playing 1 10] true);
        EvSettled fine]
  /\ outcome (toggleCurrentAnimations true inspecting) = Done tt
  /\ calls (trace (setPlaybackRateAll 2
                     {| this := controller [("hasSetPlaybackRate", true)]
                                  [playing 1 10; playing 2 20; playing 3 30];
                        panel := page 1; listeners := [];
                        answers := [fine; broken "gone"; fine] |}))
     = [player_setPlaybackRate (playing 1 10) 2;
        player_setPlaybackRate (playing 2 20) 2]
  /\ outcome (setPlaybackRateAll 2
                {| this := controller [("hasSetPlaybackRate", true)]
                             [playing 1 10; playing 2 20; playing 3 30];
                   panel := page 1; listeners := [];
                   answers := [fine; broken "gone"; fine] |})
     = Threw "gone".
Proof.
  split; [reflexivity|]. split; [reflexivity|].
  destruct (batch_methods_ask_the_server_once inspecting all_traits true 0 1
              eq_refl eq_refl) as (H & _).
  destruct (H eq_refl) as (Ht & Ho & _).
  split; [exact Ht|]. split; [exact Ho|].
  destruct (batch_methods_ask_the_server_once
              {| this := controller [("hasSetPlaybackRate", true)]
                           [playing 1 10; playing 2 20; playing 3 30];
                 panel := page 1; listeners := [];
                 answers := [fine; broken "gone"; fine] |}
              [("hasSetPlaybackRate", true)] true 0 2 eq_refl eq_refl)
    as (_ & _ & _ & F).
  destruct (F eq_refl) as (_ & G). destruct (G eq_refl) as (Hc & Hout & _).
  split; [exact Hc | exact Hout].
Defined.

End AnimationsFurther.
